(** * Asynchronous structured logger of hyp3rd/go-base-app-skel

    A shallow embedding of the logger subsystem:
    - [Logger]  : package [logger]  (levels, fields, configuration);
    - [Output]  : package [output]  (file, console and multi writers,
                  rotation and background compression);
    - [Adapter] : package [adapter] (the asynchronous logger core).

    Go values are modelled as follows.  Integers are [Z]; [int64] sums are
    wrapped explicitly.  An [error] is its message ([string]), a nil error is
    [None].  Pointers are addresses into finite maps of the state, so that
    aliasing between a logger and the loggers derived from it is visible.
    Operating-system calls take their outcome from an explicit environment
    record, and every operation records the calls it makes in a trace.
    Mutexes are left out: every operation below runs to its end before the
    next one starts.  So are the diagnostics printed on standard error, which
    return nothing and decide nothing. *)

From Stdlib Require Import ZArith String Ascii List Lia Bool.
From stdpp Require Import gmap strings list pretty.

Open Scope string_scope.
Open Scope Z_scope.

(** ** Results of Go calls: a value, a run-time panic, or a call that never
    returns. *)

Inductive result (A : Type) : Type :=
| Ret (a : A)
| Panic (msg : string)
| Blocked.
Arguments Ret {A} a.
Arguments Panic {A} msg.
Arguments Blocked {A}.

#[global] Instance result_ret : MRet result := fun A a => Ret a.
#[global] Instance result_bind : MBind result := fun A B k r =>
  match r with
  | Ret a => k a
  | Panic m => Panic m
  | Blocked => Blocked
  end.

(** An [error] value: [None] is nil, [Some msg] carries [Error()]. *)
Definition error := option string.

Definition nl : string := String "010"%char EmptyString.
Definition dquote : ascii := "034"%char.

(** [bytes.Buffer]: the bytes accumulated so far. *)
Definition Buffer := string.
Definition WriteString (buf : Buffer) (s : string) : Buffer := buf ++ s.
Definition WriteByte (buf : Buffer) (c : ascii) : Buffer := buf ++ String c EmptyString.

(** [fmt]'s [%d]. *)
Definition fmt_d (n : Z) : string := pretty n.

(** [fmt]'s [%-5s] and the like: left-justified, blanks added on the right up
    to the width; a longer string is printed whole. *)
Fixpoint spaces (n : nat) : string :=
  match n with
  | O => ""
  | S k => String " "%char (spaces k)
  end.

Definition fmt_left_justified (width : nat) (s : string) : string :=
  s ++ spaces (width - String.length s).

(** [%5s]: right-justified, blanks added on the left. *)
Definition fmt_right_justified (width : nat) (s : string) : string :=
  spaces (width - String.length s) ++ s.

(** ** Package logger *)

Module Logger.

(** [type Level uint8] *)
Definition Level := Z.

Definition TraceLevel : Level := 0.
Definition DebugLevel : Level := 1.
Definition InfoLevel : Level := 2.
Definition WarnLevel : Level := 3.
Definition ErrorLevel : Level := 4.
Definition FatalLevel : Level := 5.

(** [Level.String] *)
Definition Level_String (l : Level) : string :=
  if l =? TraceLevel then "TRACE"
  else if l =? DebugLevel then "DEBUG"
  else if l =? InfoLevel then "INFO"
  else if l =? WarnLevel then "WARN"
  else if l =? ErrorLevel then "ERROR"
  else if l =? FatalLevel then "FATAL"
  else "UNKNOWN".

(** [time.Time], seen through [Format(layout)]. *)
Record Time := mkTime { Format : string -> string }.

Definition RFC3339 : string := "2006-01-02T15:04:05Z07:00".

(** The dynamic type of a field value, as far as the type switch of
    [writeField] tells values apart.  [VOther] is any other value, carried
    with its [%v] rendering. *)
Inductive Value :=
| VString (s : string)
| VTime (t : Time)
| VError (msg : string)
| VInt (n : Z)
| VBool (b : bool)
| VOther (shown : string).

Definition fmt_v (v : Value) : string :=
  match v with
  | VString s => s
  | VTime t => Format t "2006-01-02 15:04:05.999999999 -0700 MST"
  | VError m => m
  | VInt n => fmt_d n
  | VBool true => "true"
  | VBool false => "false"
  | VOther s => s
  end.

(** [Field]; [FValue] is the field [Value]. *)
Record Field := mkField { Key : string; FValue : Value }.

(** [logger.Config].  [CLevel] is the field [Level]; [Output] is the identity
    of the sink, [None] a nil writer. *)
Record Config := mkConfig {
  CLevel : Level;
  Output : option nat;
  EnableStackTrace : bool;
  EnableCaller : bool;
  TimeFormat : string;
  EnableJSON : bool;
  BufferSize : Z;
  AsyncBufferSize : Z;
  DisableTimestamp : bool;
  AdditionalFields : list Field
}.

Definition DefaultAsyncBufferSize : Z := 1024.

Definition with_Level (c : Config) (l : Level) : Config :=
  {| CLevel := l; Output := Output c; EnableStackTrace := EnableStackTrace c;
     EnableCaller := EnableCaller c; TimeFormat := TimeFormat c;
     EnableJSON := EnableJSON c; BufferSize := BufferSize c;
     AsyncBufferSize := AsyncBufferSize c;
     DisableTimestamp := DisableTimestamp c;
     AdditionalFields := AdditionalFields c |}.

Definition with_AsyncBufferSize (c : Config) (n : Z) : Config :=
  {| CLevel := CLevel c; Output := Output c; EnableStackTrace := EnableStackTrace c;
     EnableCaller := EnableCaller c; TimeFormat := TimeFormat c;
     EnableJSON := EnableJSON c; BufferSize := BufferSize c;
     AsyncBufferSize := n;
     DisableTimestamp := DisableTimestamp c;
     AdditionalFields := AdditionalFields c |}.

End Logger.

(** ** Operating system: directory entries, inodes, open files *)

Module OSys.

(** A path, split the way [filepath.Dir] and [filepath.Base] split it. *)
Definition Path := (string * string)%type.
Definition filepath_Dir (p : Path) : string := p.1.
Definition filepath_Base (p : Path) : string := p.2.
Definition filepath_Join (dir base : string) : Path := (dir, base).

(** [path + sfx] *)
Definition path_suffix (p : Path) (sfx : string) : Path := (p.1, p.2 ++ sfx).

(** An open [*os.File]: the inode it refers to, whether it was opened with
    O_APPEND, its offset, and whether [Close] has been called on it. *)
Record OsFile := mkOsFile {
  f_ino : nat; f_append : bool; f_off : nat; f_closed : bool
}.

(** What an operation did, in order.  [EvRotate] marks an entry into
    [FileWriter.rotate]; [EvGo] the start of a goroutine. *)
Inductive Event :=
| EvClose (h : nat)
| EvSync (h : nat)
| EvWrite (h : nat) (data : string) (n : Z)
| EvRename (from to : Path)
| EvOpen (p : Path) (h : nat)
| EvRemove (p : Path)
| EvRotate (p : Path)
| EvGo (task : string) (p : Path).

Record OS := mkOS {
  names : gmap Path nat;        (* directory entries *)
  inodes : gmap nat string;     (* file contents *)
  files : gmap nat OsFile;      (* open file objects, by address *)
  next_id : nat;                (* next unused inode number and address *)
  trace : list Event
}.

Definition emit (e : Event) (os : OS) : OS :=
  {| names := names os; inodes := inodes os; files := files os;
     next_id := next_id os; trace := trace os ++ [e] |}.

Definition set_names (m : gmap Path nat) (os : OS) : OS :=
  {| names := m; inodes := inodes os; files := files os;
     next_id := next_id os; trace := trace os |}.

Definition set_files (m : gmap nat OsFile) (os : OS) : OS :=
  {| names := names os; inodes := inodes os; files := m;
     next_id := next_id os; trace := trace os |}.

(** Contents of the file a path names, if any. *)
Definition read_path (os : OS) (p : Path) : option string :=
  i ← names os !! p; inodes os !! i.

(** Addresses of open files and inode numbers in use lie below [next_id]. *)
Definition well_formed (os : OS) : Prop :=
  map_Forall (fun h _ => (h < next_id os)%nat) (files os) /\
  map_Forall (fun _ k => (k < next_id os)%nat) (names os).

#[global] Instance well_formed_dec os : Decision (well_formed os) := and_dec _ _.

(** The process at start: the three standard streams are open. *)
Definition boot : OS :=
  {| names := ∅;
     inodes := <[2%nat := ""]> (<[1%nat := ""]> (<[0%nat := ""]> ∅));
     files := <[2%nat := mkOsFile 2 true 0 false]>
                (<[1%nat := mkOsFile 1 true 0 false]>
                   (<[0%nat := mkOsFile 0 false 0 false]> ∅));
     next_id := 3; trace := [] |}.

Definition ErrInvalid : string := "invalid argument".
Definition ErrClosed : string := "file already closed".
Definition ErrNotExist : string := "no such file or directory".
Definition ErrShortWrite : string := "short write".

(** [File.Close] of os.File: a nil receiver and a closed file are errors; the
    descriptor is released even when close(2) reports [fault]. *)
Definition File_Close (h : option nat) (fault : error) (os : OS) : error * OS :=
  match h with
  | None => (Some ErrInvalid, os)
  | Some a =>
      match files os !! a with
      | None => (Some ErrInvalid, os)
      | Some f =>
          if f_closed f then (Some ErrClosed, emit (EvClose a) os)
          else (fault,
                emit (EvClose a)
                  (set_files
                     (<[a := mkOsFile (f_ino f) (f_append f) (f_off f) true]> (files os))
                     os))
      end
  end.

(** [File.Sync] of os.File *)
Definition File_Sync (h : option nat) (fault : error) (os : OS) : error * OS :=
  match h with
  | None => (Some ErrInvalid, os)
  | Some a =>
      match files os !! a with
      | None => (Some ErrInvalid, os)
      | Some f =>
          if f_closed f then (Some ErrClosed, emit (EvSync a) os)
          else (fault, emit (EvSync a) os)
      end
  end.

(** First [n] bytes of [s], and the rest. *)
Fixpoint take_bytes (n : nat) (s : string) : string :=
  match n, s with
  | S k, String c r => String c (take_bytes k r)
  | _, _ => ""
  end.

Fixpoint drop_bytes (n : nat) (s : string) : string :=
  match n, s with
  | S k, String _ r => drop_bytes k r
  | _, _ => s
  end.

(** A write of [new] at offset [off] of a file holding [old]. *)
Definition write_at (off : nat) (old new : string) : string :=
  take_bytes off old ++ new ++ drop_bytes (off + String.length new) old.

(** [File.Write] of os.File.  A file opened with O_APPEND grows at its end,
    any other is written at its offset.  The kernel accepts [accept] bytes
    (at most [len(data)]); fewer than all without an error of its own is
    [io.ErrShortWrite]. *)
Definition File_Write (h : option nat) (data : string) (accept : nat)
    (fault : error) (os : OS) : (Z * error) * OS :=
  match h with
  | None => ((0, Some ErrInvalid), os)
  | Some a =>
      match files os !! a with
      | None => ((0, Some ErrInvalid), os)
      | Some f =>
          if f_closed f then ((0, Some ErrClosed), emit (EvWrite a data 0) os)
          else
            let n := Nat.min accept (String.length data) in
            let old := default "" (inodes os !! f_ino f) in
            let content :=
              if f_append f then old ++ take_bytes n data
              else write_at (f_off f) old (take_bytes n data) in
            let off := if f_append f then String.length old else f_off f in
            let err :=
              match fault with
              | Some e => Some e
              | None => if (n =? String.length data)%nat then None
                        else Some ErrShortWrite
              end in
            ((Z.of_nat n, err),
             emit (EvWrite a data (Z.of_nat n))
               {| names := names os;
                  inodes := <[f_ino f := content]> (inodes os);
                  files := <[a := mkOsFile (f_ino f) (f_append f) (off + n) false]>
                             (files os);
                  next_id := next_id os; trace := trace os |})
      end
  end.

(** [os.Rename] *)
Definition Rename (from to : Path) (fault : error) (os : OS) : error * OS :=
  match fault with
  | Some e => (Some e, os)
  | None =>
      match names os !! from with
      | None => (Some ErrNotExist, os)
      | Some i =>
          (None, emit (EvRename from to)
                   (set_names (<[to := i]> (delete from (names os))) os))
      end
  end.

(** [os.OpenFile(p, flags, perm)]: [create] is O_CREATE, [append] is
    O_APPEND.  Returns the address of the new [*os.File]. *)
Definition OpenFile (p : Path) (create append : bool) (fault : error) (os : OS)
    : (option nat * error) * OS :=
  match fault with
  | Some e => ((None, Some e), os)
  | None =>
      match names os !! p with
      | Some i =>
          let a := next_id os in
          ((Some a, None),
           emit (EvOpen p a)
             {| names := names os; inodes := inodes os;
                files := <[a := mkOsFile i append 0 false]> (files os);
                next_id := S a; trace := trace os |})
      | None =>
          if create then
            let i := next_id os in
            let a := S i in
            ((Some a, None),
             emit (EvOpen p a)
               {| names := <[p := i]> (names os);
                  inodes := <[i := ""]> (inodes os);
                  files := <[a := mkOsFile i append 0 false]> (files os);
                  next_id := S a; trace := trace os |})
          else ((None, Some ErrNotExist), os)
      end
  end.

(** [os.Remove]: the directory entry goes, open files keep the inode. *)
Definition Remove (p : Path) (fault : error) (os : OS) : error * OS :=
  match fault with
  | Some e => (Some e, os)
  | None =>
      match names os !! p with
      | None => (Some ErrNotExist, os)
      | Some _ => (None, emit (EvRemove p) (set_names (delete p (names os)) os))
      end
  end.

(** [os.Stat(p)], as far as [Size()] goes. *)
Definition Stat_Size (p : Path) (fault : error) (os : OS) : option Z * error :=
  match fault with
  | Some e => (None, Some e)
  | None =>
      match read_path os p with
      | None => (None, Some ErrNotExist)
      | Some c => (Some (Z.of_nat (String.length c)), None)
      end
  end.

(** *** Vocabulary for statements about system calls *)

(** The inode an open file refers to. *)
Definition handle_ino (os : OS) (h : nat) : option nat := f_ino <$> files os !! h.

(** What a call leaves alone: directory entries, the inodes of open files
    and the supply of unused numbers. *)
Record steady (os os' : OS) : Prop := mkSteady {
  st_names : names os' = names os;
  st_handles : forall h j, handle_ino os h = Some j -> handle_ino os' h = Some j;
  st_next : (next_id os <= next_id os')%nat
}.

(** Open files have addresses below [next_id]. *)
Definition handles_below (os : OS) : Prop :=
  forall h, is_Some (files os !! h) -> (h < next_id os)%nat.

(** [os'] continues the trace of [os] with events that all satisfy [Q]. *)
Definition trace_ext (Q : Event -> Prop) (os os' : OS) : Prop :=
  exists evs, trace os' = (trace os ++ evs)%list /\ Forall Q evs.

(** Any event but the removal of [p]. *)
Definition keeps_p (p : Path) (e : Event) : Prop := e <> EvRemove p.

(** [File.Stat] of os.File, as far as [Size()] goes. *)
Definition File_Stat_Size (h : option nat) (fault : error) (os : OS)
    : option Z * error :=
  match h with
  | None => (None, Some ErrInvalid)
  | Some a =>
      match files os !! a with
      | None => (None, Some ErrInvalid)
      | Some f =>
          if f_closed f then (None, Some ErrClosed)
          else
            match fault with
            | Some e => (None, Some e)
            | None =>
                (Some (Z.of_nat (String.length (default "" (inodes os !! f_ino f)))),
                 None)
            end
      end
  end.

(** The open file [h] appends to inode [i]. *)
Definition appends_to (os : OS) (h i : nat) : Prop :=
  exists off, files os !! h = Some (mkOsFile i true off false).

(** No directory entry names inode [i]. *)
Definition unnamed (os : OS) (i : nat) : Prop :=
  forall q, names os !! q <> Some i.

End OSys.

(** [ewrap.Wrap(err, msg)] and [ewrap.Wrapf(err, msg)]: the message followed
    by the cause. *)
Definition ewrap_Wrap (cause msg : string) : string := msg ++ ": " ++ cause.

(** ** Package output: file writer *)

Module Output.
Import OSys.

(** The value of an [int64] computation whose exact result is [z]. *)
Definition int64_wrap (z : Z) : Z := (z + 2 ^ 63) mod 2 ^ 64 - 2 ^ 63.

(** Outcomes of the system calls one [FileWriter] method makes. *)
Record Env := mkEnv {
  now : string;            (* time.Now().Format("2006-01-02T15-04-05") *)
  close_fault : error;
  rename_fault : error;
  open_fault : error;
  write_accept : nat;
  write_fault : error;
  sync_fault : error
}.

(** Every call succeeds; writes are complete. *)
Definition no_faults : Env :=
  {| now := "2024-01-02T03-04-05"; close_fault := None; rename_fault := None;
     open_fault := None; write_accept := 4096; write_fault := None;
     sync_fault := None |}.

(** [FileWriter]; [file] is [None] once the writer is closed. *)
Record FileWriter := mkFileWriter {
  file : option nat;
  path : Path;
  maxSize : Z;
  size : Z;
  compress : bool
}.

Definition set_file_size (w : FileWriter) (f : option nat) (sz : Z) : FileWriter :=
  {| file := f; path := path w; maxSize := maxSize w; size := sz;
     compress := compress w |}.

(** [filepath.Join(filepath.Dir(w.path), Base(w.path) + "." + timestamp)] *)
Definition backupPath (w : FileWriter) (timestamp : string) : Path :=
  filepath_Join (filepath_Dir (path w))
                (filepath_Base (path w) ++ "." ++ timestamp).

(** [rotate]: close, rename to the time-stamped backup, start the
    compression of the backup in the background, open a fresh file. *)
Definition rotate (w : FileWriter) (env : Env) (os : OS)
    : error * FileWriter * OS :=
  match File_Close (file w) (close_fault env) (emit (EvRotate (path w)) os) with
  | (Some err, os1) => (Some (ewrap_Wrap err "closing current log file"), w, os1)
  | (None, os1) =>
      let backup := backupPath w (now env) in
      match Rename (path w) backup (rename_fault env) os1 with
      | (Some err, os2) => (Some (ewrap_Wrap err "renaming log file"), w, os2)
      | (None, os2) =>
          let os3 := if compress w then emit (EvGo "compressFile" backup) os2
                     else os2 in
          match OpenFile (path w) true true (open_fault env) os3 with
          | ((_, Some err), os4) =>
              (Some (ewrap_Wrap err "creating new log file"), w, os4)
          | ((f, None), os4) => (None, set_file_size w f 0, os4)
          end
      end
  end.

(** The part of [Write] after the rotation check. *)
Definition write_file (w : FileWriter) (data : string) (env : Env) (os : OS)
    : (Z * error) * FileWriter * OS :=
  match File_Write (file w) data (write_accept env) (write_fault env) os with
  | ((bytesWritten, Some err), os1) =>
      ((bytesWritten, Some (ewrap_Wrap err "failed writing to log file")), w, os1)
  | ((bytesWritten, None), os1) =>
      ((bytesWritten, None),
       set_file_size w (file w) (int64_wrap (size w + bytesWritten)), os1)
  end.

(** [w.size+int64(len(data)) > w.maxSize] *)
Definition needs_rotation (w : FileWriter) (data : string) : bool :=
  int64_wrap (size w + Z.of_nat (String.length data)) >? maxSize w.

(** [FileWriter.Write] *)
Definition FileWriter_Write (w : FileWriter) (data : string) (env : Env) (os : OS)
    : (Z * error) * FileWriter * OS :=
  if needs_rotation w data then
    match rotate w env os with
    | (Some err, w1, os1) =>
        ((0, Some (ewrap_Wrap err "rotating log file")), w1, os1)
    | (None, w1, os1) => write_file w1 data env os1
    end
  else write_file w data env os.

(** [FileWriter.Sync] *)
Definition FileWriter_Sync (w : FileWriter) (env : Env) (os : OS) : error * OS :=
  match file w with
  | None => (None, os)
  | Some _ =>
      match File_Sync (file w) (sync_fault env) os with
      | (Some err, os1) => (Some (ewrap_Wrap err "syncing log file"), os1)
      | (None, os1) => (None, os1)
      end
  end.

(** [FileWriter.Close] *)
Definition FileWriter_Close (w : FileWriter) (env : Env) (os : OS)
    : error * FileWriter * OS :=
  match file w with
  | None => (None, w, os)
  | Some _ =>
      match File_Sync (file w) (sync_fault env) os with
      | (Some err, os1) => (Some (ewrap_Wrap err "final sync before close"), w, os1)
      | (None, os1) =>
          match File_Close (file w) (close_fault env) os1 with
          | (Some err, os2) => (Some (ewrap_Wrap err "closing log file"), w, os2)
          | (None, os2) => (None, set_file_size w None (size w), os2)
          end
      end
  end.

(** Reading a trace: entries into [rotate], and writes. *)
Definition is_rotate (e : Event) : bool :=
  match e with EvRotate _ => true | _ => false end.
Definition is_write (e : Event) : bool :=
  match e with EvWrite _ _ _ => true | _ => false end.

Definition rotations (evs : list Event) : nat :=
  length (filter (fun e => is_rotate e = true) evs).

(** The events an operation added to the trace. *)
Definition new_events (before after : OS) : list Event :=
  drop (length (trace before)) (trace after).

(** *** Background compression of a rotated file *)

Definition HuffmanOnly : Z := -2.
Definition BestCompression : Z := 9.

(** [gzip.NewWriterLevel] fails on a level outside
    [HuffmanOnly .. BestCompression] and on nothing else. *)
Definition gzip_NewWriterLevel (level : Z) : error :=
  if (level <? HuffmanOnly) || (level >? BestCompression)
  then Some ("gzip: invalid compression level: " ++ fmt_d level)
  else None.

(** [gzip.Writer]: the file it writes to, whether [Close] has run, and the
    first error it met, which every later call returns. *)
Record GzipWriter := mkGzip { gz_dst : option nat; gz_closed : bool; gz_err : error }.

Inductive CopyFault :=
| ReadFault (e : string)     (* src.Read failed *)
| WriteFault (e : string).   (* dst.Write failed *)

(** Outcomes of the steps of one run of [performCompression].  The encoder
    is not modelled: the environment gives the bytes that reach the
    compressed file in each step. *)
Record CompressEnv := mkCompressEnv {
  src_open_fault : error;
  gz_open_fault : error;
  copy_emit : string;
  copy_fault : option CopyFault;
  gzclose_emit : string;
  gzclose_fault : error;
  gz_sync_fault : error;
  gz_close_fault : error;
  stat_fault : error;
  verify_open_fault : error;
  gzip_header_ok : string -> bool;   (* gzip.NewReader accepts the header *)
  remove_fault : error;              (* os.Remove(path) *)
  cleanup_fault : error              (* os.Remove(compressedPath) *)
}.

(** Bytes the encoder pushes into the compressed file. *)
Definition gz_emit (gz : GzipWriter) (out : string) (os : OS) : OS :=
  (File_Write (gz_dst gz) out (String.length out) None os).2.

(** [copyWithBuffer(gzipWriter, source, buffer)] *)
Definition copyWithBuffer (gz : GzipWriter) (env : CompressEnv) (os : OS)
    : error * GzipWriter * OS :=
  let os1 := gz_emit gz (copy_emit env) os in
  match copy_fault env with
  | None => (None, gz, os1)
  | Some (ReadFault e) => (Some (ewrap_Wrap e "reading from source"), gz, os1)
  | Some (WriteFault e) =>
      (Some (ewrap_Wrap e "writing to destination"),
       mkGzip (gz_dst gz) (gz_closed gz) (Some e), os1)
  end.

(** [gzip.Writer.Close]: returns the stored error if there is one, does
    nothing when already closed, otherwise flushes and writes the trailer. *)
Definition gzip_Close (gz : GzipWriter) (out : string) (fault : error) (os : OS)
    : error * GzipWriter * OS :=
  match gz_err gz with
  | Some e => (Some e, gz, os)
  | None =>
      if gz_closed gz then (None, gz, os)
      else (fault, mkGzip (gz_dst gz) true fault, gz_emit gz out os)
  end.

(** [verifyCompressedFile] *)
Definition verifyCompressedFile (p : Path) (env : CompressEnv) (os : OS)
    : error * OS :=
  match Stat_Size p (stat_fault env) os with
  | (_, Some err) => (Some (ewrap_Wrap err "verifying compressed file"), os)
  | (None, None) => (Some (ewrap_Wrap ErrNotExist "verifying compressed file"), os)
  | (Some sz, None) =>
      if sz =? 0 then (Some "compressed file is empty", os)
      else
        match OpenFile p false false (verify_open_fault env) os with
        | ((_, Some err), os1) =>
            (Some (ewrap_Wrap err "opening compressed file for verification"), os1)
        | ((f, None), os1) =>
            let header_ok := gzip_header_ok env (default "" (read_path os1 p)) in
            let os2 := (File_Close f None os1).2 in   (* defer f.Close() *)
            if header_ok then (None, os2)
            else (Some (ewrap_Wrap "gzip: invalid header" "verifying gzip format"), os2)
        end
  end.

(** The deferred calls of [performCompression], last registered first:
    [gzipWriter.Close()], [compressed.Close()], [source.Close()].  Their
    results are dropped. *)
Definition run_deferred (gz : GzipWriter) (compressed source : option nat)
    (env : CompressEnv) (os : OS) : OS :=
  let os1 := (gzip_Close gz (gzclose_emit env) None os).2 in
  let os2 := (File_Close compressed None os1).2 in
  (File_Close source None os2).2.

(** [os.Remove(compressedPath)] on an error path; the result is dropped. *)
Definition remove_partial (compressedPath : Path) (env : CompressEnv) (os : OS) : OS :=
  (Remove compressedPath (cleanup_fault env) os).2.

(** [performCompression], from the copy on: [source] and [compressed] are
    open and the gzip writer [gz] is ready. *)
Definition compress_steps (p compressedPath : Path) (source compressed : option nat)
    (gz : GzipWriter) (env : CompressEnv) (os2 : OS) : error * OS :=
  match copyWithBuffer gz env os2 with
  | (Some err, gz1, os3) =>
      (Some (ewrap_Wrap err "copying file content"),
       run_deferred gz1 compressed source env (remove_partial compressedPath env os3))
  | (None, gz1, os3) =>
  match gzip_Close gz1 (gzclose_emit env) (gzclose_fault env) os3 with
  | (Some err, gz2, os4) =>
      (Some (ewrap_Wrap err "closing gzip writer"),
       run_deferred gz2 compressed source env (remove_partial compressedPath env os4))
  | (None, gz2, os4) =>
  match File_Sync compressed (gz_sync_fault env) os4 with
  | (Some err, os5) =>
      (Some (ewrap_Wrap err "syncing compressed file"),
       run_deferred gz2 compressed source env (remove_partial compressedPath env os5))
  | (None, os5) =>
  match File_Close compressed (gz_close_fault env) os5 with
  | (Some err, os6) =>
      (Some (ewrap_Wrap err "closing compressed file"),
       run_deferred gz2 compressed source env (remove_partial compressedPath env os6))
  | (None, os6) =>
  match verifyCompressedFile compressedPath env os6 with
  | (Some err, os7) =>
      (Some err,
       run_deferred gz2 compressed source env (remove_partial compressedPath env os7))
  | (None, os7) =>
  match Remove p (remove_fault env) os7 with
  | (Some err, os8) =>
      (Some (ewrap_Wrap err "removing original file"),
       run_deferred gz2 compressed source env (remove_partial compressedPath env os8))
  | (None, os8) => (None, run_deferred gz2 compressed source env os8)
  end end end end end end.

(** [performCompression] *)
Definition performCompression (p : Path) (env : CompressEnv) (os : OS)
    : error * OS :=
  match OpenFile p false false (src_open_fault env) os with
  | ((_, Some err), os1) => (Some (ewrap_Wrap err "opening source file"), os1)
  | ((source, None), os1) =>
  let compressedPath := path_suffix p ".gz" in
  match OpenFile compressedPath true false (gz_open_fault env) os1 with
  | ((_, Some err), os2) =>
      (Some (ewrap_Wrap err "creating compressed file"),
       (File_Close source None os2).2)
  | ((compressed, None), os2) =>
  match gzip_NewWriterLevel BestCompression with
  | Some err =>
      (Some (ewrap_Wrap err "creating gzip writer"),
       (File_Close source None (File_Close compressed None os2).2).2)
  | None =>
      compress_steps p compressedPath source compressed
        (mkGzip compressed false None) env os2
  end end end.

(** [cleanupCompression]: only the compressed file is removed. *)
Definition cleanupCompression (p : Path) (env : CompressEnv) (os : OS) : OS :=
  (Remove (path_suffix p ".gz") (cleanup_fault env) os).2.

(** [compressFile]: the error of [performCompression] goes to standard
    error, the caller sees none. *)
Definition compressFile (p : Path) (env : CompressEnv) (os : OS) : OS :=
  (performCompression p env os).2.

(** *** Writers behind the [Writer] interface

    A writer held through the interface is an identity; what its methods
    return is given by a method table that sees the calls made so far. *)

Inductive Call :=
| CWrite (w : nat) (payload : string)
| CSync (w : nat)
| CClose (w : nat).

Record Iface := mkIface {
  typeName : nat -> string;                          (* fmt's %T *)
  onWrite : list Call -> nat -> string -> Z * error;
  onSync : list Call -> nat -> error;
  onClose : list Call -> nat -> error
}.

(** *** Console writer *)

(** The [io.Writer] a console writer wraps: an [*os.File] such as
    [os.Stdout], or any other writer, which may or may not have [Sync] and
    [Close] methods. *)
Inductive IoWriter :=
| OsFileW (h : nat)
| OtherW (id : nat) (syncer closer : bool).

Record ConsoleWriter := mkConsoleWriter { out : IoWriter; mode : Z }.

(** Address of [os.Stdout]. *)
Definition Stdout : nat := 1%nat.

Definition NewConsoleWriter (o : option IoWriter) (m : Z) : ConsoleWriter :=
  match o with
  | None => mkConsoleWriter (OsFileW Stdout) m
  | Some w => mkConsoleWriter w m
  end.

(** [ConsoleWriter.Write] *)
Definition ConsoleWriter_Write (I : Iface) (w : ConsoleWriter) (p : string)
    (env : Env) (os : OS) (calls : list Call) : (Z * error) * OS * list Call :=
  let '((n, err), os1, calls1) :=
    match out w with
    | OsFileW h =>
        (File_Write (Some h) p (write_accept env) (write_fault env) os, calls)
    | OtherW id _ _ => (onWrite I calls id p, os, (calls ++ [CWrite id p])%list)
    end in
  match err with
  | Some e => ((n, Some (ewrap_Wrap e "failed writing to console output")), os1, calls1)
  | None => ((n, None), os1, calls1)
  end.

(** [ConsoleWriter.Close]: closes the wrapped writer whenever it has a
    [Close] method. *)
Definition ConsoleWriter_Close (I : Iface) (w : ConsoleWriter)
    (env : Env) (os : OS) (calls : list Call) : error * OS * list Call :=
  match out w with
  | OsFileW h =>
      match File_Close (Some h) (close_fault env) os with
      | (Some err, os1) => (Some (ewrap_Wrap err "closing console output"), os1, calls)
      | (None, os1) => (None, os1, calls)
      end
  | OtherW id _ true =>
      match onClose I calls id with
      | Some err =>
          (Some (ewrap_Wrap err "closing console output"), os, (calls ++ [CClose id])%list)
      | None => (None, os, (calls ++ [CClose id])%list)
      end
  | OtherW _ _ false => (None, os, calls)
  end.

(** *** Multi writer *)

Record WriteResult := mkWriteResult {
  Writer : nat; Name : string; Bytes : Z; Err : error
}.

(** [Writers] is a slice of interface values, [None] is a nil entry;
    [writerNames] is a Go map, a missing key reads as the empty string. *)
Record MultiWriter := mkMultiWriter {
  Writers : list (option nat);
  writerNames : gmap nat string
}.

Definition name_of (mw : MultiWriter) (w : nat) : string :=
  default "" (writerNames mw !! w).

(** The loop of [NewMultiWriter], from index [i] on. *)
Fixpoint collect_valid (I : Iface) (i : nat) (writers valid : list (option nat))
    (names : gmap nat string) : list (option nat) * gmap nat string :=
  match writers with
  | [] => (valid, names)
  | None :: rest => collect_valid I (S i) rest valid names
  | Some w :: rest =>
      collect_valid I (S i) rest (valid ++ [Some w])%list
        (<[w := typeName I w ++ "[" ++ fmt_d (Z.of_nat i) ++ "]"]> names)
  end.

Definition NewMultiWriter (I : Iface) (writers : list (option nat))
    : option MultiWriter * error :=
  match writers with
  | [] => (None, Some "at least one writer is required")
  | _ =>
      let '(validWriters, names) := collect_valid I 0 writers [] ∅ in
      match validWriters with
      | [] => (None, Some "no valid writers provided")
      | _ => (Some (mkMultiWriter validWriters names), None)
      end
  end.

(** The loop of [performWrites]. *)
Fixpoint performWrites_loop (I : Iface) (mw : MultiWriter) (ws : list (option nat))
    (payload : string) (results : list WriteResult) (calls : list Call)
    : list WriteResult * list Call :=
  match ws with
  | [] => (results, calls)
  | None :: rest => performWrites_loop I mw rest payload results calls
  | Some w :: rest =>
      let '(n, err) := onWrite I calls w payload in
      performWrites_loop I mw rest payload
        (results ++ [mkWriteResult w (name_of mw w) n err])%list
        (calls ++ [CWrite w payload])%list
  end.

Definition performWrites (I : Iface) (mw : MultiWriter) (payload : string)
    (expectedBytes : Z) (calls : list Call) : list WriteResult * list Call :=
  performWrites_loop I mw (Writers mw) payload [] calls.

Definition is_success (expectedBytes : Z) (r : WriteResult) : bool :=
  match Err r with
  | None => Bytes r =? expectedBytes
  | Some _ => false
  end.

(** [fmt.Sprintf("%s: wrote %d/%d bytes (%s)", ...)] *)
Definition failure_line (expectedBytes : Z) (r : WriteResult) : string :=
  let reason := match Err r with
                | Some e => e
                | None => "incomplete write"
                end in
  Name r ++ ": wrote " ++ fmt_d (Bytes r) ++ "/" ++ fmt_d expectedBytes
    ++ " bytes (" ++ reason ++ ")".

Fixpoint processResults_loop (results : list WriteResult) (expectedBytes : Z)
    (successCount : Z) (failures : list string) : Z * list string :=
  match results with
  | [] => (successCount, failures)
  | r :: rest =>
      if is_success expectedBytes r
      then processResults_loop rest expectedBytes (successCount + 1) failures
      else processResults_loop rest expectedBytes successCount
             (failures ++ [failure_line expectedBytes r])%list
  end.

Definition processResults (results : list WriteResult) (expectedBytes : Z)
    : Z * list string :=
  processResults_loop results expectedBytes 0 [].

Fixpoint write_failures (diagMsg : Buffer) (failures : list string) : Buffer :=
  match failures with
  | [] => diagMsg
  | f :: rest => write_failures (WriteString diagMsg ("    - " ++ f ++ nl)) rest
  end.

Definition createErrorReport (results : list WriteResult) (successCount : Z)
    (failures : list string) : string :=
  let diagMsg := WriteString "" ("Write operation status:" ++ nl) in
  let diagMsg := WriteString diagMsg
    ("  Total writers: " ++ fmt_d (Z.of_nat (length results)) ++ nl) in
  let diagMsg := WriteString diagMsg
    ("  Successful writes: " ++ fmt_d successCount ++ nl) in
  let diagMsg := WriteString diagMsg
    ("  Failed writes: " ++ fmt_d (Z.of_nat (length failures)) ++ nl) in
  let diagMsg := WriteString diagMsg ("  Failures:" ++ nl) in
  write_failures diagMsg failures.

Definition writeToWriters (I : Iface) (mw : MultiWriter) (payload : string)
    (calls : list Call) : (Z * error) * list Call :=
  let expectedBytes := Z.of_nat (String.length payload) in
  let '(results, calls1) := performWrites I mw payload expectedBytes calls in
  let '(successCount, failures) := processResults results expectedBytes in
  match failures with
  | _ :: _ =>
      ((expectedBytes, Some (createErrorReport results successCount failures)), calls1)
  | [] => ((expectedBytes, None), calls1)
  end.

(** [MultiWriter.Write] *)
Definition MultiWriter_Write (I : Iface) (mw : MultiWriter) (payload : string)
    (calls : list Call) : (Z * error) * list Call :=
  writeToWriters I mw payload calls.

(** The loops of [Sync] and [Close]: every non-nil writer is called, the
    failures are collected as ["%T: %v"]. *)
Fixpoint sync_loop (I : Iface) (ws : list (option nat)) (errs : list string)
    (successCount : Z) (calls : list Call) : list string * Z * list Call :=
  match ws with
  | [] => (errs, successCount, calls)
  | None :: rest => sync_loop I rest errs successCount calls
  | Some w :: rest =>
      match onSync I calls w with
      | Some e => sync_loop I rest (errs ++ [(typeName I w ++ ": " ++ e)%string])%list
                    successCount (calls ++ [CSync w])%list
      | None => sync_loop I rest errs (successCount + 1) (calls ++ [CSync w])%list
      end
  end.

Definition MultiWriter_Sync (I : Iface) (mw : MultiWriter) (calls : list Call)
    : error * list Call :=
  let '(syncErrors, _, calls1) := sync_loop I (Writers mw) [] 0 calls in
  match syncErrors with
  | _ :: _ => (Some "sync operation partially failed", calls1)
  | [] => (None, calls1)
  end.

Fixpoint close_loop (I : Iface) (ws : list (option nat)) (errs : list string)
    (successCount : Z) (calls : list Call) : list string * Z * list Call :=
  match ws with
  | [] => (errs, successCount, calls)
  | None :: rest => close_loop I rest errs successCount calls
  | Some w :: rest =>
      match onClose I calls w with
      | Some e => close_loop I rest (errs ++ [(typeName I w ++ ": " ++ e)%string])%list
                    successCount (calls ++ [CClose w])%list
      | None => close_loop I rest errs (successCount + 1) (calls ++ [CClose w])%list
      end
  end.

(** [MultiWriter.Close]: the slice is cleared whatever the outcome. *)
Definition MultiWriter_Close (I : Iface) (mw : MultiWriter) (calls : list Call)
    : error * MultiWriter * list Call :=
  let '(closeErrors, _, calls1) := close_loop I (Writers mw) [] 0 calls in
  let mw1 := mkMultiWriter [] (writerNames mw) in
  match closeErrors with
  | _ :: _ => (Some "close operation partially failed", mw1, calls1)
  | [] => (None, mw1, calls1)
  end.

(** [MultiWriter.AddWriter]: the writer joins the slice; [writerNames] is
    left as it is. *)
Definition AddWriter (mw : MultiWriter) (writer : option nat)
    : error * MultiWriter :=
  match writer with
  | None => (Some "cannot add nil writer", mw)
  | Some w => (None, mkMultiWriter (Writers mw ++ [Some w])%list (writerNames mw))
  end.

(** *** Vocabulary for statements about writers *)

(** An event that is neither an entry into [rotate] nor a write. *)
Definition quiet (e : Event) : Prop := is_rotate e = false /\ is_write e = false.

(** [len(d)] *)
Definition len (d : string) : Z := Z.of_nat (String.length d).

(** While the steps of a compression run: the backup [p] is in place as
    inode [i] with contents [D], the compressed path names inode [j], and
    the open file [c] writes there. *)
Record compress_inv (p : Path) (i j c : nat) (D : option string) (os : OS)
    : Prop := mkInv {
  inv_p : names os !! p = Some i;
  inv_gz : names os !! path_suffix p ".gz" = Some j;
  inv_data : inodes os !! i = D;
  inv_c : handle_ino os c = Some j;
  inv_below : handles_below os
}.

(** The non-nil entries of a slice of writers, in order. *)
Definition registered (ws : list (option nat)) : list nat := omap id ws.

(** A name as [NewMultiWriter] makes it: the type and a position. *)
Definition construction_name (I : Iface) (w : nat) (name : string) : Prop :=
  exists i : nat, name = typeName I w ++ "[" ++ fmt_d (Z.of_nat i) ++ "]".

Definition all_named (I : Iface) (valid : list (option nat))
    (names : gmap nat string) : Prop :=
  forall w, Some w ∈ valid ->
            exists name, names !! w = Some name /\ construction_name I w name.

(** *** Creating a file writer *)

Definition defaultMaxSizeMB : Z := 100.
Definition bytesPerMB : Z := 1024 * 1024.

(** [FileConfig]; [FPath] is [None] for the empty string.  The file
    system of the model has no permission bits, so [FFileMode] and its
    default have no effect. *)
Record FileConfig := mkFileConfig {
  FPath : option Path;
  FMaxSize : Z;
  FCompress : bool;
  FFileMode : Z
}.

(** Outcomes of the system calls of [NewFileWriter]. *)
Record InitEnv := mkInitEnv {
  mkdir_fault : error;     (* os.MkdirAll *)
  create_fault : error;    (* os.OpenFile *)
  fstat_fault : error      (* file.Stat *)
}.

(** [NewFileWriter] *)
Definition NewFileWriter (config : FileConfig) (env : InitEnv) (os : OS)
    : (option FileWriter * error) * OS :=
  match FPath config with
  | None => ((None, Some "log file path is required"), os)
  | Some p =>
      let maxSize :=
        if FMaxSize config =? 0 then defaultMaxSizeMB * bytesPerMB
        else FMaxSize config in
      match mkdir_fault env with
      | Some err => ((None, Some (ewrap_Wrap err "creating log directory")), os)
      | None =>
          match OpenFile p true true (create_fault env) os with
          | ((_, Some err), os1) =>
              ((None, Some (ewrap_Wrap err "opening log file")), os1)
          | ((f, None), os1) =>
              match File_Stat_Size f (fstat_fault env) os1 with
              | (Some sz, None) =>
                  ((Some (mkFileWriter f p maxSize sz (FCompress config)), None), os1)
              | (_, Some err) =>
                  ((None, Some (ewrap_Wrap err "getting file stats")),
                   (File_Close f None os1).2)
              | (None, None) =>
                  ((None, Some (ewrap_Wrap ErrInvalid "getting file stats")),
                   (File_Close f None os1).2)
              end
          end
      end
  end.

(** A run of calls of [Write] on one writer, each with the outcomes of
    its system calls; the results in order. *)
Fixpoint write_all (w : FileWriter) (calls : list (string * Env)) (os : OS)
    : list (Z * error) * FileWriter * OS :=
  match calls with
  | [] => ([], w, os)
  | (data, env) :: rest =>
      let '(r, w1, os1) := FileWriter_Write w data env os in
      let '(rs, w2, os2) := write_all w1 rest os1 in
      (r :: rs, w2, os2)
  end.

(** *** Console writer, continued *)

(** [strings.Contains] *)
Fixpoint strings_Contains (s substr : string) : bool :=
  if String.prefix substr s then true
  else match s with
       | EmptyString => false
       | String _ r => strings_Contains r substr
       end.

(** [ConsoleWriter.Sync] *)
Definition ConsoleWriter_Sync (I : Iface) (w : ConsoleWriter)
    (env : Env) (os : OS) (calls : list Call) : error * OS * list Call :=
  let '(r, os1, calls1) :=
    match out w with
    | OsFileW h => (File_Sync (Some h) (sync_fault env) os, calls)
    | OtherW id true _ => (onSync I calls id, os, (calls ++ [CSync id])%list)
    | OtherW _ false _ => (None, os, calls)
    end in
  match r with
  | Some err =>
      if strings_Contains err "inappropriate ioctl for device"
      then (None, os1, calls1)
      else (Some (ewrap_Wrap err "syncing console output"), os1, calls1)
  | None => (None, os1, calls1)
  end.

(** *** Multi writer, continued *)

(** Index of the first entry of the slice equal to [writer]. *)
Fixpoint index_of (writer : nat) (ws : list (option nat)) : option nat :=
  match ws with
  | [] => None
  | x :: rest =>
      if decide (x = Some writer) then Some 0%nat
      else S <$> index_of writer rest
  end.

(** [MultiWriter.RemoveWriter]: the first entry equal to [writer] is
    replaced by the last entry, the last slot is cleared and the slice is
    cut by one; [writerNames] is left as it is. *)
Definition RemoveWriter (mw : MultiWriter) (writer : option nat) : MultiWriter :=
  match writer with
  | None => mw
  | Some w =>
      match index_of w (Writers mw) with
      | None => mw
      | Some i =>
          let lastIdx := (length (Writers mw) - 1)%nat in
          let ws := <[i := default None (Writers mw !! lastIdx)]> (Writers mw) in
          let ws := <[lastIdx := None]> ws in
          mkMultiWriter (take lastIdx ws) (writerNames mw)
      end
  end.

(** *** The copy loop *)

(** What one call of [src.Read] returns besides the bytes. *)
Inductive ReadStatus :=
| ReadMore                  (* err == nil *)
| ReadEOF                   (* err == io.EOF *)
| ReadFailed (e : string).

(** [copyWithBuffer] over an explicit reader and writer: [reads] is what
    the successive calls of [src.Read] return, [dstWrite] what [dst.Write]
    returns given the chunks written before.  The result carries the
    chunks handed to [dst.Write], in order.  A reader whose answers run out
    without end of file or error keeps the loop waiting. *)
Fixpoint copyWithBuffer_loop (reads : list (string * ReadStatus))
    (dstWrite : list string -> string -> error) (writes : list string)
    : result (error * list string) :=
  match reads with
  | [] => Blocked
  | (chunk, status) :: rest =>
      let written :=
        if (0 <? String.length chunk)%nat then
          match dstWrite writes chunk with
          | Some writerErr => inr writerErr
          | None => inl (writes ++ [chunk])%list
          end
        else inl writes in
      match written with
      | inr writerErr =>
          Ret (Some (ewrap_Wrap writerErr "writing to destination"),
               (writes ++ [chunk])%list)
      | inl writes1 =>
          match status with
          | ReadEOF => Ret (None, writes1)
          | ReadFailed e => Ret (Some (ewrap_Wrap e "reading from source"), writes1)
          | ReadMore => copyWithBuffer_loop rest dstWrite writes1
          end
      end
  end.

(** *** Vocabulary, continued *)

(** The writer is in step with the disk: its file is open for appending
    on the inode its path names, the file holds [content], and the size
    counter is the length of [content]. *)
Definition tracks (w : FileWriter) (os : OS) (content : string) : Prop :=
  exists h i, file w = Some h /\ appends_to os h i /\
              names os !! path w = Some i /\
              default "" (inodes os !! i) = content /\
              size w = len content.

(** The writer has no file it could write to: none at all, or one that
    is closed. *)
Definition unusable (w : FileWriter) (os : OS) : Prop :=
  match file w with
  | None => True
  | Some h =>
      match files os !! h with
      | None => True
      | Some f => f_closed f = true
      end
  end.

(** Every call makes complete writes without an error. *)
Definition writes_succeed (env : Env) (data : string) : Prop :=
  write_fault env = None /\ (String.length data <= write_accept env)%nat.

(** The bytes of the chunks, one after the other. *)
Fixpoint concat_bytes (chunks : list string) : string :=
  match chunks with
  | [] => ""
  | c :: rest => c ++ concat_bytes rest
  end.

(** [s] holds [sub] somewhere. *)
Definition has_substring (s sub : string) : Prop :=
  exists pre post, s = pre ++ sub ++ post.

(** What the log file holds after writes of [datas] in turn, starting
    from [c], under the limit [max]: a write that would take the file over
    the limit starts it afresh. *)
Fixpoint log_contents (max : Z) (c : string) (datas : list string) : string :=
  match datas with
  | [] => c
  | d :: rest =>
      log_contents max (if len c + len d >? max then d else c ++ d) rest
  end.

(** The result of a call of [Write] that wrote nothing and failed. *)
Definition failed_write (r : Z * error) : Prop := r.1 = 0 /\ is_Some r.2.

(** Every writer of [ws] answers nil to the call [mk], each one seeing
    the calls made before its own. *)
Definition all_nil (on : list Call -> nat -> error) (mk : nat -> Call)
    (calls : list Call) (ws : list nat) : Prop :=
  forall k w, ws !! k = Some w ->
              on (calls ++ map mk (take k ws))%list w = None.

(** The renames among some events, and an event that is none. *)
Definition is_rename (e : Event) : bool :=
  match e with EvRename _ _ => true | _ => false end.

Definition renames (evs : list Event) : nat :=
  length (filter (fun e => is_rename e = true) evs).

Definition no_rename (e : Event) : Prop := is_rename e = false.

End Output.

(** ** Package adapter: the asynchronous logger *)

Module Adapter.
Import Logger.

Definition callerDepth : Z := 3.
Definition bufferTimeout_ms : Z := 100.

Record logEntry := mkEntry {
  Level : Logger.Level;
  Message : string;
  Fields : list Field;
  Timestamp : Time;
  Caller : string;
  Error : error
}.

(** [adapter]: [buffer], [done] and [wg] are references, so the fields hold
    identities; [config] and [fields] are values of the struct itself. *)
Record adapter := mkAdapter {
  config : Config;
  fields : list Field;
  buffer : nat;
  done : nat;
  wg : nat
}.

(** A buffered [chan logEntry]. *)
Record Chan := mkChan { ch_cap : nat; ch_queue : list logEntry; ch_closed : bool }.

Inductive SinkEvent :=
| SWrite (output : nat) (contents : string)
| SSync (output : nat).

Record State := mkState {
  heap : gmap nat adapter;      (* adapters, by address *)
  buffers : gmap nat Chan;
  dones : gmap nat bool;        (* done channels: closed or not *)
  wgs : gmap nat Z;             (* WaitGroup counters *)
  workers : gmap nat nat;       (* running processLogs goroutines: wg -> receiver *)
  next : nat;
  sink : list SinkEvent         (* calls made on outputs, in order *)
}.

Definition set_heap (h : gmap nat adapter) (st : State) : State :=
  {| heap := h; buffers := buffers st; dones := dones st; wgs := wgs st;
     workers := workers st; next := next st; sink := sink st |}.
Definition set_buffers (b : gmap nat Chan) (st : State) : State :=
  {| heap := heap st; buffers := b; dones := dones st; wgs := wgs st;
     workers := workers st; next := next st; sink := sink st |}.
Definition set_dones (d : gmap nat bool) (st : State) : State :=
  {| heap := heap st; buffers := buffers st; dones := d; wgs := wgs st;
     workers := workers st; next := next st; sink := sink st |}.
Definition add_sink (e : SinkEvent) (st : State) : State :=
  {| heap := heap st; buffers := buffers st; dones := dones st; wgs := wgs st;
     workers := workers st; next := next st; sink := sink st ++ [e] |}.

Definition deref (st : State) (a : nat) : result adapter :=
  match heap st !! a with
  | Some ad => Ret ad
  | None => Panic "invalid memory address or nil pointer dereference"
  end.

Section WithEncoder.

(** [json.Encoder.Encode] of the log map, with HTML escaping off:
    the encoding, or the error's text. *)
Variable json_Encode : gmap string Value -> string + string.

(** [NewAdapter] *)
Definition NewAdapter (cfg : Config) (st : State)
    : result ((option nat * error) * State) :=
  match Output cfg with
  | None => Ret ((None, Some "output writer is required"), st)
  | Some _ =>
      let cfg :=
        if AsyncBufferSize cfg =? 0
        then with_AsyncBufferSize cfg DefaultAsyncBufferSize else cfg in
      if AsyncBufferSize cfg <? 0 then Panic "makechan: size out of range"
      else
        let n := next st in
        let loggerAdapter := mkAdapter cfg [] n n n in
        Ret ((Some n, None),
             {| heap := <[n := loggerAdapter]> (heap st);
                buffers := <[n := mkChan (Z.to_nat (AsyncBufferSize cfg)) [] false]>
                             (buffers st);
                dones := <[n := false]> (dones st);
                wgs := <[n := 1]> (wgs st);
                workers := <[n := n]> (workers st);
                next := S n; sink := sink st |})
  end.

(** [writeField] *)
Definition writeField (buf : Buffer) (field : Field) : Buffer :=
  let buf := WriteString buf (Key field) in
  let buf := WriteString buf "=" in
  match FValue field with
  | VString val => WriteByte (WriteString (WriteByte buf dquote) val) dquote
  | VTime val => WriteByte (WriteString (WriteByte buf dquote) (Format val RFC3339)) dquote
  | VError val => WriteByte (WriteString (WriteByte buf dquote) val) dquote
  | val => WriteString buf (fmt_v val)
  end.

(** [for i, field := range fs], from index [i] on: a comma and a blank
    before every field but the first. *)
Fixpoint write_fields (i : nat) (buf : Buffer) (fs : list Field) : Buffer :=
  match fs with
  | [] => buf
  | field :: rest =>
      let buf := if (0 <? i)%nat then WriteString buf ", " else buf in
      write_fields (S i) (writeField buf field) rest
  end.

(** [writeTextLog] *)
Definition writeTextLog (cfg : Config) (buf : Buffer) (entry : logEntry) : Buffer :=
  let buf :=
    if DisableTimestamp cfg then buf
    else WriteByte (WriteString buf (Format (Timestamp entry) (TimeFormat cfg))) " " in
  let buf := WriteString buf (fmt_left_justified 5 (Level_String (Level entry)) ++ " ") in
  let buf :=
    if String.eqb (Caller entry) "" then buf
    else WriteString (WriteString (WriteByte buf "[") (Caller entry)) "] " in
  let buf := WriteString buf (Message entry) in
  if (0 <? length (Fields entry))%nat || (0 <? length (AdditionalFields cfg))%nat then
    let buf := WriteString buf " {" in
    let buf := write_fields 0 buf (Fields entry) in
    let buf :=
      if (0 <? length (Fields entry))%nat && (0 <? length (AdditionalFields cfg))%nat
      then WriteString buf ", " else buf in
    let buf := write_fields 0 buf (AdditionalFields cfg) in
    WriteByte buf "}"
  else buf.

Definition set_fields (logMap : gmap string Value) (fs : list Field)
    : gmap string Value :=
  foldl (fun m f => <[Key f := FValue f]> m) logMap fs.

(** [writeJSONLog] *)
Definition writeJSONLog (cfg : Config) (buf : Buffer) (entry : logEntry) : Buffer :=
  let logMap : gmap string Value := ∅ in
  let logMap := <["level" := VString (Level_String (Level entry))]> logMap in
  let logMap := <["message" := VString (Message entry)]> logMap in
  let logMap :=
    if DisableTimestamp cfg then logMap
    else <["timestamp" := VString (Format (Timestamp entry) (TimeFormat cfg))]> logMap in
  let logMap :=
    if String.eqb (Caller entry) "" then logMap
    else <["caller" := VString (Caller entry)]> logMap in
  let logMap := set_fields logMap (Fields entry) in
  let logMap := set_fields logMap (AdditionalFields cfg) in
  match json_Encode logMap with
  | inl encoded => WriteString buf encoded
  | inr err => WriteString buf ("failed to marshal log entry to JSON: " ++ err)
  end.

Definition formatEntry (cfg : Config) (buf : Buffer) (entry : logEntry) : Buffer :=
  if EnableJSON cfg then writeJSONLog cfg buf entry
  else writeTextLog cfg buf entry.

Fixpoint last_byte (s : string) : option ascii :=
  match s with
  | EmptyString => None
  | String c EmptyString => Some c
  | String _ r => last_byte r
  end.

Definition ensureNewline (buf : Buffer) : Buffer :=
  match last_byte buf with
  | None => buf
  | Some c => if Ascii.eqb c "010" then buf else WriteByte buf "010"
  end.

(** [writeLog]: the entry is formatted into an empty buffer and the bytes
    are handed to the configured output (to each of its writers in turn
    when the output is a multi writer).  What the writers return only
    feeds the diagnostics on standard error. *)
Definition writeLog (a : nat) (entry : logEntry) (st : State) : result State :=
  ad ← deref st a;
  match Output (config ad) with
  | None => Ret st
  | Some output =>
      let contents := ensureNewline (formatEntry (config ad) "" entry) in
      Ret (add_sink (SWrite output contents) st)
  end.

(** [WithFields]: a new adapter with a copy of the receiver's struct fields
    and a fresh slice holding the old fields followed by the new ones. *)
Definition WithFields (a : nat) (fs : list Field) (st : State)
    : result (nat * State) :=
  ad ← deref st a;
  let newAdapter :=
    mkAdapter (config ad) (fields ad ++ fs)%list (buffer ad) (done ad) (wg ad) in
  let n := next st in
  Ret (n, {| heap := <[n := newAdapter]> (heap st); buffers := buffers st;
             dones := dones st; wgs := wgs st; workers := workers st;
             next := S n; sink := sink st |}).

(** [extractContextFields]: the context is seen through [ctx.Value]. *)
Definition extractContextFields (ctx : string -> option Value) : list Field :=
  match ctx "trace_id" with
  | Some traceID => [mkField "trace_id" traceID]
  | None => []
  end.

Definition WithContext (a : nat) (ctx : string -> option Value) (st : State)
    : result (nat * State) :=
  WithFields a (extractContextFields ctx) st.

(** An error value: its text and, when it has a [StackTrace] method, the
    trace. *)
Record GoError := mkGoError { err_text : string; err_stack : option string }.

Definition WithError (a : nat) (err : option GoError) (st : State)
    : result (nat * State) :=
  match err with
  | None => Ret (a, st)
  | Some e =>
      let fs := [mkField "error" (VString (err_text e))] in
      let fs := match err_stack e with
                | Some tr => (fs ++ [mkField "stack_trace" (VString tr)])%list
                | None => fs
                end in
      WithFields a fs st
  end.

(** What a call of [log] takes from its surroundings: the clock and
    [runtime.Caller(callerDepth)] (file split at the slashes, and line). *)
Record LogEnv := mkLogEnv {
  env_now : Time;
  env_caller : option (list string * Z)
}.

Fixpoint join_slash (parts : list string) : string :=
  match parts with
  | [] => ""
  | [x] => x
  | x :: rest => x ++ "/" ++ join_slash rest
  end.

Definition getCaller (env : LogEnv) : string :=
  match env_caller env with
  | None => "unknown"
  | Some (parts, line) =>
      let file := if (2 <? length parts)%nat
                  then join_slash (drop (length parts - 2) parts)
                  else join_slash parts in
      file ++ ":" ++ fmt_d line
  end.

(** The [select] of [log], at the moment it commits.  A send on a closed
    channel panics.  A send on a channel with room goes through.  With
    the queue full the only case left is the timer, and the entry is
    written by the caller.  Entries the worker takes off the queue while
    the call waits are worker steps before that moment. *)
Definition dispatch (a : nat) (ad : adapter) (entry : logEntry) (st : State)
    : result State :=
  match buffers st !! buffer ad with
  | None => writeLog a entry st   (* nil channel: never ready *)
  | Some ch =>
      if ch_closed ch then Panic "send on closed channel"
      else if (length (ch_queue ch) <? ch_cap ch)%nat then
        Ret (set_buffers
               (<[buffer ad := mkChan (ch_cap ch) (ch_queue ch ++ [entry])%list false]>
                  (buffers st)) st)
      else writeLog a entry st
  end.

(** [log] *)
Definition log (a : nat) (level : Logger.Level) (msg : string) (env : LogEnv)
    (st : State) : result State :=
  ad ← deref st a;
  if level <? CLevel (config ad) then Ret st
  else
    let entry := mkEntry level msg (fields ad) (env_now env)
                   (if EnableCaller (config ad) then getCaller env else "") None in
    dispatch a ad entry st.

(** The level methods; [Error_] is the method [Error]. *)
Definition Trace (a : nat) (msg : string) := log a TraceLevel msg.
Definition Debug (a : nat) (msg : string) := log a DebugLevel msg.
Definition Info (a : nat) (msg : string) := log a InfoLevel msg.
Definition Warn (a : nat) (msg : string) := log a WarnLevel msg.
Definition Error_ (a : nat) (msg : string) := log a ErrorLevel msg.
Definition Fatal (a : nat) (msg : string) := log a FatalLevel msg.

(** [GetLevel] and [SetLevel] *)
Definition GetLevel (a : nat) (st : State) : result Logger.Level :=
  ad ← deref st a; Ret (CLevel (config ad)).

Definition SetLevel (a : nat) (level : Logger.Level) (st : State) : result State :=
  ad ← deref st a;
  Ret (set_heap
         (<[a := mkAdapter (with_Level (config ad) level) (fields ad)
                   (buffer ad) (done ad) (wg ad)]> (heap st)) st).

(** *** The worker *)

Inductive Recv :=
| RecvEntry (entry : logEntry) (st : State)
| RecvClosed          (* closed and empty: ok is false *)
| RecvNotReady.       (* open and empty, or nil *)

Definition recv (b : nat) (st : State) : Recv :=
  match buffers st !! b with
  | None => RecvNotReady
  | Some ch =>
      match ch_queue ch with
      | entry :: rest =>
          RecvEntry entry
            (set_buffers (<[b := mkChan (ch_cap ch) rest (ch_closed ch)]> (buffers st)) st)
      | [] => if ch_closed ch then RecvClosed else RecvNotReady
      end
  end.

(** The inner loop of [processLogs], entered once [done] is seen: receive
    without blocking until nothing is left. *)
Fixpoint drain (fuel : nat) (a : nat) (ad : adapter) (st : State) : result State :=
  match fuel with
  | O => Blocked
  | S k =>
      match recv (buffer ad) st with
      | RecvEntry entry st1 => st2 ← writeLog a entry st1; drain k a ad st2
      | RecvClosed => Ret st
      | RecvNotReady => Ret st
      end
  end.

(** [processLogs].  [pick_done n] tells which case [select] takes at step
    [n] when both are ready.  [Blocked] is a worker waiting in [select]
    (or out of fuel); [Ret] is a worker that returned. *)
Fixpoint processLogs (fuel : nat) (pick_done : nat -> bool) (a : nat) (st : State)
    : result State :=
  match fuel with
  | O => Blocked
  | S k =>
      ad ← deref st a;
      let done_ready := default false (dones st !! done ad) in
      match recv (buffer ad) st with
      | RecvEntry entry st1 =>
          if done_ready && pick_done k then drain (S k) a ad st
          else st2 ← writeLog a entry st1; processLogs k pick_done a st2
      | RecvClosed =>
          if done_ready && pick_done k then drain (S k) a ad st
          else Ret st
      | RecvNotReady =>
          if done_ready then drain (S k) a ad st else Blocked
      end
  end.

(** *** Shutdown *)

Definition close_done (d : nat) (st : State) : result State :=
  match dones st !! d with
  | None => Panic "close of nil channel"
  | Some true => Panic "close of closed channel"
  | Some false => Ret (set_dones (<[d := true]> (dones st)) st)
  end.

Definition close_buffer (b : nat) (st : State) : result State :=
  match buffers st !! b with
  | None => Panic "close of nil channel"
  | Some ch =>
      if ch_closed ch then Panic "close of closed channel"
      else Ret (set_buffers (<[b := mkChan (ch_cap ch) (ch_queue ch) true]> (buffers st)) st)
  end.

Definition queued (b : nat) (st : State) : list logEntry :=
  match buffers st !! b with
  | Some ch => ch_queue ch
  | None => []
  end.

(** [wg.Wait()]: returns at once on a zero counter; otherwise the worker
    runs until it returns and calls [wg.Done()]. *)
Definition wg_Wait (pick_done : nat -> bool) (w : nat) (st : State) : result State :=
  match wgs st !! w with
  | None => Panic "invalid memory address or nil pointer dereference"
  | Some c =>
      if c =? 0 then Ret st
      else
        match workers st !! w with
        | None => Blocked
        | Some self =>
            ad ← deref st self;
            st1 ← processLogs (S (S (length (queued (buffer ad) st)))) pick_done self st;
            Ret {| heap := heap st1; buffers := buffers st1; dones := dones st1;
                   wgs := <[w := c - 1]> (wgs st1);
                   workers := delete w (workers st1);
                   next := next st1; sink := sink st1 |}
        end
  end.

(** [Sync].  [out_sync] is [None] when the output has no [Sync] method,
    else what its [Sync] returns. *)
Definition Sync (a : nat) (pick_done : nat -> bool) (out_sync : option error)
    (st : State) : result (error * State) :=
  ad ← deref st a;
  st1 ← close_done (done ad) st;
  st2 ← close_buffer (buffer ad) st1;
  st3 ← wg_Wait pick_done (wg ad) st2;
  match out_sync, Output (config ad) with
  | Some r, Some output => Ret (r, add_sink (SSync output) st3)
  | _, _ => Ret (None, st3)
  end.

(** *** Vocabulary for statements about the logger *)

(** The bytes [writeLog] hands to the output for an entry. *)
Definition contents_of (cfg : Config) (entry : logEntry) : string :=
  ensureNewline (formatEntry cfg "" entry).

(** The entry a call of [log] builds. *)
Definition entry_of (ad : adapter) (level : Logger.Level) (msg : string)
    (env : LogEnv) : logEntry :=
  mkEntry level msg (fields ad) (env_now env)
          (if EnableCaller (config ad) then getCaller env else "") None.

(** The state with [entry] at the end of the queue [b]. *)
Definition enqueued (b : nat) (ch : Chan) (entry : logEntry) (st : State) : State :=
  set_buffers
    (<[b := mkChan (ch_cap ch) (ch_queue ch ++ [entry])%list false]> (buffers st)) st.

(** The state after a write of [entry] through the adapter [ad]. *)
Definition written (ad : adapter) (out : nat) (entry : logEntry) (st : State) : State :=
  add_sink (SWrite out (contents_of (config ad) entry)) st.

(** What the worker and the writes leave alone: the adapters, the [done]
    channels, and whether a queue is closed. *)
Definition settled (st st' : State) : Prop :=
  heap st' = heap st /\ dones st' = dones st /\
  forall b ch, buffers st !! b = Some ch ->
    exists ch', buffers st' !! b = Some ch' /\ ch_closed ch' = ch_closed ch.

(** *** The logger at work: schedules *)

(** One turn of the worker while the logger runs: the first case of the
    [select] of [processLogs], an entry taken off the queue and written.
    With nothing queued the worker stays in its [select].  Once [done] is
    closed the turns that remain are those [wg_Wait] runs. *)
Definition worker_turn (w : nat) (st : State) : result State :=
  match workers st !! w with
  | None => Ret st
  | Some self =>
      ad ← deref st self;
      if default false (dones st !! done ad) then Ret st
      else
        match recv (buffer ad) st with
        | RecvEntry entry st1 => writeLog self entry st1
        | RecvClosed => Ret st
        | RecvNotReady => Ret st
        end
  end.

(** What the goroutines of a program do to a logger, one at a time. *)
Inductive Action :=
| DoLog (a : nat) (level : Logger.Level) (msg : string) (env : LogEnv)
| DoWork (w : nat)
| DoSetLevel (a : nat) (level : Logger.Level)
| DoWithFields (a : nat) (fs : list Field).

Definition step (act : Action) (st : State) : result State :=
  match act with
  | DoLog a level msg env => log a level msg env st
  | DoWork w => worker_turn w st
  | DoSetLevel a level => SetLevel a level st
  | DoWithFields a fs => r ← WithFields a fs st; Ret r.2
  end.

Fixpoint run (acts : list Action) (st : State) : result State :=
  match acts with
  | [] => Ret st
  | act :: rest => st1 ← step act st; run rest st1
  end.

(** The write an action is owed: one for a call of [log] at or above the
    level its logger has at the time of the call. *)
Definition owed_for (act : Action) (st : State) : list SinkEvent :=
  match act with
  | DoLog a level msg env =>
      match heap st !! a with
      | Some ad =>
          match Output (config ad) with
          | Some out =>
              if level <? CLevel (config ad) then []
              else [SWrite out (contents_of (config ad) (entry_of ad level msg env))]
          | None => []
          end
      | None => []
      end
  | _ => []
  end.

(** The writes a schedule is owed, in the order of its calls. *)
Fixpoint owed (acts : list Action) (st : State) : list SinkEvent :=
  match acts with
  | [] => []
  | act :: rest =>
      (owed_for act st ++
       match step act st with
       | Ret st1 => owed rest st1
       | _ => []
       end)%list
  end.

(** The writes that queued entries stand for. *)
Definition pending (out : nat) (cfg : Config) (q : list logEntry) : list SinkEvent :=
  map (fun e => SWrite out (contents_of cfg e)) q.

End WithEncoder.

(** *** The text line, in closed form *)

Definition quoted (s : string) : string :=
  String dquote EmptyString ++ s ++ String dquote EmptyString.

(** [key=value]: strings, times and errors between double quotes, any
    other value as [%v] prints it. *)
Definition show_field (f : Field) : string :=
  Key f ++ "=" ++
  match FValue f with
  | VString s => quoted s
  | VTime t => quoted (Format t RFC3339)
  | VError m => quoted m
  | v => fmt_v v
  end.

(** [strings.Join(l, ", ")] *)
Fixpoint join_comma (l : list string) : string :=
  match l with
  | [] => ""
  | [x] => x
  | x :: rest => x ++ ", " ++ join_comma rest
  end.

(** The line [writeTextLog] produces: the timestamp and a blank unless
    timestamps are off; the level name, filled with blanks on the right up
    to five characters, and a blank; the caller between square brackets and
    a blank when there is a caller; the message; and, when there is at least
    one field, a blank and the fields of the entry followed by the
    additional fields of the configuration, joined by commas between
    braces. *)
Definition text_line (cfg : Config) (entry : logEntry) : string :=
  (if DisableTimestamp cfg then ""
   else Format (Timestamp entry) (TimeFormat cfg) ++ " ") ++
  fmt_left_justified 5 (Level_String (Level entry)) ++ " " ++
  (if String.eqb (Caller entry) "" then "" else "[" ++ Caller entry ++ "] ") ++
  Message entry ++
  match (Fields entry ++ AdditionalFields cfg)%list with
  | [] => ""
  | fs => " {" ++ join_comma (map show_field fs) ++ "}"
  end.

(** The line as the specification words it:
    [[timestamp] LEVEL [caller] message {field=value, ...}] with the level
    name left-padded to width five.  Parts that are absent are left out. *)
Definition spec_text_line (cfg : Config) (entry : logEntry) : string :=
  (if DisableTimestamp cfg then ""
   else "[" ++ Format (Timestamp entry) (TimeFormat cfg) ++ "] ") ++
  fmt_right_justified 5 (Level_String (Level entry)) ++ " " ++
  (if String.eqb (Caller entry) "" then "" else "[" ++ Caller entry ++ "] ") ++
  Message entry ++
  match (Fields entry ++ AdditionalFields cfg)%list with
  | [] => ""
  | fs => " {" ++ join_comma (map show_field fs) ++ "}"
  end.

(** Fields after the first: each one behind a comma and a blank. *)
Fixpoint more_fields (fs : list Field) : string :=
  match fs with
  | [] => ""
  | f :: rest => ", " ++ show_field f ++ more_fields rest
  end.


(** *** Vocabulary for statements about running loggers *)

(** Two configurations that differ at most in the level. *)
Definition same_format (c c' : Config) : Prop := with_Level c 0 = with_Level c' 0.

(** A family of loggers at work: the loggers of the state share the
    queue [b], its [done] channel and its wait group, write to [out] and
    format as [cfg0] does; the queue and [done] are open and the one
    worker runs. *)
Record running (b out : nat) (cfg0 : Config) (st : State) : Prop := mkRunning {
  run_queue : exists ch, buffers st !! b = Some ch /\ ch_closed ch = false;
  run_done : dones st !! b = Some false;
  run_wg : wgs st !! b = Some 1;
  run_worker : exists self, workers st !! b = Some self /\ is_Some (heap st !! self);
  run_only : forall w self, workers st !! w = Some self -> w = b;
  run_family : forall a ad, heap st !! a = Some ad ->
    buffer ad = b /\ done ad = b /\ wg ad = b /\
    Output (config ad) = Some out /\ same_format (config ad) cfg0
}.

(** The calls of [Write] among the calls made on outputs. *)
Definition is_SWrite (e : SinkEvent) : bool :=
  match e with SWrite _ _ => true | SSync _ => false end.
Definition writes_of (evs : list SinkEvent) : list SinkEvent :=
  filter (fun e => is_SWrite e = true) evs.

(** The calls of [log] in a schedule. *)
Definition is_DoLog (act : Action) : bool :=
  match act with DoLog _ _ _ _ => true | _ => false end.

(** *** The members of a JSON record *)

(** The value of the last field of [fs] with key [k]. *)
Fixpoint last_field (k : string) (fs : list Field) : option Value :=
  match fs with
  | [] => None
  | f :: rest =>
      match last_field k rest with
      | Some v => Some v
      | None => if String.eqb (Key f) k then Some (FValue f) else None
      end
  end.

(** The members [writeJSONLog] sets before the fields. *)
Definition standard_field (cfg : Config) (entry : logEntry) (k : string)
    : option Value :=
  if String.eqb k "caller" then
    if String.eqb (Caller entry) "" then None else Some (VString (Caller entry))
  else if String.eqb k "timestamp" then
    if DisableTimestamp cfg then None
    else Some (VString (Format (Timestamp entry) (TimeFormat cfg)))
  else if String.eqb k "message" then Some (VString (Message entry))
  else if String.eqb k "level" then Some (VString (Level_String (Level entry)))
  else None.

(** The member [k] of the record of an entry: the additional fields of
    the configuration come before the fields of the entry, and those
    before the standard members; among fields with one key the last. *)
Definition json_member (cfg : Config) (entry : logEntry) (k : string)
    : option Value :=
  match last_field k (AdditionalFields cfg) with
  | Some v => Some v
  | None =>
      match last_field k (Fields entry) with
      | Some v => Some v
      | None => standard_field cfg entry k
      end
  end.

(** *** Multi writer outputs *)

(** The loop of [collectWriteResults]. *)
Fixpoint collectWriteResults_loop (I : Output.Iface) (ws : list (option nat))
    (contents : string) (writeResults : list Output.WriteResult)
    (calls : list Output.Call) : list Output.WriteResult * list Output.Call :=
  match ws with
  | [] => (writeResults, calls)
  | None :: rest => collectWriteResults_loop I rest contents writeResults calls
  | Some w :: rest =>
      let '(bytesWritten, err) := Output.onWrite I calls w contents in
      collectWriteResults_loop I rest contents
        (writeResults ++
           [Output.mkWriteResult w (Output.typeName I w) bytesWritten err])%list
        (calls ++ [Output.CWrite w contents])%list
  end.

Definition collectWriteResults (I : Output.Iface) (mwOutput : Output.MultiWriter)
    (contents : string) (calls : list Output.Call)
    : list Output.WriteResult * list Output.Call :=
  collectWriteResults_loop I (Output.Writers mwOutput) contents [] calls.

(** The loop of [analyzeResults]. *)
Fixpoint analyzeResults_loop (writeResults : list Output.WriteResult)
    (contents : string) (successCount : Z) (incompleteWrites errorWrites : list string)
    : Z * list string * list string :=
  match writeResults with
  | [] => (successCount, incompleteWrites, errorWrites)
  | result :: rest =>
      match Output.Err result with
      | Some e =>
          analyzeResults_loop rest contents successCount incompleteWrites
            (errorWrites ++ [(Output.Name result ++ ": error: " ++ e)%string])%list
      | None =>
          if negb (Output.Bytes result =? Z.of_nat (String.length contents)) then
            analyzeResults_loop rest contents successCount
              (incompleteWrites ++
                 [(Output.Name result ++ ": partial write " ++
                   fmt_d (Output.Bytes result) ++ "/" ++
                   fmt_d (Z.of_nat (String.length contents)) ++ " bytes")%string])%list
              errorWrites
          else
            analyzeResults_loop rest contents (successCount + 1)
              incompleteWrites errorWrites
      end
  end.

Definition analyzeResults (writeResults : list Output.WriteResult) (contents : string)
    : Z * list string * list string :=
  analyzeResults_loop writeResults contents 0 [] [].

(** [handleMultiWriter]: whether it reports write issues on standard
    error, and the calls it made. *)
Definition handleMultiWriter (I : Output.Iface) (output : Output.MultiWriter)
    (contents : string) (calls : list Output.Call) : bool * list Output.Call :=
  let '(writeResults, calls1) := collectWriteResults I output contents calls in
  let '(successCount, incompleteWrites, errorWrites) :=
    analyzeResults writeResults contents in
  ((0 <? length errorWrites)%nat || (0 <? length incompleteWrites)%nat, calls1).

End Adapter.

(** ** Concrete writers, loggers and states used by the examples *)

Module Scenario.
Import Logger OSys Output Adapter.

(** Two writers of type [*output.FileWriter]; writer 1 fails with
    "disk full" and writes nothing, any other one writes everything. *)
Definition two_writers : Iface :=
  {| typeName := fun _ => "*output.FileWriter";
     onWrite := fun _ w p =>
       if (w =? 1)%nat then (0, Some "disk full")
       else (Z.of_nat (String.length p), None);
     onSync := fun _ _ => None;
     onClose := fun _ _ => None |}.

(** [NewMultiWriter(w0)] followed by [AddWriter(w1)]. *)
Definition grown_multi_writer : MultiWriter :=
  match NewMultiWriter two_writers [Some 0%nat] with
  | (Some mw, _) => (AddWriter mw (Some 1%nat)).2
  | (None, _) => mkMultiWriter [] ∅
  end.

(** A log file of ten bytes with a limit of twelve. *)
Definition log_path : Path := ("logs", "app.log").

Definition small_disk : OS :=
  {| names := <[log_path := 5%nat]> ∅;
     inodes := <[5%nat := "0123456789"]> ∅;
     files := <[7%nat := mkOsFile 5 true 0 false]> ∅;
     next_id := 8; trace := [] |}.

Definition small_writer : FileWriter :=
  {| file := Some 7%nat; path := log_path; maxSize := 12; size := 10;
     compress := false |}.

(** A rotated file waiting to be compressed, and a run in which every
    step succeeds. *)
Definition backup_path : Path := ("logs", "app.log.2024-01-02T03-04-05").

Definition backup_disk : OS :=
  {| names := <[backup_path := 5%nat]> ∅;
     inodes := <[5%nat := "0123456789"]> ∅;
     files := ∅;
     next_id := 8; trace := [] |}.

Definition smooth_run : CompressEnv :=
  {| src_open_fault := None; gz_open_fault := None;
     copy_emit := "gzip-header+blocks"; copy_fault := None;
     gzclose_emit := "+trailer"; gzclose_fault := None;
     gz_sync_fault := None; gz_close_fault := None;
     stat_fault := None; verify_open_fault := None;
     gzip_header_ok := fun c => String.prefix "gzip-header" c;
     remove_fault := None; cleanup_fault := None |}.

Definition clock : Time := mkTime (fun _ => "2024-01-02T03:04:05Z").

Definition no_json : gmap string Value -> string + string :=
  fun _ => inr "json: unsupported type".

(** Text output, level Info, a queue of four entries. *)
Definition plain_config : Config :=
  {| CLevel := InfoLevel; Output := Some 0%nat; EnableStackTrace := false;
     EnableCaller := false; TimeFormat := RFC3339; EnableJSON := false;
     BufferSize := 4096; AsyncBufferSize := 4; DisableTimestamp := true;
     AdditionalFields := [] |}.

Definition stamped_config : Config :=
  {| CLevel := InfoLevel; Output := Some 0%nat; EnableStackTrace := false;
     EnableCaller := true; TimeFormat := RFC3339; EnableJSON := false;
     BufferSize := 4096; AsyncBufferSize := 4; DisableTimestamp := false;
     AdditionalFields := [] |}.

Definition here : LogEnv :=
  mkLogEnv clock (Some (["home"; "app"; "cmd"; "main.go"], 10)).

Definition empty_state : State :=
  {| heap := ∅; buffers := ∅; dones := ∅; wgs := ∅; workers := ∅;
     next := 0; sink := [] |}.

Definition state_of {A} (r : result (A * State)) : State :=
  match r with
  | Ret (_, st) => st
  | _ => empty_state
  end.

(** The state after [NewAdapter(plain_config)]: the logger is at address 0. *)
Definition started : State := state_of (NewAdapter plain_config empty_state).

(** The state after [Sync] on that logger. *)
Definition stopped : State :=
  state_of (Sync no_json 0 (fun _ => false) None started).

(** [withFields({a:1}).withFields({a:2})] on the logger at address 0: the
    derived loggers are at addresses 1 and 2. *)
Definition branched : State :=
  state_of (WithFields 1 [mkField "a" (VInt 2)]
              (state_of (WithFields 0 [mkField "a" (VInt 1)] started))).



(** [NewFileWriter] given a path and nothing else, and runs of its system
    calls: all succeed, or [Stat] fails. *)
Definition path_only : FileConfig := mkFileConfig (Some log_path) 0 false 0.
Definition init_ok : InitEnv := mkInitEnv None None None.
Definition stat_fails : InitEnv := mkInitEnv None None (Some "input/output error").

(** Two writes on the small writer: the first fits, the second does not. *)
Definition two_writes : list (string * Env) :=
  [("ab", no_faults); ("cdefgh", no_faults)].

(** A rotation in which the rename fails. *)
Definition rename_fails : Env :=
  {| now := "2024-01-02T03-04-05"; close_fault := None;
     rename_fault := Some "permission denied"; open_fault := None;
     write_accept := 4096; write_fault := None; sync_fault := None |}.

(** A multi writer over three writers. *)
Definition three_writers : MultiWriter :=
  mkMultiWriter [Some 0%nat; Some 1%nat; Some 2%nat] ∅.

(** A reader that gives two chunks, an empty read, and a last chunk
    together with the end of the file; and a writer that takes all. *)
Definition three_reads : list (string * ReadStatus) :=
  [("he", ReadMore); ("", ReadMore); ("ll", ReadMore)].
Definition takes_all : list string -> string -> error := fun _ _ => None.

(** The backup disk with an older, longer compressed file in place. *)
Definition stale_gz_disk : OS :=
  {| names := <[path_suffix backup_path ".gz" := 6%nat]> (<[backup_path := 5%nat]> ∅);
     inodes := <[6%nat := "an older and much longer compressed file"]>
                 (<[5%nat := "0123456789"]> ∅);
     files := ∅;
     next_id := 8; trace := [] |}.

(** The state a computation ends in. *)
Definition state_after (r : result State) : State :=
  match r with
  | Ret st => st
  | _ => empty_state
  end.

(** A schedule on the logger at address 0: two calls, one of them under
    the level, a turn of the worker, a derived logger (at address 1), a
    call on it, and a change of level. *)
Definition busy_day : list Action :=
  [DoLog 0 InfoLevel "first" here; DoLog 0 DebugLevel "too low" here;
   DoWork 0; DoWithFields 0 [mkField "id" (VInt 7)];
   DoLog 1 WarnLevel "second" here; DoSetLevel 0 ErrorLevel;
   DoLog 0 WarnLevel "now too low" here].

(** Six calls on a queue of four, and no turn of the worker. *)
Definition rush : list Action :=
  [DoLog 0 InfoLevel "1" here; DoLog 0 InfoLevel "2" here;
   DoLog 0 InfoLevel "3" here; DoLog 0 InfoLevel "4" here;
   DoLog 0 InfoLevel "5" here; DoLog 0 InfoLevel "6" here].

(** JSON output with a global field, and an encoder that shows the key
    [level] of the map it is given. *)
Definition json_config : Config :=
  {| CLevel := InfoLevel; Output := Some 0%nat; EnableStackTrace := false;
     EnableCaller := false; TimeFormat := RFC3339; EnableJSON := true;
     BufferSize := 4096; AsyncBufferSize := 4; DisableTimestamp := true;
     AdditionalFields := [mkField "service" (VString "api")] |}.

(** A run of the compression in which the copy breaks off in the middle
    of the blocks and the removal of the partial file fails as well. *)
Definition torn_run : CompressEnv :=
  {| src_open_fault := None; gz_open_fault := None;
     copy_emit := "gzip-header+blo";
     copy_fault := Some (ReadFault "unexpected EOF");
     gzclose_emit := "+trailer"; gzclose_fault := None;
     gz_sync_fault := None; gz_close_fault := None;
     stat_fault := None; verify_open_fault := None;
     gzip_header_ok := fun c => String.prefix "gzip-header" c;
     remove_fault := None; cleanup_fault := Some "permission denied" |}.

End Scenario.

(** * Theorems *)


(** ** File writer: rotation *)

Section FileWriterFacts.
Import OSys Output.

Lemma int64_wrap_id z : - 2 ^ 63 <= z < 2 ^ 63 -> int64_wrap z = z.
Proof.
  intros Hz. unfold int64_wrap.
  rewrite Z.mod_small; lia.
Qed.

Lemma new_events_app os os' evs :
  trace os' = (trace os ++ evs)%list -> new_events os os' = evs.
Proof. intros H. unfold new_events. rewrite H. apply drop_app_length. Qed.

Lemma string_app_length (a b : string) :
  String.length (a ++ b) = (String.length a + String.length b)%nat.
Proof. induction a as [|c a IH]; simpl; [done | by rewrite IH]. Qed.

Lemma backupPath_fresh w ts : backupPath w ts <> path w.
Proof.
  unfold backupPath, filepath_Join, filepath_Dir, filepath_Base.
  destruct (path w) as [d b]. simpl. intros H.
  assert (Hl : String.length (b ++ "." ++ ts) = String.length b) by congruence.
  rewrite string_app_length in Hl. simpl in Hl. lia.
Qed.


Lemma File_Close_trace h f os :
  exists evs, trace (File_Close h f os).2 = (trace os ++ evs)%list /\ Forall quiet evs.
Proof.
  unfold File_Close. destruct h as [a|]; [|exists []; by rewrite app_nil_r].
  destruct (files os !! a) as [fl|]; [|exists []; by rewrite app_nil_r].
  destruct (f_closed fl); exists [EvClose a]; split; simpl; auto;
    repeat constructor.
Qed.

Lemma Rename_trace a b f os :
  exists evs, trace (Rename a b f os).2 = (trace os ++ evs)%list /\ Forall quiet evs.
Proof.
  unfold Rename. destruct f; [exists []; by rewrite app_nil_r|].
  destruct (names os !! a); [|exists []; by rewrite app_nil_r].
  exists [EvRename a b]. split; simpl; auto. repeat constructor.
Qed.

Lemma OpenFile_trace p c ap f os :
  exists evs, trace (OpenFile p c ap f os).2 = (trace os ++ evs)%list /\ Forall quiet evs.
Proof.
  unfold OpenFile. destruct f; [exists []; by rewrite app_nil_r|].
  destruct (names os !! p).
  - eexists [_]. split; simpl; eauto. repeat constructor.
  - destruct c; [|exists []; by rewrite app_nil_r].
    eexists [_]. split; simpl; eauto. repeat constructor.
Qed.

Lemma rotate_trace w env os :
  exists rest,
    trace (rotate w env os).2 = (trace os ++ EvRotate (path w) :: rest)%list
    /\ Forall quiet rest.
Proof.
  unfold rotate.
  destruct (File_Close_trace (file w) (close_fault env) (emit (EvRotate (path w)) os))
    as (e1 & H1 & Q1).
  destruct (File_Close _ _ _) as [[err|] os1]; simpl in H1.
  { exists e1. split; [|done]. simpl. rewrite H1. by rewrite <- app_assoc. }
  destruct (Rename_trace (path w) (backupPath w (now env)) (rename_fault env) os1)
    as (e2 & H2 & Q2).
  destruct (Rename _ _ _ _) as [[err|] os2]; simpl in H2.
  { exists (e1 ++ e2)%list. split; [|by apply Forall_app]. simpl.
    rewrite H2, H1. by rewrite <- !app_assoc. }
  set (os3 := if compress w then _ else os2).
  assert (H3 : exists e3, trace os3 = (trace os2 ++ e3)%list /\ Forall quiet e3).
  { subst os3. destruct (compress w).
    - eexists [_]. split; simpl; eauto. repeat constructor.
    - exists []. by rewrite app_nil_r. }
  destruct H3 as (e3 & H3 & Q3).
  destruct (OpenFile_trace (path w) true true (open_fault env) os3) as (e4 & H4 & Q4).
  destruct (OpenFile _ _ _ _ _) as [[f [err|]] os4]; simpl in H4;
    exists (e1 ++ e2 ++ e3 ++ e4)%list; (split; [|by repeat apply Forall_app_2]);
    simpl; rewrite H4, H3, H2, H1; by rewrite <- !app_assoc.
Qed.

Lemma rotate_failure_keeps w env os e :
  (rotate w env os).1.1 = Some e -> (rotate w env os).1.2 = w.
Proof.
  unfold rotate.
  destruct (File_Close _ _ _) as [[?|] os1]; [done|].
  destruct (Rename _ _ _ _) as [[?|] os2]; [done|].
  destruct (OpenFile _ _ _ _ _) as [[f [?|]] os4]; done.
Qed.

Lemma write_file_trace w d env os :
  trace (write_file w d env os).2 = trace os
  \/ exists h n, trace (write_file w d env os).2 = (trace os ++ [EvWrite h d n])%list.
Proof.
  unfold write_file, File_Write.
  destruct (file w) as [a|]; [|left; done].
  destruct (files os !! a) as [f|]; [|left; done].
  destruct (f_closed f); [right; by eexists _, _|].
  destruct (write_fault env); simpl.
  - right. by eexists _, _.
  - destruct (_ =? _)%nat; right; by eexists _, _.
Qed.

End FileWriterFacts.

Section FileWriterRotation.
Import OSys Output.

Lemma string_app_cons c (a b : string) : String c a ++ b = String c (a ++ b).
Proof. reflexivity. Qed.

Lemma take_bytes_all (s : string) : take_bytes (String.length s) s = s.
Proof. induction s as [|c s IH]; simpl; [done | by rewrite IH]. Qed.

Lemma take_bytes_prefix n (s : string) : exists r, s = take_bytes n s ++ r.
Proof.
  revert s. induction n as [|n IH]; intros s; simpl.
  - by exists s.
  - destruct s as [|c s]; [by exists ""|].
    destruct (IH s) as [r Hr]. exists r. rewrite string_app_cons. by f_equal.
Qed.

(** A rotation that succeeds leaves a fresh, empty, open file at the
    original path, and a zero size counter. *)
Lemma rotate_success w env os :
  (rotate w env os).1.1 = None ->
  exists os3 : OS,
    names os3 !! path w = None /\
    rotate w env os =
      (None, set_file_size w (Some (S (next_id os3))) 0,
       emit (EvOpen (path w) (S (next_id os3)))
         {| names := <[path w := next_id os3]> (names os3);
            inodes := <[next_id os3 := ""]> (inodes os3);
            files := <[S (next_id os3) := mkOsFile (next_id os3) true 0 false]>
                       (files os3);
            next_id := S (S (next_id os3)); trace := trace os3 |}).
Proof.
  unfold rotate.
  destruct (File_Close _ _ _) as [[?|] os1] eqn:E1; [done|].
  unfold Rename.
  destruct (rename_fault env); [done|].
  destruct (names os1 !! path w) as [i|] eqn:En; [|done].
  match goal with |- context [OpenFile _ _ _ _ ?o] => set (os3 := o) end.
  assert (Hn : names os3 !! path w = None).
  { subst os3. destruct (compress w); simpl;
      (rewrite lookup_insert_ne by apply backupPath_fresh);
      apply lookup_delete_eq. }
  unfold OpenFile. destruct (open_fault env); [done|].
  rewrite Hn. intros _. exists os3. done.
Qed.


Lemma needs_rotation_spec w d :
  0 <= size w -> size w + len d < 2 ^ 63 ->
  needs_rotation w d = true <-> size w + len d > maxSize w.
Proof.
  intros H0 H1. unfold needs_rotation, len in *.
  rewrite int64_wrap_id by lia. rewrite Z.gtb_gt. lia.
Qed.

Lemma rotations_quiet evs : Forall quiet evs -> rotations evs = 0%nat.
Proof.
  unfold rotations. induction 1 as [|e evs [He _] _ IH]; [done|].
  rewrite filter_cons_False; [done | by rewrite He].
Qed.

Lemma write_file_new_events w d env os os0 evs :
  trace os = (trace os0 ++ evs)%list ->
  new_events os0 (write_file w d env os).2 = evs
  \/ exists h n, new_events os0 (write_file w d env os).2 = (evs ++ [EvWrite h d n])%list.
Proof.
  intros Ht. destruct (write_file_trace w d env os) as [H|(h & n & H)].
  - left. apply new_events_app. by rewrite H.
  - right. exists h, n. apply new_events_app. rewrite H, Ht. by rewrite <- app_assoc.
Qed.

Lemma rotations_app a b : rotations (a ++ b) = (rotations a + rotations b)%nat.
Proof. unfold rotations. by rewrite filter_app, length_app. Qed.

End FileWriterRotation.

Section FileWriterTheorem.
Import OSys Output.

(** Shape of the events of one [Write]: the rotation, if any, then the
    write, if any. *)
Lemma FileWriter_Write_events w d env os :
  exists rest post,
    Forall quiet rest /\
    (post = [] \/ exists h n, post = [EvWrite h d n]) /\
    new_events os (FileWriter_Write w d env os).2 =
      ((if needs_rotation w d then EvRotate (path w) :: rest else []) ++ post)%list.
Proof.
  unfold FileWriter_Write. destruct (needs_rotation w d).
  - destruct (rotate_trace w env os) as (rest & Ht & Hq).
    destruct (rotate w env os) as [[[e|] w1] os1]; simpl in Ht.
    + exists rest, []. split; [done|]. split; [by left|].
      rewrite app_nil_r. by apply new_events_app.
    + exists rest.
      destruct (write_file_new_events w1 d env os1 os _ Ht) as [H|(h & n & H)].
      * exists []. split; [done|]. split; [by left|]. by rewrite app_nil_r.
      * exists [EvWrite h d n]. split; [done|]. split; [right; eauto|]. done.
  - exists [].
    destruct (write_file_new_events w d env os os [] (eq_sym (app_nil_r _)))
      as [H|(h & n & H)].
    + exists []. split; [done|]. split; [by left|]. done.
    + exists [EvWrite h d n]. split; [done|]. split; [right; eauto|]. done.
Qed.

Lemma rotations_post post d :
  (post = [] \/ exists h n, post = [EvWrite h d n]) -> rotations post = 0%nat.
Proof. intros [->|(h & n & ->)]; reflexivity. Qed.

Lemma quiet_lookup rest (i : nat) e :
  Forall quiet rest -> rest !! i = Some e -> quiet e.
Proof. intros H Hi. eapply Forall_lookup_1; eauto. Qed.

End FileWriterTheorem.

Import OSys Output.


(** ** Compression of a rotated file *)

Section SystemCallFrames.
Import OSys Output.


Lemma steady_refl os : steady os os.
Proof. split; auto. Qed.


Lemma steady_emit e os : steady os (emit e os).
Proof. split; auto. Qed.

Lemma File_Close_steady h f os : steady os (File_Close h f os).2.
Proof.
  unfold File_Close. destruct h as [a|]; [|apply steady_refl].
  destruct (files os !! a) as [fl|] eqn:E; [|apply steady_refl].
  destruct (f_closed fl); [apply steady_emit|].
  split; simpl; auto. intros h j. unfold handle_ino. simpl.
  destruct (decide (a = h)) as [->|Hne].
  - rewrite lookup_insert_eq, E. done.
  - by rewrite lookup_insert_ne.
Qed.

Lemma File_Close_inodes h f os : inodes (File_Close h f os).2 = inodes os.
Proof.
  unfold File_Close. destruct h as [a|]; [|done].
  destruct (files os !! a) as [fl|]; [|done]. by destruct (f_closed fl).
Qed.

Lemma File_Sync_steady h f os : steady os (File_Sync h f os).2.
Proof.
  unfold File_Sync. destruct h as [a|]; [|apply steady_refl].
  destruct (files os !! a) as [fl|]; [|apply steady_refl].
  destruct (f_closed fl); apply steady_emit.
Qed.

Lemma File_Sync_inodes h f os : inodes (File_Sync h f os).2 = inodes os.
Proof.
  unfold File_Sync. destruct h as [a|]; [|done].
  destruct (files os !! a) as [fl|]; [|done]. by destruct (f_closed fl).
Qed.

Lemma File_Write_steady h d n f os : steady os (File_Write h d n f os).2.
Proof.
  unfold File_Write. destruct h as [a|]; [|apply steady_refl].
  destruct (files os !! a) as [fl|] eqn:E; [|apply steady_refl].
  destruct (f_closed fl); [apply steady_emit|].
  split; simpl; auto. intros h j. unfold handle_ino. simpl.
  destruct (decide (a = h)) as [->|Hne].
  - rewrite lookup_insert_eq, E. done.
  - by rewrite lookup_insert_ne.
Qed.

(** A write changes the inode of its file and no other. *)
Lemma File_Write_inodes h d n f os i :
  handle_ino os h <> Some i ->
  inodes (File_Write (Some h) d n f os).2 !! i = inodes os !! i.
Proof.
  unfold File_Write, handle_ino. intros Hne.
  destruct (files os !! h) as [fl|]; [|done].
  destruct (f_closed fl); [done|]. simpl.
  rewrite lookup_insert_ne; [done|]. intros Heq. apply Hne. simpl. by f_equal.
Qed.

(** Opening an existing file adds an open file and nothing else. *)
Lemma OpenFile_existing_steady p ap f os :
  (forall h, is_Some (files os !! h) -> (h < next_id os)%nat) ->
  steady os (OpenFile p false ap f os).2.
Proof.
  intros Hfr. unfold OpenFile. destruct f; [apply steady_refl|].
  destruct (names os !! p); [|apply steady_refl].
  split; simpl; auto. intros h j. unfold handle_ino. simpl.
  destruct (decide (next_id os = h)) as [<-|Hne].
  - intros H. destruct (files os !! next_id os) eqn:E; [|done].
    assert (next_id os < next_id os)%nat by (apply Hfr; eauto). lia.
  - by rewrite lookup_insert_ne.
Qed.

Lemma OpenFile_existing_inodes p ap f os :
  inodes (OpenFile p false ap f os).2 = inodes os.
Proof.
  unfold OpenFile. destruct f; [done|]. destruct (names os !! p); done.
Qed.


Lemma File_Close_below h f os :
  handles_below os -> handles_below (File_Close h f os).2.
Proof.
  unfold File_Close. intros Hb. destruct h as [a|]; [|done].
  destruct (files os !! a) as [fl|] eqn:E; [|done].
  destruct (f_closed fl); [done|]. intros x. simpl.
  destruct (decide (a = x)) as [->|Hne].
  - intros _. apply Hb. eauto.
  - rewrite lookup_insert_ne by done. apply Hb.
Qed.

Lemma File_Sync_below h f os :
  handles_below os -> handles_below (File_Sync h f os).2.
Proof.
  unfold File_Sync. intros Hb. destruct h as [a|]; [|done].
  destruct (files os !! a) as [fl|]; [|done]. by destruct (f_closed fl).
Qed.

Lemma File_Write_below h d n f os :
  handles_below os -> handles_below (File_Write h d n f os).2.
Proof.
  unfold File_Write. intros Hb. destruct h as [a|]; [|done].
  destruct (files os !! a) as [fl|] eqn:E; [|done].
  destruct (f_closed fl); [done|]. intros x. simpl.
  destruct (decide (a = x)) as [->|Hne].
  - intros _. apply Hb. eauto.
  - rewrite lookup_insert_ne by done. apply Hb.
Qed.

Lemma OpenFile_below p c ap f os :
  handles_below os -> handles_below (OpenFile p c ap f os).2.
Proof.
  unfold OpenFile. intros Hb. destruct f; [done|].
  destruct (names os !! p).
  - intros x. simpl. destruct (decide (next_id os = x)) as [<-|Hne]; [lia|].
    rewrite lookup_insert_ne by done. intros H. apply Hb in H. lia.
  - destruct c; [|done]. intros x. simpl.
    destruct (decide (S (next_id os) = x)) as [<-|Hne]; [lia|].
    rewrite lookup_insert_ne by done. intros H. apply Hb in H. lia.
Qed.

Lemma Remove_below p f os : handles_below os -> handles_below (Remove p f os).2.
Proof.
  unfold Remove. intros Hb. destruct f; [done|]. destruct (names os !! p); done.
Qed.

Lemma Remove_inodes p f os : inodes (Remove p f os).2 = inodes os.
Proof. unfold Remove. destruct f; [done|]. destruct (names os !! p); done. Qed.

Lemma Remove_handles p f os h : handle_ino (Remove p f os).2 h = handle_ino os h.
Proof. unfold Remove. destruct f; [done|]. destruct (names os !! p); done. Qed.

Lemma Remove_names_ne p q f os :
  p <> q -> names (Remove p f os).2 !! q = names os !! q.
Proof.
  unfold Remove. intros Hne. destruct f; [done|].
  destruct (names os !! p); [|done]. simpl. by rewrite lookup_delete_ne.
Qed.

Lemma Remove_names_eq p os :
  names (Remove p None os).2 !! p = None.
Proof.
  unfold Remove. destruct (names os !! p) eqn:E; [|done]. simpl.
  apply lookup_delete_eq.
Qed.

End SystemCallFrames.

Section TraceExtension.
Import OSys Output.


Lemma trace_ext_refl Q os : trace_ext Q os os.
Proof. exists []. by rewrite app_nil_r. Qed.

Lemma trace_ext_trans Q a b c : trace_ext Q a b -> trace_ext Q b c -> trace_ext Q a c.
Proof.
  intros (e1 & H1 & Q1) (e2 & H2 & Q2). exists (e1 ++ e2)%list.
  split; [|by apply Forall_app]. rewrite H2, H1. by rewrite app_assoc.
Qed.

Variable p : Path.

Local Abbreviation keeps_p := (keeps_p p).


Lemma File_Close_ext h f os : trace_ext keeps_p os (File_Close h f os).2.
Proof.
  unfold File_Close. destruct h as [a|]; [|apply trace_ext_refl].
  destruct (files os !! a) as [fl|]; [|apply trace_ext_refl].
  destruct (f_closed fl); exists [EvClose a]; (split; [done|]);
    by repeat constructor.
Qed.

Lemma File_Sync_ext h f os : trace_ext keeps_p os (File_Sync h f os).2.
Proof.
  unfold File_Sync. destruct h as [a|]; [|apply trace_ext_refl].
  destruct (files os !! a) as [fl|]; [|apply trace_ext_refl].
  destruct (f_closed fl); exists [EvSync a]; (split; [done|]);
    by repeat constructor.
Qed.

Lemma File_Write_ext h d n f os : trace_ext keeps_p os (File_Write h d n f os).2.
Proof.
  unfold File_Write. destruct h as [a|]; [|apply trace_ext_refl].
  destruct (files os !! a) as [fl|]; [|apply trace_ext_refl].
  destruct (f_closed fl); eexists [_]; (split; [done|]);
    by repeat constructor.
Qed.

Lemma OpenFile_ext q c ap f os : trace_ext keeps_p os (OpenFile q c ap f os).2.
Proof.
  unfold OpenFile. destruct f; [apply trace_ext_refl|].
  destruct (names os !! q).
  - eexists [_]. split; [done|]. by repeat constructor.
  - destruct c; [|apply trace_ext_refl].
    eexists [_]. split; [done|]. by repeat constructor.
Qed.

Lemma Remove_ext q f os : q <> p -> trace_ext keeps_p os (Remove q f os).2.
Proof.
  intros Hne. unfold Remove. destruct f; [apply trace_ext_refl|].
  destruct (names os !! q); [|apply trace_ext_refl].
  exists [EvRemove q]. split; [done|]. constructor; [|done].
  unfold keeps_p. congruence.
Qed.

(** A sync, a close and a removal that succeed leave their event. *)
Lemma File_Sync_ok h f os os' :
  File_Sync (Some h) f os = (None, os') -> trace os' = (trace os ++ [EvSync h])%list.
Proof.
  unfold File_Sync. destruct (files os !! h) as [fl|]; [|done].
  destruct (f_closed fl); [done|]. by intros [= _ <-].
Qed.

Lemma File_Close_ok h f os os' :
  File_Close (Some h) f os = (None, os') -> trace os' = (trace os ++ [EvClose h])%list.
Proof.
  unfold File_Close. destruct (files os !! h) as [fl|]; [|done].
  destruct (f_closed fl); [done|]. by intros [= _ <-].
Qed.

Lemma Remove_ok q f os os' :
  Remove q f os = (None, os') ->
  trace os' = (trace os ++ [EvRemove q])%list /\ names os' = delete q (names os)
  /\ inodes os' = inodes os.
Proof.
  unfold Remove. destruct f; [done|]. destruct (names os !! q); [|done].
  by intros [= <-].
Qed.

End TraceExtension.

Section CompressSteps.
Import OSys Output.

Lemma gz_path_fresh (p : Path) : path_suffix p ".gz" <> p.
Proof.
  unfold path_suffix. destruct p as [d b]. simpl. intros H.
  assert (Hl : String.length (b ++ ".gz") = String.length b) by congruence.
  rewrite string_app_length in Hl. simpl in Hl. lia.
Qed.

Variables (p : Path) (i j c : nat) (D : option string) (env : CompressEnv).
Hypothesis Hij : j <> i.

Let gzp : Path := path_suffix p ".gz".

Local Abbreviation Inv := (compress_inv p i j c D).


Lemma Inv_step os os' :
  Inv os -> steady os os' -> inodes os' !! i = inodes os !! i ->
  handles_below os' -> Inv os'.
Proof.
  intros [Hp Hg Hd Hc Hb] [Hn Hh _] Hi Hb'.
  split; [by rewrite Hn | by rewrite Hn | by rewrite Hi | by apply Hh | done].
Qed.

Lemma c_not_i os : Inv os -> handle_ino os c <> Some i.
Proof. intros [_ _ _ Hc _]. rewrite Hc. congruence. Qed.

Lemma gz_emit_Inv gz out os :
  gz_dst gz = Some c -> Inv os -> Inv (gz_emit gz out os).
Proof.
  intros Hd HI. unfold gz_emit. rewrite Hd. eapply Inv_step; [done| | |].
  - apply File_Write_steady.
  - apply File_Write_inodes. by apply c_not_i.
  - apply File_Write_below, HI.
Qed.

Lemma gz_emit_ext gz out os : trace_ext (keeps_p p) os (gz_emit gz out os).
Proof. apply File_Write_ext. Qed.

Lemma File_Sync_Inv h f os : Inv os -> Inv (File_Sync h f os).2.
Proof.
  intros HI. eapply Inv_step; [done| | |].
  - apply File_Sync_steady.
  - by rewrite File_Sync_inodes.
  - apply File_Sync_below, HI.
Qed.

Lemma File_Close_Inv h f os : Inv os -> Inv (File_Close h f os).2.
Proof.
  intros HI. eapply Inv_step; [done| | |].
  - apply File_Close_steady.
  - by rewrite File_Close_inodes.
  - apply File_Close_below, HI.
Qed.

Lemma gzip_Close_Inv gz out f os :
  gz_dst gz = Some c -> Inv os -> Inv (gzip_Close gz out f os).2.
Proof.
  intros Hd HI. unfold gzip_Close. destruct (gz_err gz); [done|].
  destruct (gz_closed gz); [done|]. by apply gz_emit_Inv.
Qed.

Lemma gzip_Close_ext gz out f os :
  trace_ext (keeps_p p) os (gzip_Close gz out f os).2.
Proof.
  unfold gzip_Close. destruct (gz_err gz); [apply trace_ext_refl|].
  destruct (gz_closed gz); [apply trace_ext_refl|]. apply gz_emit_ext.
Qed.

Lemma gzip_Close_dst gz out f os : gz_dst (gzip_Close gz out f os).1.2 = gz_dst gz.
Proof.
  unfold gzip_Close. destruct (gz_err gz); [done|]. by destruct (gz_closed gz).
Qed.

(** A gzip writer whose [Close] succeeded is closed, and closing it again
    does nothing. *)
Lemma gzip_Close_ok gz out f gz' os os' :
  gzip_Close gz out f os = (None, gz', os') ->
  f = None \/ gz_closed gz = true.
Proof.
  unfold gzip_Close. destruct (gz_err gz); [done|].
  destruct (gz_closed gz); [by right|]. intros [= -> _ _]. by left.
Qed.


Lemma verify_Inv os : Inv os -> Inv (verifyCompressedFile gzp env os).2.
Proof.
  intros HI. unfold verifyCompressedFile.
  destruct (Stat_Size _ _ _) as [[sz|] [e|]]; try done.
  destruct (sz =? 0); [done|].
  pose proof (OpenFile_existing_steady gzp false (verify_open_fault env) os
                (inv_below _ _ _ _ _ _ HI)) as Hs.
  pose proof (OpenFile_existing_inodes gzp false (verify_open_fault env) os) as Hi.
  pose proof (OpenFile_below gzp false false (verify_open_fault env) os
                (inv_below _ _ _ _ _ _ HI)) as Hb.
  destruct (OpenFile _ _ _ _ _) as [[f [e|]] os1]; simpl in *.
  - eapply Inv_step; eauto. by rewrite Hi.
  - assert (Inv os1) by (eapply Inv_step; eauto; by rewrite Hi).
    destruct (gzip_header_ok _ _); simpl; by apply File_Close_Inv.
Qed.

Lemma verify_ext os : trace_ext (keeps_p p) os (verifyCompressedFile gzp env os).2.
Proof.
  unfold verifyCompressedFile.
  destruct (Stat_Size _ _ _) as [[sz|] [e|]]; try apply trace_ext_refl.
  destruct (sz =? 0); [apply trace_ext_refl|].
  pose proof (OpenFile_ext p gzp false false (verify_open_fault env) os) as He.
  destruct (OpenFile _ _ _ _ _) as [[f [e|]] os1]; simpl in *; [done|].
  destruct (gzip_header_ok _ _); simpl;
    (eapply trace_ext_trans; [exact He | apply File_Close_ext]).
Qed.

(** What a successful verification has checked. *)
Lemma verify_ok os os' :
  verifyCompressedFile gzp env os = (None, os') ->
  exists content,
    read_path os' gzp = Some content /\ content <> "" /\
    gzip_header_ok env content = true.
Proof.
  unfold verifyCompressedFile, Stat_Size.
  destruct (stat_fault env); [done|].
  destruct (read_path os gzp) as [content|] eqn:Er; [|done].
  destruct (Z.of_nat (String.length content) =? 0) eqn:Ez; [done|].
  pose proof (OpenFile_existing_steady gzp false (verify_open_fault env) os) as Hs.
  pose proof (OpenFile_existing_inodes gzp false (verify_open_fault env) os) as Hi.
  destruct (OpenFile _ _ _ _ _) as [[f [e|]] os1] eqn:Eo; [done|]. simpl in *.
  assert (Hr1 : read_path os1 gzp = Some content).
  { unfold read_path in *. rewrite Hi.
    assert (names os1 = names os) as ->; [|done].
    revert Eo. unfold OpenFile. destruct (verify_open_fault env); [done|].
    destruct (names os !! gzp); [|done]. by intros [= _ <-]. }
  rewrite Hr1. simpl.
  destruct (gzip_header_ok env content) eqn:Eh; [|done].
  intros [= <-]. exists content. split; [|split; [|done]].
  - unfold read_path in *.
    rewrite File_Close_inodes, (st_names _ _ (File_Close_steady f None os1)). done.
  - intros ->. done.
Qed.

Lemma remove_partial_spec os :
  Inv os ->
  let os' := remove_partial gzp env os in
  names os' !! p = Some i /\ inodes os' !! i = D /\
  handle_ino os' c = Some j /\ handles_below os' /\
  trace_ext (keeps_p p) os os' /\
  (cleanup_fault env = None -> names os' !! gzp = None) /\
  (cleanup_fault env <> None -> names os' !! gzp = Some j).
Proof.
  intros [Hp Hg Hd Hc Hb]. unfold remove_partial. simpl.
  split; [|split; [|split; [|split; [|split; [|split]]]]].
  - rewrite Remove_names_ne; [done | apply gz_path_fresh].
  - by rewrite Remove_inodes.
  - by rewrite Remove_handles.
  - by apply Remove_below.
  - apply Remove_ext, gz_path_fresh.
  - intros ->. apply Remove_names_eq.
  - unfold Remove. by destruct (cleanup_fault env).
Qed.

(** The deferred calls touch neither the directory nor the backup. *)
Lemma run_deferred_spec gz source os :
  gz_dst gz = Some c -> handle_ino os c = Some j ->
  let os' := run_deferred gz (Some c) source env os in
  names os' = names os /\ inodes os' !! i = inodes os !! i /\
  trace_ext (keeps_p p) os os'.
Proof.
  intros Hd Hc. unfold run_deferred. cbv zeta.
  set (os1 := (gzip_Close gz (gzclose_emit env) None os).2).
  assert (H1 : names os1 = names os /\ inodes os1 !! i = inodes os !! i
               /\ trace_ext (keeps_p p) os os1).
  { subst os1. unfold gzip_Close. destruct (gz_err gz).
    { split; [done|]. split; [done|]. apply trace_ext_refl. }
    destruct (gz_closed gz).
    { split; [done|]. split; [done|]. apply trace_ext_refl. }
    simpl. unfold gz_emit. rewrite Hd. split; [|split].
    - apply File_Write_steady.
    - apply File_Write_inodes. rewrite Hc. congruence.
    - apply File_Write_ext. }
  destruct H1 as (N1 & I1 & T1).
  split; [|split].
  - rewrite (st_names _ _ (File_Close_steady source None _)).
    rewrite (st_names _ _ (File_Close_steady (Some c) None _)). done.
  - by rewrite !File_Close_inodes.
  - eapply trace_ext_trans; [exact T1|].
    eapply trace_ext_trans; apply File_Close_ext.
Qed.

Lemma File_Sync_fault h f os os' : File_Sync (Some h) f os = (None, os') -> f = None.
Proof.
  unfold File_Sync. destruct (files os !! h) as [fl|]; [|done].
  destruct (f_closed fl); [done|]. by intros [= -> _].
Qed.

Lemma File_Close_fault h f os os' : File_Close (Some h) f os = (None, os') -> f = None.
Proof.
  unfold File_Close. destruct (files os !! h) as [fl|]; [|done].
  destruct (f_closed fl); [done|]. by intros [= -> _].
Qed.

Lemma Remove_failed q f os e os' : Remove q f os = (Some e, os') -> os' = os.
Proof.
  unfold Remove. destruct f; [by intros [= _ <-]|].
  destruct (names os !! q); [done|]. by intros [= _ <-].
Qed.

Lemma run_deferred_closed gz cmp src os :
  gz_closed gz = true ->
  inodes (run_deferred gz cmp src env os) = inodes os.
Proof.
  intros Hc. unfold run_deferred. cbv zeta.
  rewrite !File_Close_inodes. unfold gzip_Close.
  destruct (gz_err gz); [done|]. by rewrite Hc.
Qed.

(** Every way out of the steps through an error: the removal of the partial
    file is tried, the deferred calls run, the backup is where it was.  The
    partial file is gone when its removal succeeds and stays when it fails. *)
Lemma error_exit gz source os2 os' :
  Inv os' -> gz_dst gz = Some c -> trace_ext (keeps_p p) os2 os' ->
  let fin := run_deferred gz (Some c) source env (remove_partial gzp env os') in
  exists evs, trace fin = (trace os2 ++ evs)%list /\
    names fin !! p = Some i /\ inodes fin !! i = D /\ Forall (keeps_p p) evs /\
    (cleanup_fault env = None -> names fin !! gzp = None) /\
    (cleanup_fault env <> None -> names fin !! gzp = Some j).
Proof.
  intros HI Hd Hext fin.
  destruct (remove_partial_spec _ HI) as (Hp & Hdat & Hc & Hb & Hx & Hg).
  destruct (run_deferred_spec gz source
              (remove_partial gzp env os') Hd Hc) as (Hn & Hi & Ht).
  fold fin in Hn, Hi, Ht.
  destruct (trace_ext_trans _ _ _ _ Hext (trace_ext_trans _ _ _ _ Hx Ht))
    as (evs & He & Hq).
  exists evs. split; [done|]. rewrite Hn, Hi. auto.
Qed.

Lemma compress_steps_spec source os2 :
  Inv os2 ->
  let r := compress_steps p gzp source (Some c) (mkGzip (Some c) false None) env os2 in
  exists evs, trace r.2 = (trace os2 ++ evs)%list /\
  match r.1 with
  | None =>
      names r.2 !! p = None /\
      (exists content, read_path r.2 gzp = Some content /\ content <> "" /\
                       gzip_header_ok env content = true) /\
      (copy_fault env = None /\ gzclose_fault env = None /\
       gz_sync_fault env = None /\ gz_close_fault env = None) /\
      exists pre post, evs = (pre ++ EvRemove p :: post)%list /\
                       EvSync c ∈ pre /\ EvClose c ∈ pre /\ Forall (keeps_p p) pre
  | Some _ =>
      names r.2 !! p = Some i /\ inodes r.2 !! i = D /\ Forall (keeps_p p) evs /\
      (cleanup_fault env = None -> names r.2 !! gzp = None) /\
      (cleanup_fault env <> None -> names r.2 !! gzp = Some j)
  end.
Proof.
  intros HI2 r. subst r. unfold compress_steps.
  set (gz := mkGzip (Some c) false None).
  (* copy *)
  assert (HI3 : Inv (gz_emit gz (copy_emit env) os2))
    by (by apply gz_emit_Inv).
  pose proof (gz_emit_ext gz (copy_emit env) os2) as X3.
  unfold copyWithBuffer. set (os3 := gz_emit gz (copy_emit env) os2) in *.
  destruct (copy_fault env) as [[e|e]|] eqn:Ecopy.
  { destruct (error_exit gz source os2 os3 HI3 eq_refl X3) as (evs & ? & ? & ? & ? & ?).
    exists evs. simpl. auto. }
  { destruct (error_exit (mkGzip (gz_dst gz) (gz_closed gz) (Some e)) source os2 os3
                HI3 eq_refl X3) as (evs & ? & ? & ? & ? & ?).
    exists evs. simpl. auto. }
  (* gzip close *)
  pose proof (gzip_Close_Inv gz (gzclose_emit env) (gzclose_fault env)
                os3 eq_refl HI3) as HI4.
  pose proof (gzip_Close_ext gz (gzclose_emit env) (gzclose_fault env) os3) as X4.
  pose proof (gzip_Close_dst gz (gzclose_emit env) (gzclose_fault env) os3) as D4.
  destruct (gzip_Close gz _ _ os3) as [[[e|] gz2] os4] eqn:Egz; simpl in HI4, X4, D4.
  { destruct (error_exit gz2 source os2 os4 HI4 D4 (trace_ext_trans _ _ _ _ X3 X4))
      as (evs & ? & ? & ? & ? & ?).
    exists evs. simpl. auto. }
  assert (Hgzf : gzclose_fault env = None).
  { destruct (gzip_Close_ok _ _ _ _ _ _ Egz) as [?|?]; done. }
  assert (Hclosed : gz_closed gz2 = true).
  { revert Egz. unfold gzip_Close. simpl. by intros [= _ <- _]. }
  (* sync *)
  pose proof (File_Sync_Inv (Some c) (gz_sync_fault env) os4 HI4) as HI5.
  pose proof (File_Sync_ext p (Some c) (gz_sync_fault env) os4) as X5.
  destruct (File_Sync (Some c) _ os4) as [[e|] os5] eqn:Esync; simpl in HI5, X5.
  { destruct (error_exit gz2 source os2 os5 HI5 D4
                (trace_ext_trans _ _ _ _ X3 (trace_ext_trans _ _ _ _ X4 X5)))
      as (evs & ? & ? & ? & ? & ?).
    exists evs. simpl. auto. }
  (* close *)
  pose proof (File_Close_Inv (Some c) (gz_close_fault env) os5 HI5) as HI6.
  pose proof (File_Close_ext p (Some c) (gz_close_fault env) os5) as X6.
  destruct (File_Close (Some c) _ os5) as [[e|] os6] eqn:Eclose; simpl in HI6, X6.
  { destruct (error_exit gz2 source os2 os6 HI6 D4
                (trace_ext_trans _ _ _ _ X3 (trace_ext_trans _ _ _ _ X4
                   (trace_ext_trans _ _ _ _ X5 X6))))
      as (evs & ? & ? & ? & ? & ?).
    exists evs. simpl. auto. }
  (* verify *)
  pose proof (verify_Inv os6 HI6) as HI7.
  pose proof (verify_ext os6) as X7.
  destruct (verifyCompressedFile gzp env os6) as [[e|] os7] eqn:Ever; simpl in HI7, X7.
  { destruct (error_exit gz2 source os2 os7 HI7 D4
                (trace_ext_trans _ _ _ _ X3 (trace_ext_trans _ _ _ _ X4
                   (trace_ext_trans _ _ _ _ X5 (trace_ext_trans _ _ _ _ X6 X7)))))
      as (evs & ? & ? & ? & ? & ?).
    exists evs. simpl. auto. }
  destruct (verify_ok os6 os7 Ever) as (content & Hread & Hne & Hhdr).
  (* remove the backup *)
  destruct (Remove p (remove_fault env) os7) as [[e|] os8] eqn:Erm.
  { apply Remove_failed in Erm. subst os8.
    destruct (error_exit gz2 source os2 os7 HI7 D4
                (trace_ext_trans _ _ _ _ X3 (trace_ext_trans _ _ _ _ X4
                   (trace_ext_trans _ _ _ _ X5 (trace_ext_trans _ _ _ _ X6 X7)))))
      as (evs & ? & ? & ? & ? & ?).
    exists evs. simpl. auto. }
  destruct (Remove_ok _ _ _ _ Erm) as (T8 & N8 & I8).
  assert (Hc8 : handle_ino os8 c = Some j).
  { pose proof (Remove_handles p (remove_fault env) os7 c) as H.
    rewrite Erm in H. simpl in H. rewrite H. apply HI7. }
  destruct (run_deferred_spec gz2 source os8 D4 Hc8)
    as (Nf & _ & Xf).
  pose proof (run_deferred_closed gz2 (Some c) source os8 Hclosed) as If.
  simpl.
  destruct X3 as (e3 & T3 & Q3). destruct X4 as (e4 & T4 & Q4).
  destruct X7 as (e7 & T7 & Q7). destruct Xf as (ef & Tf & Qf).
  pose proof (File_Sync_ok _ _ _ _ Esync) as T5.
  pose proof (File_Close_ok _ _ _ _ Eclose) as T6.
  exists ((e3 ++ e4 ++ [EvSync c] ++ [EvClose c] ++ e7) ++ EvRemove p :: ef)%list.
  split.
  { rewrite Tf, T8, T7, T6, T5, T4, T3. by rewrite <- !app_assoc. }
  split; [|split; [|split]].
  - rewrite Nf, N8. apply lookup_delete_eq.
  - exists content. split; [|done]. unfold read_path in *.
    rewrite Nf, N8, If, I8.
    rewrite lookup_delete_ne; [done|]. intros H. symmetry in H.
    by apply gz_path_fresh in H.
  - repeat split; try done.
    + by apply File_Sync_fault in Esync.
    + by apply File_Close_fault in Eclose.
  - eexists _, ef. split; [done|]. split; [|split].
    + rewrite !elem_of_app, !list_elem_of_singleton. auto.
    + rewrite !elem_of_app, !list_elem_of_singleton. auto.
    + repeat apply Forall_app_2; try done; by repeat constructor.
Qed.

End CompressSteps.

Section PerformCompression.
Import OSys Output.

Lemma OpenFile_failed q cr ap f os h e os' :
  OpenFile q cr ap f os = ((h, Some e), os') -> os' = os.
Proof.
  unfold OpenFile. destruct f; [by intros [= _ _ <-]|].
  destruct (names os !! q); [done|]. destruct cr; [done|]. by intros [= _ _ <-].
Qed.

(** After the two opens: the state the steps start from. *)
Lemma opens_Inv p env os source compressed os1 os2 :
  well_formed os ->
  (forall k, names os !! p = Some k -> names os !! path_suffix p ".gz" <> Some k) ->
  OpenFile p false false (src_open_fault env) os = ((source, None), os1) ->
  OpenFile (path_suffix p ".gz") true false (gz_open_fault env) os1
    = ((compressed, None), os2) ->
  exists i j c,
    j <> i /\ compressed = Some c /\ names os !! p = Some i /\
    compress_inv p i j c (inodes os !! i) os2 /\ trace_ext (keeps_p p) os os2.
Proof.
  intros Hwf Halias E1 E2.
  pose proof (OpenFile_ext p p false false (src_open_fault env) os) as X1.
  pose proof (OpenFile_ext p (path_suffix p ".gz") true false (gz_open_fault env) os1) as X2.
  rewrite E1 in X1. rewrite E2 in X2. simpl in X1, X2.
  pose proof (trace_ext_trans _ _ _ _ X1 X2) as X.
  destruct Hwf as [Hf Hn].
  revert E1. unfold OpenFile at 1. destruct (src_open_fault env); [done|].
  destruct (names os !! p) as [i|] eqn:Ep; [|done].
  intros [= <- <-].
  assert (Hi : (i < next_id os)%nat) by exact (Hn p i Ep).
  revert E2. unfold OpenFile. destruct (gz_open_fault env); [done|]. simpl.
  destruct (names os !! path_suffix p ".gz") as [j|] eqn:Eg.
  - intros [= <- <-]. exists i, j, (S (next_id os)).
    split; [intros ->; by eapply Halias|].
    split; [done|]. split; [done|]. split; [|done].
    split; simpl; try done.
    + unfold handle_ino. simpl. by rewrite lookup_insert_eq.
    + intros h. simpl. rewrite !lookup_insert_is_Some. intros [<-|[_ [<-|[_ H]]]]; try lia.
      destruct H as [f H]. pose proof (Hf h f H). simpl in *. lia.
  - intros [= <- <-]. exists i, (S (next_id os)), (S (S (next_id os))).
    split; [lia|]. split; [done|]. split; [done|]. split; [|done].
    split; simpl.
    + rewrite lookup_insert_ne; [done | apply gz_path_fresh].
    + apply lookup_insert_eq.
    + rewrite lookup_insert_ne; [done | lia].
    + unfold handle_ino. simpl. by rewrite lookup_insert_eq.
    + intros h. simpl. rewrite !lookup_insert_is_Some. intros [<-|[_ [<-|[_ H]]]]; try lia.
      destruct H as [f H]. pose proof (Hf h f H). simpl in *. lia.
Qed.

(** The clean-up after a panic removes the compressed file and leaves the
    backup alone. *)
Lemma cleanupCompression_keeps_backup p env os :
  names (cleanupCompression p env os) !! p = names os !! p /\
  inodes (cleanupCompression p env os) = inodes os.
Proof.
  unfold cleanupCompression. split.
  - apply Remove_names_ne, gz_path_fresh.
  - apply Remove_inodes.
Qed.

End PerformCompression.

Import OSys Output.


(** ** Multi writer *)

Section MultiWriterFacts.
Import Output.

Variable I : Iface.


Lemma performWrites_loop_calls mw ws payload results calls :
  (performWrites_loop I mw ws payload results calls).2 =
    (calls ++ map (fun w => CWrite w payload) (registered ws))%list.
Proof.
  revert results calls. induction ws as [|[w|] ws IH]; intros results calls; simpl.
  - by rewrite app_nil_r.
  - destruct (onWrite I calls w payload) as [n err]. rewrite IH.
    by rewrite <- app_assoc.
  - apply IH.
Qed.


Lemma performWrites_loop_names mw ws payload results calls :
  Forall (fun r => Name r = name_of mw (Writer r)) results ->
  Forall (fun r => Name r = name_of mw (Writer r))
    (performWrites_loop I mw ws payload results calls).1.
Proof.
  revert results calls. induction ws as [|[w|] ws IH]; intros results calls H; simpl.
  - done.
  - destruct (onWrite I calls w payload) as [n err]. apply IH.
    apply Forall_app. split; [done|]. by constructor.
  - by apply IH.
Qed.

Lemma processResults_loop_spec results expected sc fs :
  processResults_loop results expected sc fs =
    (sc + Z.of_nat (length (filter (fun r => is_success expected r = true) results)),
     (fs ++ map (failure_line expected)
              (filter (fun r => is_success expected r <> true) results))%list).
Proof.
  revert sc fs. induction results as [|r results IH]; intros sc fs; simpl.
  - by rewrite Z.add_0_r, app_nil_r.
  - destruct (is_success expected r) eqn:E.
    + rewrite IH. rewrite filter_cons_True by done.
      rewrite (filter_cons_False (fun r => is_success expected r <> true)) by (rewrite E; auto).
      simpl. f_equal. lia.
    + rewrite IH. rewrite filter_cons_False by (rewrite E; done).
      rewrite (filter_cons_True (fun r => is_success expected r <> true)) by (by rewrite E).
      simpl. by rewrite <- app_assoc.
Qed.

(** Every registered writer is written to once, in order, whatever the
    earlier writers returned. *)
Lemma MultiWriter_Write_calls mw payload calls :
  (MultiWriter_Write I mw payload calls).2 =
    (calls ++ map (fun w => CWrite w payload) (registered (Writers mw)))%list.
Proof.
  unfold MultiWriter_Write, writeToWriters, performWrites.
  pose proof (performWrites_loop_calls mw (Writers mw) payload [] calls) as H.
  destruct (performWrites_loop _ _ _ _ _ _) as [results calls1]. simpl in H.
  destruct (processResults _ _) as [sc [|f fs]]; simpl; done.
Qed.

(** The count returned is the length of the payload. *)
Lemma MultiWriter_Write_count mw payload calls :
  (MultiWriter_Write I mw payload calls).1.1 = Z.of_nat (String.length payload).
Proof.
  unfold MultiWriter_Write, writeToWriters.
  destruct (performWrites _ _ _ _ _) as [results calls1].
  destruct (processResults _ _) as [sc [|f fs]]; done.
Qed.

(** An error is returned exactly when some writer returned an error or a
    count other than the length of the payload. *)
Lemma MultiWriter_Write_error_iff mw payload calls :
  let expected := Z.of_nat (String.length payload) in
  (MultiWriter_Write I mw payload calls).1.2 <> None <->
  exists r, r ∈ (performWrites I mw payload expected calls).1 /\
            (Err r <> None \/ Bytes r <> expected).
Proof.
  intros expected. unfold MultiWriter_Write, writeToWriters. fold expected.
  destruct (performWrites _ _ _ _ _) as [results calls1]. simpl.
  unfold processResults. rewrite processResults_loop_spec. simpl.
  set (bad := filter (fun r => is_success expected r <> true) results).
  assert (Hbad : forall r, r ∈ bad <-> r ∈ results /\ (Err r <> None \/ Bytes r <> expected)).
  { intros r. subst bad. rewrite list_elem_of_filter. unfold is_success.
    destruct (Err r) as [e|].
    - split; [intros [_ ?]; split; [done | by left] | intros [? _]; done].
    - rewrite Z.eqb_eq. split.
      + intros [Hne ?]. split; [done|]. right. done.
      + intros [? [?|?]]; done. }
  destruct bad as [|b bad'] eqn:Eb; simpl.
  - split; [done|]. intros (r & Hr). apply Hbad in Hr. by apply elem_of_nil in Hr.
  - split; [|done]. intros _. exists b. apply Hbad. by left.
Qed.

(** The error, when there is one, is the report over the results that are
    not a success, in the order of the writers, each under the name the
    writer has in [writerNames]. *)
Lemma MultiWriter_Write_report mw payload calls :
  let expected := Z.of_nat (String.length payload) in
  let results := (performWrites I mw payload expected calls).1 in
  let bad := filter (fun r => is_success expected r <> true) results in
  let good := filter (fun r => is_success expected r = true) results in
  Forall (fun r => Name r = name_of mw (Writer r)) results /\
  (MultiWriter_Write I mw payload calls).1.2 =
    match bad with
    | [] => None
    | _ => Some (createErrorReport results (Z.of_nat (length good))
                   (map (failure_line expected) bad))
    end.
Proof.
  intros expected results bad good. split.
  - apply performWrites_loop_names. constructor.
  - subst results bad good.
    unfold MultiWriter_Write, writeToWriters. fold expected.
    destruct (performWrites _ _ _ _ _) as [results calls1]. simpl.
    unfold processResults. rewrite processResults_loop_spec. simpl.
    by destruct (filter _ results).
Qed.

End MultiWriterFacts.

Section MultiWriterNames.
Import Output.

Variable I : Iface.

Local Abbreviation all_named := (all_named I).


Lemma collect_valid_named i writers valid names :
  all_named valid names ->
  all_named (collect_valid I i writers valid names).1
            (collect_valid I i writers valid names).2.
Proof.
  revert i valid names. induction writers as [|[w|] writers IH];
    intros i valid names H; simpl; [done| |by apply IH].
  apply IH. intros w' Hin.
  destruct (decide (w = w')) as [<-|Hne].
  - eexists. rewrite lookup_insert_eq. split; [done|]. by exists i.
  - rewrite lookup_insert_ne by done. apply H.
    apply elem_of_app in Hin as [Hin|Hin]; [done|].
    apply list_elem_of_singleton in Hin. congruence.
Qed.

(** Every writer registered by [NewMultiWriter] has a name made of its type
    and its position. *)
Lemma NewMultiWriter_named writers mw :
  (NewMultiWriter I writers).1 = Some mw ->
  all_named (Writers mw) (writerNames mw).
Proof.
  unfold NewMultiWriter. destruct writers as [|w0 writers]; [done|].
  pose proof (collect_valid_named 0 (w0 :: writers) [] ∅) as H.
  destruct (collect_valid I 0 (w0 :: writers) [] ∅) as [valid names].
  destruct valid as [|v valid]; [done|]. simpl. intros [= <-]. simpl.
  apply H. intros w Hin. by apply elem_of_nil in Hin.
Qed.

(** [AddWriter] registers the writer and gives it no name. *)
Lemma AddWriter_unnamed mw w mw' :
  writerNames mw !! w = None ->
  AddWriter mw (Some w) = (None, mw') ->
  Some w ∈ Writers mw' /\ name_of mw' w = "".
Proof.
  intros Hn [= <-]. simpl. split; [set_solver|].
  unfold name_of. simpl. by rewrite Hn.
Qed.

End MultiWriterNames.

Import Output.

Import Scenario.

(** C1.  For every multi writer and payload, [Write] calls every registered
    writer once, in order, whatever the earlier ones returned; it returns
    the length of the payload; and it returns an error exactly when some
    writer returned an error or a count other than that length, the error
    being the report over those writers, each under the name it has in
    [writerNames].  That name is empty for a writer added by [AddWriter]:
    a multi writer built by [NewMultiWriter] from one writer and given a
    second, failing one by [AddWriter] reports the failure with no name. *)
Theorem MultiWriter_Write_fanout_and_names :
  (forall I mw payload calls,
     let expected := Z.of_nat (String.length payload) in
     let results := (performWrites I mw payload expected calls).1 in
     let bad := filter (fun res => is_success expected res <> true) results in
     let good := filter (fun res => is_success expected res = true) results in
     let r := MultiWriter_Write I mw payload calls in
     r.2 = (calls ++ map (fun w => CWrite w payload) (registered (Writers mw)))%list /\
     r.1.1 = expected /\
     (r.1.2 <> None <->
      exists res, res ∈ results /\ (Err res <> None \/ Bytes res <> expected)) /\
     Forall (fun res => Name res = name_of mw (Writer res)) results /\
     r.1.2 =
       match bad with
       | [] => None
       | _ => Some (createErrorReport results (Z.of_nat (length good))
                      (map (failure_line expected) bad))
       end) /\
  Writers grown_multi_writer = [Some 0%nat; Some 1%nat] /\
  name_of grown_multi_writer 0 = "*output.FileWriter[0]" /\
  name_of grown_multi_writer 1 = "" /\
  MultiWriter_Write two_writers grown_multi_writer "hi" [] =
    ((2, Some ("Write operation status:" ++ nl ++
               "  Total writers: 2" ++ nl ++
               "  Successful writes: 1" ++ nl ++
               "  Failed writes: 1" ++ nl ++
               "  Failures:" ++ nl ++
               "    - : wrote 0/2 bytes (disk full)" ++ nl)),
     [CWrite 0 "hi"; CWrite 1 "hi"]).
Proof.
  split.
  - intros I mw payload calls expected results bad good r.
    split; [apply MultiWriter_Write_calls|].
    split; [apply MultiWriter_Write_count|].
    split; [apply MultiWriter_Write_error_iff|].
    apply MultiWriter_Write_report.
  - repeat split; vm_compute; reflexivity.
Qed.

(** ** Closing writers twice *)

Section CloseTwice.
Import OSys Output.

(** A file writer whose [Close] succeeded is marked closed, and [Close]
    then returns nil without touching anything. *)
Lemma FileWriter_Close_twice w env os w1 os1 env' :
  FileWriter_Close w env os = (None, w1, os1) ->
  FileWriter_Close w1 env' os1 = (None, w1, os1).
Proof.
  unfold FileWriter_Close. destruct (file w) as [h|] eqn:Ef.
  - destruct (File_Sync _ _ _) as [[e|] os2]; [done|].
    destruct (File_Close _ _ _) as [[e|] os3]; [done|].
    intros [= <- <-]. done.
  - intros [= <- <-]. by rewrite Ef.
Qed.

(** After [Close], whatever it returned, a multi writer has no writers
    left; a second [Close] calls nobody and returns nil. *)
Lemma MultiWriter_Close_twice I mw calls e1 mw1 calls1 :
  MultiWriter_Close I mw calls = (e1, mw1, calls1) ->
  MultiWriter_Close I mw1 calls1 = (None, mw1, calls1).
Proof.
  unfold MultiWriter_Close.
  destruct (close_loop I (Writers mw) [] 0 calls) as [[errs sc] c1].
  destruct errs; intros [= <- <- <-]; reflexivity.
Qed.

(** A console writer over a writer without a [Close] method: [Close] does
    nothing, any number of times. *)
Lemma ConsoleWriter_Close_no_closer I id syncer m env os calls :
  ConsoleWriter_Close I (mkConsoleWriter (OtherW id syncer false) m) env os calls
    = (None, os, calls).
Proof. reflexivity. Qed.

(** A console writer hands every [Close] to the writer it wraps. *)
Lemma ConsoleWriter_Close_delegates I id syncer m env os calls :
  (ConsoleWriter_Close I (mkConsoleWriter (OtherW id syncer true) m) env os calls).2
    = (calls ++ [CClose id])%list.
Proof. unfold ConsoleWriter_Close. simpl. by destruct (onClose I calls id). Qed.

End CloseTwice.

Import OSys Output Scenario.

(** C4.  A file writer whose [Close] succeeded returns nil from the next
    [Close] and touches nothing.  A multi writer returns nil from a second
    [Close] and calls nobody.  A console writer hands every [Close] to the
    writer it wraps: [NewConsoleWriter(nil, mode)] wraps [os.Stdout], its
    first [Close] returns nil and its second [Close] returns the error of
    closing a closed file.  No call panics. *)
Theorem Writer_Close_twice :
  (forall w env os w1 os1 env',
     FileWriter_Close w env os = (None, w1, os1) ->
     FileWriter_Close w1 env' os1 = (None, w1, os1)) /\
  (forall I mw calls,
     let first := MultiWriter_Close I mw calls in
     MultiWriter_Close I first.1.2 first.2 = (None, first.1.2, first.2)) /\
  (let w := NewConsoleWriter None 0 in
   let first := ConsoleWriter_Close two_writers w no_faults boot [] in
   let second := ConsoleWriter_Close two_writers w no_faults first.1.2 first.2 in
   out w = OsFileW Stdout /\
   first.1.1 = None /\
   second.1.1 = Some "closing console output: file already closed").
Proof.
  split; [apply FileWriter_Close_twice|]. split.
  - intros I mw calls first.
    destruct first as [[e1 mw1] calls1] eqn:E. simpl.
    by apply (MultiWriter_Close_twice I mw calls e1).
  - repeat split; vm_compute; reflexivity.
Qed.

Lemma Writer_Close_twice_witness :
  FileWriter_Close small_writer no_faults small_disk
    = (None, set_file_size small_writer None 10,
       (FileWriter_Close small_writer no_faults small_disk).2) /\
  FileWriter_Close (set_file_size small_writer None 10) no_faults
      (FileWriter_Close small_writer no_faults small_disk).2
    = (None, set_file_size small_writer None 10,
       (FileWriter_Close small_writer no_faults small_disk).2).
Proof.
  split; [reflexivity|].
  destruct Writer_Close_twice as [H _].
  apply (H small_writer no_faults small_disk). reflexivity.
Defined.

(** ** Text rendering *)

Section TextRendering.
Import Logger Adapter.

Lemma string_app_assoc (a b c : string) : (a ++ b) ++ c = a ++ b ++ c.
Proof.
  induction a as [|x a IH]; [done|].
  change (String x ((a ++ b) ++ c) = String x (a ++ b ++ c)). by rewrite IH.
Qed.

Lemma string_app_nil_l (a : string) : "" ++ a = a.
Proof. reflexivity. Qed.

Lemma string_app_nil_r (a : string) : a ++ "" = a.
Proof.
  induction a as [|x a IH]; [done|].
  change (String x (a ++ "") = String x a). by rewrite IH.
Qed.

Lemma writeField_show buf f : writeField buf f = buf ++ show_field f.
Proof.
  unfold writeField, show_field, quoted, WriteString, WriteByte.
  destruct (FValue f); by rewrite ?string_app_assoc.
Qed.


Lemma write_fields_later i buf fs :
  write_fields (S i) buf fs = buf ++ more_fields fs.
Proof.
  revert i buf. induction fs as [|f fs IH]; intros i buf; simpl.
  - by rewrite string_app_nil_r.
  - rewrite IH, writeField_show. unfold WriteString.
    by rewrite !string_app_assoc.
Qed.

Lemma join_comma_cons f fs :
  join_comma (map show_field (f :: fs)) = show_field f ++ more_fields fs.
Proof.
  revert f. induction fs as [|g fs IH]; intros f.
  - simpl. by rewrite string_app_nil_r.
  - change (show_field f ++ ", " ++ join_comma (map show_field (g :: fs))
            = show_field f ++ ", " ++ show_field g ++ more_fields fs).
    by rewrite IH.
Qed.

Lemma more_fields_app a b : more_fields (a ++ b) = more_fields a ++ more_fields b.
Proof.
  induction a as [|f a IH]; [done|]. simpl. rewrite IH.
  by rewrite !string_app_assoc.
Qed.

Lemma write_fields_first buf f fs :
  write_fields 0 buf (f :: fs) = buf ++ join_comma (map show_field (f :: fs)).
Proof.
  cbn [write_fields]. change (0 <? 0)%nat with false. cbv iota.
  rewrite write_fields_later, writeField_show, join_comma_cons.
  by rewrite string_app_assoc.
Qed.

(** [writeTextLog] into an empty buffer is [text_line]. *)
Lemma writeTextLog_text_line cfg entry :
  writeTextLog cfg "" entry = text_line cfg entry.
Proof.
  unfold writeTextLog, text_line, WriteString, WriteByte. cbv zeta.
  destruct (DisableTimestamp cfg); destruct (String.eqb (Caller entry) "");
    destruct (Fields entry) as [|f fs]; destruct (AdditionalFields cfg) as [|g gs];
    cbn [length];
    repeat change (0 <? S _)%nat with true;
    repeat change (0 <? 0)%nat with false;
    cbn [orb andb]; cbv iota;
    rewrite ?write_fields_first; cbn [write_fields]; rewrite ?app_nil_r;
    cbn [List.app]; cbv iota;
    rewrite ?join_comma_cons, ?more_fields_app; cbn [more_fields];
    rewrite ?string_app_assoc, ?string_app_nil_r, ?string_app_nil_l;
    rewrite ?string_app_nil_r; reflexivity.
Qed.

End TextRendering.

(** ** The asynchronous logger *)

Section LoggerFacts.
Import Logger Adapter.

Variable json_Encode : gmap string Value -> string + string.

Local Abbreviation writeLog := (writeLog json_Encode).
Local Abbreviation log := (log json_Encode).
Local Abbreviation drain := (drain json_Encode).
Local Abbreviation processLogs := (processLogs json_Encode).
Local Abbreviation wg_Wait := (wg_Wait json_Encode).
Local Abbreviation Sync := (Sync json_Encode).
Local Abbreviation dispatch := (dispatch json_Encode).



Lemma settled_refl st : settled st st.
Proof. split; [done|]. split; [done|]. eauto. Qed.

Lemma settled_trans a b c : settled a b -> settled b c -> settled a c.
Proof.
  intros (H1 & D1 & B1) (H2 & D2 & B2). split; [congruence|]. split; [congruence|].
  intros x ch Hx. destruct (B1 x ch Hx) as (ch1 & Hx1 & C1).
  destruct (B2 x ch1 Hx1) as (ch2 & Hx2 & C2). exists ch2. split; [done | congruence].
Qed.

Lemma writeLog_settled a entry st st' : writeLog a entry st = Ret st' -> settled st st'.
Proof.
  unfold writeLog, deref. destruct (heap st !! a) as [ad|]; [|done]. simpl.
  destruct (Output (config ad)); intros [= <-]; [|apply settled_refl].
  split; [done|]. split; [done|]. eauto.
Qed.

Lemma recv_settled b st entry st1 : recv b st = RecvEntry entry st1 -> settled st st1.
Proof.
  unfold recv. destruct (buffers st !! b) as [ch|] eqn:Eb; [|done].
  destruct (ch_queue ch) as [|e rest]; [by destruct (ch_closed ch)|].
  intros [= _ <-]. split; [done|]. split; [done|]. intros x ch' Hx. simpl.
  destruct (decide (b = x)) as [<-|Hne].
  - rewrite lookup_insert_eq. eexists. split; [done|]. simpl. congruence.
  - rewrite lookup_insert_ne by done. eauto.
Qed.

Lemma drain_S k a ad st :
  drain (S k) a ad st =
    match recv (buffer ad) st with
    | RecvEntry entry st1 => st2 ← writeLog a entry st1; drain k a ad st2
    | RecvClosed => Ret st
    | RecvNotReady => Ret st
    end.
Proof. reflexivity. Qed.

Local Arguments Adapter.drain : simpl never.

Lemma drain_settled fuel a ad st st' : drain fuel a ad st = Ret st' -> settled st st'.
Proof.
  revert st. induction fuel as [|k IH]; intros st; [done|]. rewrite drain_S.
  destruct (recv (buffer ad) st) as [entry st1| |] eqn:Er.
  - destruct (writeLog a entry st1) as [st2| |] eqn:Ew; simpl; try done.
    intros H. eapply settled_trans; [by eapply recv_settled|].
    eapply settled_trans; [by eapply writeLog_settled|]. by apply IH.
  - intros [= <-]. apply settled_refl.
  - intros [= <-]. apply settled_refl.
Qed.

Lemma processLogs_S k pick a st :
  processLogs (S k) pick a st =
    (ad ← deref st a;
     let done_ready := default false (dones st !! done ad) in
     match recv (buffer ad) st with
     | RecvEntry entry st1 =>
         if done_ready && pick k then drain (S k) a ad st
         else st2 ← writeLog a entry st1; processLogs k pick a st2
     | RecvClosed =>
         if done_ready && pick k then drain (S k) a ad st else Ret st
     | RecvNotReady =>
         if done_ready then drain (S k) a ad st else Blocked
     end).
Proof. reflexivity. Qed.

Local Arguments Adapter.processLogs : simpl never.

Lemma processLogs_settled fuel pick a st st' :
  processLogs fuel pick a st = Ret st' -> settled st st'.
Proof.
  revert st. induction fuel as [|k IH]; intros st; [done|]. rewrite processLogs_S.
  unfold deref. destruct (heap st !! a) as [ad|]; [|done]. simpl.
  destruct (recv (buffer ad) st) as [entry st1| |] eqn:Er.
  - destruct (_ && _); [apply drain_settled|].
    destruct (writeLog a entry st1) as [st2| |] eqn:Ew; simpl; try done.
    intros H. eapply settled_trans; [by eapply recv_settled|].
    eapply settled_trans; [by eapply writeLog_settled|]. by apply IH.
  - destruct (_ && _); [apply drain_settled|].
    intros [= <-]. apply settled_refl.
  - destruct (default false _); [apply drain_settled | done].
Qed.

Lemma wg_Wait_settled pick w st st' : wg_Wait pick w st = Ret st' -> settled st st'.
Proof.
  unfold wg_Wait. destruct (wgs st !! w) as [c|]; [|done].
  destruct (c =? 0); [intros [= <-]; apply settled_refl|].
  destruct (workers st !! w) as [self|]; [|done].
  unfold deref. destruct (heap st !! self) as [ad|]; [|done]. simpl.
  match goal with |- context [Adapter.processLogs _ ?f pick self st] =>
    destruct (processLogs f pick self st) as [st1| |] eqn:Ep end; simpl; try done.
  intros [= <-]. apply processLogs_settled in Ep as (H & D & B).
  split; [done|]. split; [done|]. exact B.
Qed.

(** A [Sync] that returns has closed the [done] channel and the queue of
    its family, and has left the adapters as they were. *)
Lemma Sync_returned a pick o st e st' :
  Sync a pick o st = Ret (e, st') ->
  heap st' = heap st /\
  exists ad, heap st !! a = Some ad /\ dones st' !! done ad = Some true /\
    exists ch, buffers st' !! buffer ad = Some ch /\ ch_closed ch = true.
Proof.
  unfold Sync, deref. destruct (heap st !! a) as [ad|] eqn:Ea; [|done]. simpl.
  unfold close_done. destruct (dones st !! done ad) as [[|]|] eqn:Ed; try done. simpl.
  unfold close_buffer. simpl.
  destruct (buffers st !! buffer ad) as [ch|] eqn:Eb; [|done].
  destruct (ch_closed ch) eqn:Ec; [done|]. simpl.
  set (st2 := set_buffers _ _).
  destruct (wg_Wait pick (wg ad) st2) as [st3| |] eqn:Ew; simpl; try done.
  apply wg_Wait_settled in Ew as (H & D & B).
  assert (Hb2 : buffers st2 !! buffer ad = Some (mkChan (ch_cap ch) (ch_queue ch) true)).
  { subst st2. simpl. apply lookup_insert_eq. }
  destruct (B _ _ Hb2) as (ch3 & Hb3 & Hc3). simpl in Hc3.
  assert (Hres : heap st3 = heap st /\ dones st3 !! done ad = Some true /\
                 buffers st3 !! buffer ad = Some ch3).
  { split; [by rewrite H|]. split; [|done]. rewrite D. subst st2. simpl.
    apply lookup_insert_eq. }
  destruct Hres as (Hh & Hd & Hb).
  destruct o as [r|]; [destruct (Output (config ad))|]; intros [= <- <-]; simpl;
    (split; [done|]); exists ad; (split; [done|]); (split; [done|]); eauto.
Qed.

End LoggerFacts.

Section LoggerDelivery.
Import Logger Adapter.

Variable json_Encode : gmap string Value -> string + string.

Local Abbreviation writeLog := (writeLog json_Encode).
Local Abbreviation log := (log json_Encode).
Local Abbreviation drain := (drain json_Encode).
Local Abbreviation processLogs := (processLogs json_Encode).
Local Abbreviation wg_Wait := (wg_Wait json_Encode).
Local Abbreviation Sync := (Sync json_Encode).
Local Abbreviation dispatch := (dispatch json_Encode).
Local Abbreviation contents_of := (contents_of json_Encode).
Local Abbreviation written := (written json_Encode).

Local Arguments Adapter.drain : simpl never.
Local Arguments Adapter.processLogs : simpl never.


Lemma enqueued_changes b ch entry st :
  buffers st !! b = Some ch -> enqueued b ch entry st <> st.
Proof.
  intros Hb Heq. assert (H : buffers (enqueued b ch entry st) !! b = Some ch)
    by (by rewrite Heq).
  unfold enqueued in H. simpl in H. rewrite lookup_insert_eq in H.
  injection H as H. destruct ch as [cap q cl]. simpl in H.
  injection H as Hq _. apply (f_equal length) in Hq. rewrite length_app in Hq.
  simpl in Hq. lia.
Qed.

Lemma written_changes ad out entry st : written ad out entry st <> st.
Proof.
  intros Heq. apply (f_equal sink) in Heq. unfold written in Heq. simpl in Heq.
  apply (f_equal length) in Heq. rewrite length_app in Heq. simpl in Heq. lia.
Qed.

(** On an open queue a call at or above the minimum level puts the entry
    at the end of the queue when there is room, and otherwise writes it. *)
Lemma log_delivers st a ad ch out level msg env :
  heap st !! a = Some ad -> buffers st !! buffer ad = Some ch ->
  ch_closed ch = false -> Output (config ad) = Some out ->
  CLevel (config ad) <= level ->
  let entry := entry_of ad level msg env in
  log a level msg env st =
    Ret (if (length (ch_queue ch) <? ch_cap ch)%nat
         then enqueued (buffer ad) ch entry st
         else written ad out entry st).
Proof.
  intros Ha Hb Hc Ho Hl entry. unfold log, Adapter.log, deref. rewrite Ha. simpl.
  destruct (level <? CLevel (config ad)) eqn:El; [apply Z.ltb_lt in El; lia|].
  unfold Adapter.dispatch. rewrite Hb, Hc.
  destruct (_ <? _)%nat; [done|].
  unfold Adapter.writeLog, deref. rewrite Ha. simpl. by rewrite Ho.
Qed.

(** The worker, once the queue is closed: however [select] chooses, it
    writes the queued entries in order and returns. *)
Lemma drain_all a ad out st q cap cl fuel :
  heap st !! a = Some ad -> Output (config ad) = Some out ->
  buffers st !! buffer ad = Some (mkChan cap q cl) ->
  (length q < fuel)%nat ->
  exists st', drain fuel a ad st = Ret st' /\
    sink st' = (sink st ++ map (fun e => SWrite out (contents_of (config ad) e)) q)%list /\
    buffers st' !! buffer ad = Some (mkChan cap [] cl).
Proof.
  revert st fuel. induction q as [|e q IH]; intros st fuel Ha Ho Hb Hf.
  - destruct fuel as [|k]; [simpl in Hf; lia|]. rewrite drain_S.
    unfold recv. rewrite Hb. simpl. exists st.
    destruct cl; (split; [done|]); by rewrite app_nil_r.
  - destruct fuel as [|k]; [simpl in Hf; lia|]. rewrite drain_S.
    unfold recv. rewrite Hb. simpl.
    unfold Adapter.writeLog, deref. simpl. rewrite Ha. simpl. rewrite Ho. simpl.
    match goal with |- context [Adapter.drain _ k a ad ?s] => set (st2 := s) end.
    destruct (IH st2 k) as (st' & Hd & Hs & Hq); try done.
    { subst st2. simpl. apply lookup_insert_eq. }
    { simpl in Hf. lia. }
    exists st'. split; [done|]. split; [|done]. rewrite Hs. subst st2. simpl.
    by rewrite <- app_assoc.
Qed.

Lemma processLogs_all pick a ad out st q cap fuel :
  heap st !! a = Some ad -> Output (config ad) = Some out ->
  buffers st !! buffer ad = Some (mkChan cap q true) ->
  (S (length q) < fuel)%nat ->
  exists st', processLogs fuel pick a st = Ret st' /\
    sink st' = (sink st ++ map (fun e => SWrite out (contents_of (config ad) e)) q)%list /\
    buffers st' !! buffer ad = Some (mkChan cap [] true).
Proof.
  revert st fuel. induction q as [|e q IH]; intros st fuel Ha Ho Hb Hf.
  - destruct fuel as [|k]; [simpl in Hf; lia|]. rewrite processLogs_S.
    unfold deref. rewrite Ha. simpl. unfold recv at 1. rewrite Hb. simpl.
    destruct (_ && _).
    + apply (drain_all a ad out st [] cap true (S k)); auto. simpl. lia.
    + exists st. split; [done|]. by rewrite app_nil_r.
  - destruct fuel as [|k]; [simpl in Hf; lia|]. rewrite processLogs_S.
    unfold deref. rewrite Ha. simpl. unfold recv at 1. rewrite Hb. simpl.
    destruct (_ && _).
    + apply (drain_all a ad out st (e :: q) cap true (S k)); auto. simpl in *. lia.
    + unfold Adapter.writeLog, deref. simpl. rewrite Ha. simpl. rewrite Ho. simpl.
      match goal with |- context [Adapter.processLogs _ k pick a ?s] => set (st2 := s) end.
      destruct (IH st2 k) as (st' & Hd & Hs & Hq); try done.
      { subst st2. simpl. apply lookup_insert_eq. }
      { simpl in Hf. lia. }
      exists st'. split; [done|]. split; [|done]. rewrite Hs. subst st2. simpl.
      by rewrite <- app_assoc.
Qed.

(** [Sync] on a running family returns, and by then every queued entry
    has been written, in the order of the queue. *)
Lemma Sync_drains st a ad self sd out ch pick o :
  heap st !! a = Some ad -> dones st !! done ad = Some false ->
  buffers st !! buffer ad = Some ch -> ch_closed ch = false ->
  wgs st !! wg ad = Some 1 -> workers st !! wg ad = Some self ->
  heap st !! self = Some sd -> buffer sd = buffer ad -> done sd = done ad ->
  Output (config sd) = Some out ->
  exists e st', Sync a pick o st = Ret (e, st') /\
    exists tail,
    sink st' = (sink st ++ map (fun e => SWrite out (contents_of (config sd) e))
                                (ch_queue ch) ++ tail)%list /\
    queued (buffer ad) st' = [].
Proof.
  intros Ha Hd Hb Hc Hw Hk Hs Hbs Hds Ho.
  unfold Sync, Adapter.Sync, deref. rewrite Ha. simpl.
  unfold close_done. rewrite Hd. simpl.
  unfold close_buffer. simpl. rewrite Hb, Hc. simpl.
  unfold Adapter.wg_Wait. simpl. rewrite Hw, Hk. simpl.
  unfold deref. simpl. rewrite Hs. simpl.
  match goal with |- context [Adapter.processLogs _ ?f pick self ?s] =>
    destruct (processLogs_all pick self sd out s (ch_queue ch) (ch_cap ch) f)
      as (st' & Hp & Hsink & Hq) end; try done.
  { simpl. rewrite Hbs. apply lookup_insert_eq. }
  { unfold queued. simpl. rewrite Hbs, lookup_insert_eq. simpl. lia. }
  rewrite Hp. simpl. simpl in Hsink.
  destruct o as [r|]; [destruct (Output (config ad)) as [oa|]|]; simpl.
  - exists r. eexists. split; [done|]. exists [SSync oa]. split.
    + simpl. rewrite Hsink. by rewrite <- app_assoc.
    + unfold queued. simpl. rewrite <- Hbs, Hq. done.
  - eexists None, _. split; [done|]. exists []. split.
    + simpl. rewrite Hsink. by rewrite app_nil_r.
    + unfold queued. simpl. rewrite <- Hbs, Hq. done.
  - eexists None, _. split; [done|]. exists []. split.
    + simpl. rewrite Hsink. by rewrite app_nil_r.
    + unfold queued. simpl. rewrite <- Hbs, Hq. done.
Qed.

End LoggerDelivery.

Import Logger Adapter Scenario.



(** C6.  After a call of [Sync] on a logger has returned, a call of [log]
    at or above the minimum level on any logger that shares its queue panics
    in its [select], a send on a closed channel: the entry is neither queued
    nor written by the caller, and never reaches the output. *)
Theorem log_after_Sync_panics (json_Encode : gmap string Value -> string + string)
    (st : State) (a b : nat) (ad bd : adapter) (pick : nat -> bool)
    (o : option error) (e : error) (st' : State)
    (level : Logger.Level) (msg : string) (env : LogEnv) :
  heap st !! a = Some ad -> heap st !! b = Some bd -> buffer bd = buffer ad ->
  Sync json_Encode a pick o st = Ret (e, st') ->
  CLevel (config bd) <= level ->
  log json_Encode b level msg env st' = Panic "send on closed channel".
Proof.
  intros Ha Hb Hq Hs Hl.
  apply Sync_returned in Hs as (Hh & ad0 & Ha0 & _ & ch & Hch & Hc).
  assert (ad0 = ad) as -> by congruence.
  unfold log, deref. rewrite Hh, Hb. simpl.
  destruct (level <? CLevel (config bd)) eqn:El; [apply Z.ltb_lt in El; lia|].
  unfold dispatch. by rewrite Hq, Hch, Hc.
Qed.

Lemma log_after_Sync_panics_witness :
  Sync no_json 0 (fun _ => false) None started = Ret (None, stopped) /\
  Info no_json 0 "after shutdown" here stopped = Panic "send on closed channel" /\
  sink stopped = [].
Proof.
  split; [reflexivity|]. split; [|reflexivity].
  apply (log_after_Sync_panics no_json started 0 0
           (mkAdapter plain_config [] 0 0 0) (mkAdapter plain_config [] 0 0 0)
           (fun _ => false) None None stopped);
    [reflexivity | reflexivity | reflexivity | reflexivity | vm_compute; discriminate].
Defined.

(** C7, as stated: after [SetLevel] on a logger, [GetLevel] on a logger
    derived from it by [WithFields] returns the new level.  It does not. *)
Lemma derived_logger_keeps_its_level :
  ~ (forall st a fs a' st1 v st2,
        WithFields a fs st = Ret (a', st1) ->
        SetLevel a v st1 = Ret st2 ->
        GetLevel a' st2 = Ret v).
Proof.
  intros H.
  specialize (H started 0%nat [] 1%nat
                (state_of (WithFields 0 [] started)) ErrorLevel
                (match SetLevel 0 ErrorLevel (state_of (WithFields 0 [] started)) with
                 | Ret s => s | _ => empty_state end)
                eq_refl eq_refl).
  vm_compute in H. discriminate H.
Qed.

(** C7, amended.  A logger derived by [WithFields] refers to the same queue,
    [done] channel and wait group as the logger it comes from, starts with a
    copy of its configuration, and has its fields followed by the new ones.
    The level is part of each logger's own copy: [SetLevel] on either logger
    sets the level [GetLevel] returns on that logger and leaves the level of
    the other one as it was.  [WithContext] and [WithError] with an error
    are [WithFields] with the fields they extract; [WithError(nil)] returns
    the receiver. *)
Theorem WithFields_shares_queue_copies_config
    (st : State) (a : nat) (ad : adapter) (fs : list Field) :
  heap st !! a = Some ad -> heap st !! next st = None ->
  exists st1 ad',
    WithFields a fs st = Ret (next st, st1) /\
    heap st1 !! next st = Some ad' /\ heap st1 !! a = Some ad /\
    buffer ad' = buffer ad /\ done ad' = done ad /\ wg ad' = wg ad /\
    config ad' = config ad /\ fields ad' = (fields ad ++ fs)%list /\
    buffers st1 = buffers st /\ dones st1 = dones st /\ workers st1 = workers st /\
    (forall v, exists st2, SetLevel a v st1 = Ret st2 /\
       GetLevel a st2 = Ret v /\ GetLevel (next st) st2 = Ret (CLevel (config ad))) /\
    (forall v, exists st2, SetLevel (next st) v st1 = Ret st2 /\
       GetLevel (next st) st2 = Ret v /\ GetLevel a st2 = Ret (CLevel (config ad))) /\
    (forall ctx, WithContext a ctx st = WithFields a (extractContextFields ctx) st) /\
    (forall e, exists efs, WithError a (Some e) st = WithFields a efs st) /\
    WithError a None st = Ret (a, st).
Proof.
  intros Ha Hfresh.
  assert (Hne : a <> next st) by (intros ->; congruence).
  unfold WithFields, deref. rewrite Ha. simpl.
  eexists _, _. split; [done|]. simpl.
  rewrite lookup_insert_eq, lookup_insert_ne by done.
  repeat (split; [done|]). split.
  - intros v. unfold SetLevel, GetLevel, deref. simpl.
    rewrite lookup_insert_ne by done. rewrite Ha. simpl.
    eexists. split; [done|]. simpl.
    rewrite lookup_insert_eq. simpl.
    rewrite lookup_insert_ne, lookup_insert_eq by done. done.
  - split; [|split; [|split]].
    + intros v. unfold SetLevel, GetLevel, deref. simpl.
      rewrite lookup_insert_eq. simpl.
      eexists. split; [done|]. simpl.
      rewrite lookup_insert_eq. simpl.
      rewrite !lookup_insert_ne by done. rewrite Ha. done.
    + intros ctx. unfold WithContext, WithFields, deref. by rewrite Ha.
    + intros e.
      exists (match err_stack e with
              | Some tr => [mkField "error" (VString (err_text e));
                            mkField "stack_trace" (VString tr)]
              | None => [mkField "error" (VString (err_text e))]
              end).
      unfold WithError, WithFields, deref. rewrite Ha. by destruct (err_stack e).
    + reflexivity.
Qed.

Lemma WithFields_shares_queue_copies_config_witness :
  exists st1 ad',
    WithFields 0 [mkField "a" (VInt 1)] started = Ret (1%nat, st1) /\
    heap st1 !! 1%nat = Some ad' /\ buffer ad' = 0%nat /\
    exists st2, SetLevel 0 ErrorLevel st1 = Ret st2 /\
      GetLevel 0 st2 = Ret ErrorLevel /\ GetLevel 1 st2 = Ret InfoLevel.
Proof.
  destruct (WithFields_shares_queue_copies_config started 0
              (mkAdapter plain_config [] 0 0 0) [mkField "a" (VInt 1)])
    as (st1 & ad' & Hw & Hh & _ & Hb & _ & _ & _ & _ & _ & _ & _ & Hset & _);
    [reflexivity | reflexivity |].
  exists st1, ad'. split; [exact Hw|]. split; [exact Hh|]. split; [exact Hb|].
  destruct (Hset ErrorLevel) as (st2 & H1 & H2 & H3).
  exists st2. split; [exact H1|]. split; [exact H2 | exact H3].
Defined.

Import Logger OSys Output Adapter Scenario.

(** C8, as stated: the line is [[timestamp] LEVEL [caller] message {...}]
    with the level name left-padded.  At level Info the code prints the name
    followed by a blank of padding, and it prints the timestamp without
    brackets. *)
Lemma text_line_differs_from_spec :
  writeTextLog plain_config "" (mkEntry InfoLevel "hi" [] clock "" None) = "INFO  hi" /\
  spec_text_line plain_config (mkEntry InfoLevel "hi" [] clock "" None) = " INFO hi" /\
  writeTextLog stamped_config ""
    (mkEntry InfoLevel "hi" [mkField "a" (VInt 1)] clock "cmd/main.go:10" None)
    = "2024-01-02T03:04:05Z INFO  [cmd/main.go:10] hi {a=1}" /\
  spec_text_line stamped_config
    (mkEntry InfoLevel "hi" [mkField "a" (VInt 1)] clock "cmd/main.go:10" None)
    = "[2024-01-02T03:04:05Z]  INFO [cmd/main.go:10] hi {a=1}" /\
  ~ (forall cfg entry, writeTextLog cfg "" entry = spec_text_line cfg entry).
Proof.
  repeat split; try (vm_compute; reflexivity).
  intros H. specialize (H plain_config (mkEntry InfoLevel "hi" [] clock "" None)).
  vm_compute in H. discriminate H.
Qed.

(** C8, amended.  In text mode an entry is rendered as [text_line]: the
    timestamp, without brackets, and a blank, unless timestamps are off; the
    level name left-justified and filled with blanks on the right to five
    characters, and a blank; the caller between square brackets and a blank
    when there is a caller; the message; and, when there is a field, a blank
    and the fields between braces, joined by a comma and a blank, each as
    [key=value] with string, time and error values between double quotes and
    every other value in default formatting.  The six level names fill
    exactly five characters. *)
Theorem writeTextLog_layout :
  (forall cfg entry, writeTextLog cfg "" entry = text_line cfg entry) /\
  (forall k s, show_field (mkField k (VString s)) = k ++ "=" ++ quoted s) /\
  (forall k t, show_field (mkField k (VTime t)) = k ++ "=" ++ quoted (Format t RFC3339)) /\
  (forall k m, show_field (mkField k (VError m)) = k ++ "=" ++ quoted m) /\
  (forall k n, show_field (mkField k (VInt n)) = k ++ "=" ++ fmt_d n) /\
  (forall k shown, show_field (mkField k (VOther shown)) = k ++ "=" ++ shown) /\
  map (fun l => fmt_left_justified 5 (Level_String l))
      [TraceLevel; DebugLevel; InfoLevel; WarnLevel; ErrorLevel; FatalLevel]
    = ["TRACE"; "DEBUG"; "INFO "; "WARN "; "ERROR"; "FATAL"].
Proof.
  split; [apply writeTextLog_text_line|]. repeat split; reflexivity.
Qed.

(** C9.  [WithFields] gives the derived logger the fields of the receiver
    followed by the new fields, duplicates included, and a text line shows
    all of them in that order.  After [withFields({a:1}).withFields({a:2})]
    a call of [Info] is rendered with both [a=1] and [a=2]. *)
Theorem WithFields_appends (st : State) (a : nat) (ad : adapter) (G : list Field) :
  heap st !! a = Some ad ->
  (exists st' ad',
     WithFields a G st = Ret (next st, st') /\
     heap st' !! next st = Some ad' /\
     fields ad' = (fields ad ++ G)%list /\
     forall level msg env,
       writeTextLog (config ad') "" (entry_of ad' level msg env) =
       text_line (config ad') (entry_of ad' level msg env) /\
       Fields (entry_of ad' level msg env) = (fields ad ++ G)%list) /\
  (fields <$> heap branched !! 2%nat = Some [mkField "a" (VInt 1); mkField "a" (VInt 2)] /\
   sink (state_of (Sync no_json 2 (fun _ => false) None
           (match Info no_json 2 "hi" here branched with
            | Ret s => s | _ => empty_state end)))
     = [SWrite 0 ("INFO  hi {a=1, a=2}" ++ nl)]).
Proof.
  intros Ha. split.
  - unfold WithFields, deref. rewrite Ha. simpl.
    eexists _, _. split; [done|]. simpl. rewrite lookup_insert_eq.
    split; [done|]. split; [done|]. intros level msg env.
    split; [apply writeTextLog_text_line | done].
  - split; vm_compute; reflexivity.
Qed.

Lemma WithFields_appends_witness :
  exists st' ad',
    WithFields 1 [mkField "a" (VInt 2)] (state_of (WithFields 0 [mkField "a" (VInt 1)] started))
      = Ret (2%nat, st') /\
    heap st' !! 2%nat = Some ad' /\
    fields ad' = [mkField "a" (VInt 1); mkField "a" (VInt 2)].
Proof.
  destruct (WithFields_appends (state_of (WithFields 0 [mkField "a" (VInt 1)] started)) 1
              (mkAdapter plain_config [mkField "a" (VInt 1)] 0 0 0)
              [mkField "a" (VInt 2)]) as [(st' & ad' & H1 & H2 & H3 & _) _];
    [reflexivity|].
  exists st', ad'. split; [exact H1|]. split; [exact H2 | exact H3].
Defined.

(** C10.  After a call of [Sync] on a logger has returned, a call of [Sync]
    on any logger that shares its [done] channel panics: it closes a closed
    channel. *)
Theorem Sync_twice_panics (json_Encode : gmap string Value -> string + string)
    (st : State) (a b : nat) (ad bd : adapter)
    (pick pick' : nat -> bool) (o o' : option error) (e : error) (st' : State) :
  heap st !! a = Some ad -> heap st !! b = Some bd -> done bd = done ad ->
  Sync json_Encode a pick o st = Ret (e, st') ->
  Sync json_Encode b pick' o' st' = Panic "close of closed channel".
Proof.
  intros Ha Hb Hd Hs.
  apply Sync_returned in Hs as (Hh & ad0 & Ha0 & Hdone & _).
  assert (ad0 = ad) as -> by congruence.
  unfold Sync, deref. rewrite Hh, Hb. simpl.
  unfold close_done. by rewrite Hd, Hdone.
Qed.

Lemma Sync_twice_panics_witness :
  Sync no_json 0 (fun _ => false) None started = Ret (None, stopped) /\
  Sync no_json 0 (fun _ => false) None stopped = Panic "close of closed channel" /\
  Sync no_json 1 (fun _ => true) None
    (state_of (Sync no_json 0 (fun _ => false) None
                 (state_of (WithFields 0 [] started))))
    = Panic "close of closed channel".
Proof.
  split; [reflexivity|]. split.
  - apply (Sync_twice_panics no_json started 0 0
             (mkAdapter plain_config [] 0 0 0) (mkAdapter plain_config [] 0 0 0)
             (fun _ => false) (fun _ => false) None None None stopped);
      reflexivity.
  - apply (Sync_twice_panics no_json (state_of (WithFields 0 [] started)) 0 1
             (mkAdapter plain_config [] 0 0 0) (mkAdapter plain_config [] 0 0 0)
             (fun _ => false) (fun _ => true) None None None);
      reflexivity.
Defined.

(** * Further properties of the code *)

(** ** The file writer over its life *)

Section FileWriterLife.
Import OSys Output.

Lemma len_app a b : len (a ++ b) = len a + len b.
Proof. unfold len. rewrite string_app_length. lia. Qed.

Lemma len_nonneg a : 0 <= len a.
Proof. unfold len. lia. Qed.

(** A write without an error on a file open for appending is complete
    and lands at the end of the file. *)
Lemma File_Write_complete os h i off d acc flt n os' :
  files os !! h = Some (mkOsFile i true off false) ->
  File_Write (Some h) d acc flt os = ((n, None), os') ->
  n = len d /\
  os' = emit (EvWrite h d n)
          {| names := names os;
             inodes := <[i := default "" (inodes os !! i) ++ d]> (inodes os);
             files := <[h := mkOsFile i true
                               (String.length (default "" (inodes os !! i))
                                + String.length d) false]> (files os);
             next_id := next_id os; trace := trace os |}.
Proof.
  intros Hh. unfold File_Write. rewrite Hh. simpl.
  destruct flt as [e|]; [done|].
  destruct (_ =? _)%nat eqn:E; [|done].
  apply Nat.eqb_eq in E. rewrite E. intros [= <- <-].
  rewrite take_bytes_all. done.
Qed.

(** [write_file] on a writer in step with the disk. *)
Lemma write_file_in_step w d env os c n w' os' :
  tracks w os c -> len c + len d < 2 ^ 63 ->
  write_file w d env os = ((n, None), w', os') ->
  n = len d /\ tracks w' os' (c ++ d) /\
  read_path os' (path w) = Some (c ++ d) /\
  path w' = path w /\ maxSize w' = maxSize w /\ compress w' = compress w /\
  names os' = names os /\ next_id os' = next_id os /\
  (forall k, names os !! path w <> Some k -> inodes os' !! k = inodes os !! k).
Proof.
  intros (h & i & Hf & [off Hh] & Hn & Hc & Hs) Hb. unfold write_file.
  rewrite Hf.
  destruct (File_Write _ _ _ _ _) as [[m [e|]] os1] eqn:E; [done|].
  intros [= <- <- <-].
  destruct (File_Write_complete _ _ _ _ _ _ _ _ _ Hh E) as [-> ->].
  split; [done|]. rewrite Hc.
  split; [|split; [|split; [done|split; [done|split; [done|split; [done|split; [done|]]]]]]].
  - exists h, i. simpl. split; [done|]. split.
    { eexists. apply lookup_insert_eq. }
    split; [done|]. rewrite lookup_insert_eq. simpl. split; [done|].
    rewrite Hs, len_app. pose proof (len_nonneg c). pose proof (len_nonneg d).
    apply int64_wrap_id. lia.
  - unfold read_path. simpl. rewrite Hn. simpl. apply lookup_insert_eq.
  - intros k Hk. simpl. apply lookup_insert_ne. congruence.
Qed.

(** What a rotation that succeeds does to a writer in step with the disk
    whose file is on the disk: the old file is the backup, the path names
    a new empty file, and the writer is in step with it. *)
Lemma rotate_in_step w env os c w1 os1 :
  tracks w os c -> well_formed os ->
  rotate w env os = (None, w1, os1) ->
  tracks w1 os1 "" /\ path w1 = path w /\ maxSize w1 = maxSize w /\
  compress w1 = compress w /\
  well_formed os1 /\
  (forall i, names os !! path w = Some i ->
     names os1 !! backupPath w (now env) = Some i /\
     inodes os1 !! i = inodes os !! i /\
     (forall q, q <> backupPath w (now env) -> names os1 !! q = Some i ->
                q <> path w /\ names os !! q = Some i)) /\
  (forall q, q <> path w -> q <> backupPath w (now env) ->
             names os1 !! q = names os !! q) /\
  (forall k, (k < next_id os)%nat -> inodes os1 !! k = inodes os !! k) /\
  (next_id os <= next_id os1)%nat /\
  (exists j, names os1 !! path w = Some j /\ (next_id os <= j)%nat).
Proof.
  intros (h & i & Hf & [off Hh] & Hn & Hc & Hs) [Wf Wn] Hrot.
  revert Hrot. unfold rotate.
  unfold File_Close. rewrite Hf. simpl. rewrite Hh. simpl.
  destruct (close_fault env); [done|].
  unfold Rename. simpl. destruct (rename_fault env); [done|]. rewrite Hn.
  match goal with |- context [OpenFile _ _ _ _ ?o] => set (os3 := o) end.
  assert (H3 : names os3 = <[backupPath w (now env) := i]> (delete (path w) (names os))
               /\ inodes os3 = inodes os /\ next_id os3 = next_id os
               /\ files os3 = <[h := mkOsFile i true off true]> (files os)).
  { subst os3. by destruct (compress w). }
  destruct H3 as (N3 & I3 & X3 & F3).
  assert (Hnone : names os3 !! path w = None).
  { rewrite N3, lookup_insert_ne by apply backupPath_fresh. apply lookup_delete_eq. }
  unfold OpenFile. destruct (open_fault env); [done|]. rewrite Hnone.
  intros [= <- <-]. simpl.
  assert (Hi : (i < next_id os)%nat) by (eapply (Wn (path w)); eauto).
  split; [|split; [done|split; [done|split; [done|split; [|split; [|split; [|split; [|split]]]]]]]].
  - exists (S (next_id os3)), (next_id os3). simpl. split; [done|].
    split; [eexists; apply lookup_insert_eq|].
    split; [apply lookup_insert_eq|]. rewrite lookup_insert_eq. done.
  - split; simpl.
    + apply map_Forall_insert_2; [lia|]. rewrite F3.
      apply map_Forall_insert_2; [specialize (Wf h _ Hh); simpl in Wf; lia|].
      rewrite X3. intros a f Ha. specialize (Wf a f Ha). simpl in *. lia.
    + apply map_Forall_insert_2; [lia|]. rewrite N3.
      apply map_Forall_insert_2; [lia|].
      rewrite X3. intros a k Ha. apply lookup_delete_Some in Ha as [_ Ha].
      specialize (Wn a k Ha). simpl in *. lia.
  - intros i' Hi'. assert (i' = i) as -> by congruence.
    split; [|split].
    + rewrite lookup_insert_ne by (apply not_eq_sym, backupPath_fresh).
      rewrite N3. apply lookup_insert_eq.
    + rewrite lookup_insert_ne by lia. by rewrite I3.
    + intros q Hq Hqi.
      destruct (decide (q = path w)) as [->|Hqp].
      { rewrite lookup_insert_eq in Hqi. injection Hqi as Hqi. lia. }
      split; [done|]. rewrite lookup_insert_ne in Hqi by done.
      rewrite N3, lookup_insert_ne in Hqi by done.
      by apply lookup_delete_Some in Hqi as [_ Hqi].
  - intros q Hqp Hqb. rewrite lookup_insert_ne by done.
    rewrite N3, lookup_insert_ne by done. by apply lookup_delete_ne.
  - intros k Hk. rewrite lookup_insert_ne by lia. by rewrite I3.
  - lia.
  - exists (next_id os3). rewrite lookup_insert_eq. split; [done | lia].
Qed.

Lemma well_formed_write_file w d env os :
  well_formed os -> well_formed (write_file w d env os).2.
Proof.
  intros [Wf Wn]. unfold write_file.
  destruct (File_Write _ _ _ _ _) as [[m e] os1] eqn:E.
  assert (H : well_formed os1).
  { revert E. unfold File_Write. destruct (file w) as [a|]; [|by intros [= _ _ <-]].
    destruct (files os !! a) as [f|] eqn:Ef; [|by intros [= _ _ <-]].
    destruct (f_closed f); intros [= _ _ <-]; [done|]. split; simpl; [|done].
    apply map_Forall_insert_2; [|done]. by apply (Wf a f). }
  by destruct e.
Qed.

(** One call of [Write] without an error on a writer in step with the
    disk. *)
Lemma FileWriter_Write_step w d env os c n w' os' :
  tracks w os c -> well_formed os -> len c + len d < 2 ^ 63 ->
  FileWriter_Write w d env os = ((n, None), w', os') ->
  n = len d /\
  tracks w' os' (if needs_rotation w d then d else c ++ d) /\
  read_path os' (path w) = Some (if needs_rotation w d then d else c ++ d) /\
  path w' = path w /\ maxSize w' = maxSize w /\ compress w' = compress w /\
  well_formed os'.
Proof.
  intros Ht Wf Hb. unfold FileWriter_Write.
  destruct (needs_rotation w d).
  - destruct (rotate w env os) as [[[e|] w1] os1] eqn:Er; [done|].
    destruct (rotate_in_step _ _ _ _ _ _ Ht Wf Er)
      as (Ht1 & Hp & Hm & Hcm & Wf1 & _).
    intros Hw. pose proof (well_formed_write_file w1 d env os1 Wf1) as Wf2.
    rewrite Hw in Wf2.
    assert (Hb1 : len "" + len d < 2 ^ 63).
    { pose proof (len_nonneg c). change (len "") with 0. lia. }
    destruct (write_file_in_step _ _ _ _ "" _ _ _ Ht1 Hb1 Hw)
      as (-> & Ht2 & Hr & Hp2 & Hm2 & Hc2 & _).
    rewrite string_app_nil_l in *. rewrite Hp in *.
    simpl in Wf2. split_and!; try done; congruence.
  - intros Hw. pose proof (well_formed_write_file w d env os Wf) as Wf2.
    rewrite Hw in Wf2.
    destruct (write_file_in_step _ _ _ _ _ _ _ _ Ht Hb Hw)
      as (-> & Ht2 & Hr & Hp2 & Hm2 & Hc2 & _).
    simpl in Wf2. split_and!; done.
Qed.

Lemma needs_rotation_in_step w os c d :
  tracks w os c -> len c + len d < 2 ^ 63 ->
  needs_rotation w d = (len c + len d >? maxSize w).
Proof.
  intros (h & i & _ & _ & _ & _ & Hs) Hb. unfold needs_rotation.
  rewrite Hs. fold (len d). rewrite int64_wrap_id; [done|].
  pose proof (len_nonneg c). pose proof (len_nonneg d). lia.
Qed.

Lemma len_concat_cons d ds : len (concat_bytes (d :: ds)) = len d + len (concat_bytes ds).
Proof. simpl. apply len_app. Qed.

(** A run of calls of [Write] that all return no error keeps the writer
    in step with the disk, and the file holds what [log_contents] says. *)
Lemma write_all_tracks calls : forall w os c rs w' os',
  tracks w os c -> well_formed os ->
  len c + len (concat_bytes (map fst calls)) < 2 ^ 63 ->
  write_all w calls os = (rs, w', os') ->
  Forall (fun r : Z * error => r.2 = None) rs ->
  rs = map (fun x : string * Env => (len x.1, None)) calls /\
  tracks w' os' (log_contents (maxSize w) c (map fst calls)) /\
  path w' = path w /\ maxSize w' = maxSize w /\ well_formed os' /\
  (calls <> [] ->
   read_path os' (path w) = Some (log_contents (maxSize w) c (map fst calls))).
Proof.
  induction calls as [|[d env] calls IH]; intros w os c rs w' os' Ht Wf Hb.
  - simpl. intros [= <- <- <-] _. done.
  - simpl in Hb. rewrite len_app in Hb.
    pose proof (len_nonneg (concat_bytes (map fst calls))) as Hnn.
    simpl. destruct (FileWriter_Write w d env os) as [[[n e] w1] os1] eqn:E1.
    destruct (write_all w1 calls os1) as [[rs1 w2] os2] eqn:E2.
    intros [= <- <- <-] Hall. apply Forall_cons in Hall as [He Hall].
    simpl in He. subst e.
    assert (Hb0 : len c + len d < 2 ^ 63) by lia.
    destruct (FileWriter_Write_step _ _ _ _ _ _ _ _ Ht Wf Hb0 E1)
      as (-> & Ht1 & Hr1 & Hp1 & Hm1 & _ & Wf1).
    rewrite (needs_rotation_in_step w os c d Ht Hb0) in Ht1, Hr1.
    assert (Hb1 : len (if len c + len d >? maxSize w then d else c ++ d)
                  + len (concat_bytes (map fst calls)) < 2 ^ 63).
    { destruct (_ >? _); [|rewrite len_app]; pose proof (len_nonneg c); lia. }
    destruct (IH _ _ _ _ _ _ Ht1 Wf1 Hb1 E2 Hall)
      as (-> & Ht2 & Hp2 & Hm2 & Wf2 & Hr2).
    rewrite Hm1 in Ht2, Hr2. rewrite Hp1 in Hr2.
    split_and!; try done; try congruence.
    intros _. destruct calls as [|x calls]; [|by apply Hr2].
    simpl in E2. injection E2 as _ <-. exact Hr1.
Qed.

Lemma log_contents_fits max c ds :
  len c + len (concat_bytes ds) <= max ->
  log_contents max c ds = c ++ concat_bytes ds.
Proof.
  revert c. induction ds as [|d ds IH]; intros c Hb; simpl.
  - by rewrite string_app_nil_r.
  - rewrite len_concat_cons in Hb.
    pose proof (len_nonneg (concat_bytes ds)).
    destruct (len c + len d >? max) eqn:E;
      [rewrite Z.gtb_ltb in E; apply Z.ltb_lt in E; lia|].
    rewrite IH by (rewrite len_app; lia). by rewrite string_app_assoc.
Qed.

Lemma log_contents_bounded max c ds :
  len c <= max -> Forall (fun d => len d <= max) ds ->
  len (log_contents max c ds) <= max.
Proof.
  revert c. induction ds as [|d ds IH]; intros c Hc Hd; simpl; [done|].
  apply Forall_cons in Hd as [Hd Hds]. apply IH; [|done].
  destruct (len c + len d >? max) eqn:E; [done|].
  rewrite len_app. rewrite Z.gtb_ltb in E. apply Z.ltb_ge in E. lia.
Qed.

(** On a writer without a usable file every call of [Write] fails,
    writes nothing and leaves the disk as it is. *)
Lemma unusable_Write w d env os :
  unusable w os ->
  let r := FileWriter_Write w d env os in
  failed_write r.1.1 /\ r.1.2 = w /\
  inodes r.2 = inodes os /\ names r.2 = names os /\ files r.2 = files os.
Proof.
  unfold unusable, FileWriter_Write, rotate, write_file, File_Close, File_Write,
    failed_write.
  intros Hu. destruct (needs_rotation w d); simpl.
  - destruct (file w) as [a|]; simpl; [|by eauto].
    destruct (files os !! a) as [f|]; simpl; [|by eauto].
    rewrite Hu. simpl. by eauto.
  - destruct (file w) as [a|]; simpl; [|by eauto].
    destruct (files os !! a) as [f|]; simpl; [|by eauto].
    rewrite Hu. simpl. by eauto.
Qed.

Lemma unusable_files w os os' : files os' = files os -> unusable w os -> unusable w os'.
Proof. unfold unusable. by intros ->. Qed.

Lemma write_all_unusable calls : forall w os,
  unusable w os ->
  let r := write_all w calls os in
  Forall failed_write r.1.1 /\ r.1.2 = w /\
  inodes r.2 = inodes os /\ names r.2 = names os /\ files r.2 = files os.
Proof.
  induction calls as [|[d env] calls IH]; intros w os Hu; simpl; [done|].
  destruct (unusable_Write w d env os Hu) as (Hf & Hw & Hi & Hn & Hfs).
  destruct (FileWriter_Write w d env os) as [[r w1] os1]. simpl in *. subst w1.
  destruct (IH w os1 (unusable_files _ _ _ Hfs Hu)) as (Hf2 & Hw2 & Hi2 & Hn2 & Hfs2).
  destruct (write_all w calls os1) as [[rs w2] os2]. simpl in *.
  split_and!; [by constructor | done | congruence..].
Qed.

(** A rotation that fails leaves the writer without a usable file. *)
Lemma rotate_failure_unusable w env os e w1 os1 :
  rotate w env os = (Some e, w1, os1) ->
  unusable w1 os1 /\ inodes os1 = inodes os /\ w1 = w.
Proof.
  intros H. split; [|split].
  2:{ revert H. unfold rotate, File_Close, Rename, OpenFile.
      repeat case_match; intros; simplify_eq; done. }
  2:{ revert H. unfold rotate. repeat case_match; intros; simplify_eq; done. }
  revert H.
  unfold rotate, File_Close, unusable.
  destruct (file w) as [a|] eqn:Ef; simpl; [|intros [= _ <- _]; by rewrite Ef].
  destruct (files os !! a) as [f|] eqn:Ea; simpl;
    [|intros [= _ <- <-]; simpl; by rewrite Ef, Ea].
  destruct (f_closed f) eqn:Ec; simpl.
  { intros [= _ <- <-]. simpl. by rewrite Ef, Ea. }
  destruct (close_fault env); simpl.
  { intros [= _ <- <-]. simpl. by rewrite Ef, lookup_insert_eq. }
  unfold Rename. destruct (rename_fault env); simpl.
  { intros [= _ <- <-]. simpl. by rewrite Ef, lookup_insert_eq. }
  destruct (names os !! path w); simpl;
    [|intros [= _ <- <-]; simpl; by rewrite Ef, lookup_insert_eq].
  unfold OpenFile. destruct (open_fault env); simpl.
  { intros [= _ <- <-]. rewrite Ef. destruct (compress w); simpl;
      by rewrite lookup_insert_eq. }
  destruct (compress w); simpl;
    match goal with
    | |- context [match ?x with Some _ => _ | None => _ end] => destruct x
    end; done.
Qed.

End FileWriterLife.

Section FileWriterRuns.
Import OSys Output.

(** The system call behind a write is given all the data and fails in
    no way: [write_file] returns the length and no error. *)
Lemma write_file_succeeds w d env os c :
  tracks w os c -> writes_succeed env d ->
  exists w1 os1, write_file w d env os = ((len d, None), w1, os1).
Proof.
  intros (h & i & Hf & [off Hh] & _) [Hflt Hacc].
  unfold write_file, File_Write. rewrite Hf, Hh. simpl. rewrite Hflt.
  rewrite Nat.min_r by done. rewrite Nat.eqb_refl. eauto.
Qed.

Lemma write_file_no_rotate w d env os :
  exists evs, trace (write_file w d env os).2 = (trace os ++ evs)%list /\
              Forall (fun e => is_rotate e = false) evs.
Proof.
  destruct (write_file_trace w d env os) as [H|(h & n & H)].
  - exists []. by rewrite app_nil_r.
  - exists [EvWrite h d n]. split; [done|]. by repeat constructor.
Qed.

(** Writes that fit under the limit together: none rotates. *)
Lemma write_all_fits calls : forall w os c,
  tracks w os c -> maxSize w < 2 ^ 63 ->
  len c + len (concat_bytes (map fst calls)) <= maxSize w ->
  Forall (fun x : string * Env => writes_succeed x.2 x.1) calls ->
  exists w' os' evs,
    write_all w calls os =
      (map (fun x : string * Env => (len x.1, None)) calls, w', os') /\
    tracks w' os' (c ++ concat_bytes (map fst calls)) /\
    names os' = names os /\
    trace os' = (trace os ++ evs)%list /\
    Forall (fun e => is_rotate e = false) evs.
Proof.
  induction calls as [|[d env] calls IH]; intros w os c Ht Hm Hb Hs.
  - exists w, os, []. simpl. rewrite string_app_nil_r, app_nil_r. done.
  - simpl in Hb. rewrite len_app in Hb.
    pose proof (len_nonneg (concat_bytes (map fst calls))) as Hnn.
    pose proof (len_nonneg c) as Hc0. pose proof (len_nonneg d) as Hd0.
    apply Forall_cons in Hs as [Hsd Hs]. simpl in Hsd.
    assert (Hb0 : len c + len d < 2 ^ 63) by lia.
    simpl. unfold FileWriter_Write.
    rewrite (needs_rotation_in_step w os c d Ht Hb0).
    destruct (len c + len d >? maxSize w) eqn:E;
      [rewrite Z.gtb_ltb in E; apply Z.ltb_lt in E; lia|].
    destruct (write_file_succeeds w d env os c Ht Hsd) as (w1 & os1 & Hw).
    destruct (write_file_no_rotate w d env os) as (ev1 & Ht1 & Hq1).
    rewrite Hw in Ht1 |- *. simpl in Ht1.
    destruct (write_file_in_step _ _ _ _ _ _ _ _ Ht Hb0 Hw)
      as (_ & Htr & _ & _ & Hm1 & _ & Hn1 & _).
    destruct (IH w1 os1 (c ++ d) Htr) as (w' & os' & evs & Hwa & Ht' & Hn' & Htr' & Hq');
      [lia | rewrite len_app; lia | done |].
    rewrite Hwa. exists w', os', (ev1 ++ evs)%list.
    split; [done|]. rewrite <- string_app_assoc. split; [done|].
    split; [congruence|]. split; [|by apply Forall_app].
    rewrite Htr', Ht1. by rewrite <- app_assoc.
Qed.

End FileWriterRuns.

Import OSys Output Scenario.

(** X1.  A writer returned by [NewFileWriter] is in step with the disk: its
    file is open for appending on the file its path names, its size counter
    is the length of what that file held before the call (nothing, for a new
    file), its limit is the configured one, or 100 MiB when none is
    configured, and no other directory entry has changed.  On a well-formed
    disk every file that was there keeps its contents. *)
Theorem NewFileWriter_in_step (config : FileConfig) (env : InitEnv) (os : OS)
    (w : FileWriter) (os' : OS) :
  NewFileWriter config env os = ((Some w, None), os') ->
  exists p, FPath config = Some p /\ path w = p /\
    compress w = FCompress config /\
    maxSize w = (if FMaxSize config =? 0 then 104857600 else FMaxSize config) /\
    tracks w os' (default "" (read_path os p)) /\
    (forall q, q <> p -> names os' !! q = names os !! q) /\
    (well_formed os ->
     forall q c, read_path os q = Some c -> read_path os' q = Some c).
Proof.
  unfold NewFileWriter. destruct (FPath config) as [p|]; [|done].
  destruct (mkdir_fault env); [done|].
  unfold OpenFile. destruct (create_fault env); [done|].
  destruct (names os !! p) as [i|] eqn:En.
  - unfold File_Stat_Size. simpl. rewrite lookup_insert_eq. simpl.
    destruct (fstat_fault env); [done|]. intros [= <- <-].
    exists p. simpl. split_and!; try done.
    + exists (next_id os), i. simpl. split; [done|].
      split; [eexists; apply lookup_insert_eq|]. split; [done|].
      unfold read_path. rewrite En. simpl. done.
  - unfold File_Stat_Size. simpl. rewrite lookup_insert_eq. simpl.
    rewrite lookup_insert_eq. simpl.
    destruct (fstat_fault env); [done|]. intros [= <- <-].
    exists p. simpl. split_and!; try done.
    + exists (S (next_id os)), (next_id os). simpl. split; [done|].
      split; [eexists; apply lookup_insert_eq|].
      split; [apply lookup_insert_eq|]. rewrite lookup_insert_eq.
      unfold read_path. rewrite En. done.
    + intros q Hq. by apply lookup_insert_ne.
    + intros [_ Wn] q c. unfold read_path. simpl.
      destruct (decide (q = p)) as [->|Hq]; [by rewrite En|].
      rewrite lookup_insert_ne by done.
      destruct (names os !! q) as [k|] eqn:Eq; [|done]. simpl.
      specialize (Wn q k Eq). simpl in Wn.
      rewrite lookup_insert_ne by lia. done.
Qed.

Lemma NewFileWriter_in_step_witness :
  exists w, (NewFileWriter path_only init_ok small_disk).1 = (Some w, None) /\
            maxSize w = 104857600 /\ size w = 10.
Proof.
  destruct (NewFileWriter_in_step path_only init_ok small_disk
              (mkFileWriter (Some 8%nat) log_path 104857600 10 false)
              (NewFileWriter path_only init_ok small_disk).2)
    as (p & Hp & _ & _ & Hm & _); [vm_compute; reflexivity|].
  eexists. split; [vm_compute; reflexivity|]. split; [exact Hm | reflexivity].
Defined.

Local Ltac outcome :=
  unfold is_Some; repeat split; intros;
  repeat match goal with
         | H : _ /\ _ |- _ => destruct H
         | H : ex _ |- _ => destruct H
         end;
  try done; eauto.

(** X2.  [NewFileWriter] returns a writer or an error, never both and never
    neither; it fails exactly when the path is empty or one of its three
    system calls fails; and when it fails it leaves no file open that was
    not open before. *)
Theorem NewFileWriter_outcomes (config : FileConfig) (env : InitEnv) (os : OS) :
  let r := NewFileWriter config env os in
  (is_Some r.1.1 <-> r.1.2 = None) /\
  (r.1.2 = None <->
     is_Some (FPath config) /\ mkdir_fault env = None /\
     create_fault env = None /\ fstat_fault env = None) /\
  (is_Some r.1.2 ->
     forall h f, files r.2 !! h = Some f -> f_closed f = false ->
                 files os !! h = Some f).
Proof.
  unfold NewFileWriter. destruct (FPath config) as [p|]; simpl.
  2:{ outcome. }
  destruct (mkdir_fault env) as [e|]; simpl.
  { outcome. }
  unfold OpenFile. destruct (create_fault env) as [e|]; simpl.
  { outcome. }
  destruct (names os !! p) as [i|]; simpl;
    unfold File_Stat_Size; simpl; rewrite lookup_insert_eq; simpl;
    (destruct (fstat_fault env) as [e|]; simpl; [|outcome]).
  - split; [|split]; [outcome..|]. intros _ h f Hh Hc.
    apply lookup_insert_Some in Hh as [[_ <-]|[Hne Hh]]; [done|].
    by rewrite lookup_insert_ne in Hh.
  - split; [|split]; [outcome..|]. intros _ h f Hh Hc.
    apply lookup_insert_Some in Hh as [[_ <-]|[Hne Hh]]; [done|].
    by rewrite lookup_insert_ne in Hh.
Qed.

(** X3.  A run of calls of [Write] that all return no error, on a writer
    in step with a well-formed disk: every call returns the length of its
    data, the writer stays in step, and the log file holds what
    [log_contents] computes from the limit, the old contents and the data
    (each write appended, or alone in a fresh file when it would have taken
    the file over the limit). *)
Theorem write_all_log_contents (w : FileWriter) (os : OS) (c : string)
    (calls : list (string * Env)) (rs : list (Z * error)) (w' : FileWriter) (os' : OS) :
  tracks w os c -> well_formed os ->
  len c + len (concat_bytes (map fst calls)) < 2 ^ 63 ->
  write_all w calls os = (rs, w', os') ->
  Forall (fun r : Z * error => r.2 = None) rs ->
  rs = map (fun x : string * Env => (len x.1, None)) calls /\
  tracks w' os' (log_contents (maxSize w) c (map fst calls)) /\
  (calls <> [] ->
   read_path os' (path w) = Some (log_contents (maxSize w) c (map fst calls))).
Proof.
  intros Ht Wf Hb Hw Hall.
  destruct (write_all_tracks calls w os c rs w' os' Ht Wf Hb Hw Hall)
    as (Hrs & Ht' & _ & _ & _ & Hr).
  done.
Qed.

Lemma small_writer_in_step : tracks small_writer small_disk "0123456789".
Proof.
  exists 7%nat, 5%nat. split; [reflexivity|]. split; [exists 0%nat; reflexivity|].
  split; [reflexivity|]. split; reflexivity.
Qed.

Lemma small_disk_well_formed : well_formed small_disk.
Proof. apply (bool_decide_unpack _). vm_compute. exact I. Qed.

Lemma write_all_log_contents_witness :
  (write_all small_writer two_writes small_disk).1.1 = [(2, None); (6, None)] /\
  read_path (write_all small_writer two_writes small_disk).2 log_path = Some "cdefgh".
Proof.
  destruct (write_all_log_contents small_writer small_disk "0123456789" two_writes
              (write_all small_writer two_writes small_disk).1.1
              (write_all small_writer two_writes small_disk).1.2
              (write_all small_writer two_writes small_disk).2)
    as (H1 & _ & H3).
  - exact small_writer_in_step.
  - exact small_disk_well_formed.
  - vm_compute. reflexivity.
  - vm_compute. reflexivity.
  - vm_compute. repeat constructor.
  - split; [exact H1 | apply H3; discriminate].
Defined.

(** X4.  The log file stays within the limit: on a writer in step with the
    disk whose file is within the limit, after any run of calls of [Write]
    that return no error and whose data are each within the limit, the file
    and the size counter are within the limit. *)
Theorem log_file_stays_within_limit (w : FileWriter) (os : OS) (c : string)
    (calls : list (string * Env)) (rs : list (Z * error)) (w' : FileWriter) (os' : OS) :
  tracks w os c -> well_formed os ->
  len c + len (concat_bytes (map fst calls)) < 2 ^ 63 ->
  len c <= maxSize w ->
  Forall (fun x : string * Env => len x.1 <= maxSize w) calls ->
  write_all w calls os = (rs, w', os') ->
  Forall (fun r : Z * error => r.2 = None) rs ->
  exists c', tracks w' os' c' /\ len c' <= maxSize w' /\ size w' <= maxSize w'.
Proof.
  intros Ht Wf Hb Hc Hd Hw Hall.
  destruct (write_all_tracks calls w os c rs w' os' Ht Wf Hb Hw Hall)
    as (_ & Ht' & _ & Hm & _).
  exists (log_contents (maxSize w) c (map fst calls)). split; [done|].
  assert (Hlen : len (log_contents (maxSize w) c (map fst calls)) <= maxSize w).
  { apply log_contents_bounded; [done|]. by apply Forall_map. }
  rewrite Hm. split; [done|].
  destruct Ht' as (h & i & _ & _ & _ & _ & Hs). by rewrite Hs.
Qed.

Lemma log_file_stays_within_limit_witness :
  size (write_all small_writer two_writes small_disk).1.2 <= 12.
Proof.
  destruct (log_file_stays_within_limit small_writer small_disk "0123456789" two_writes
              (write_all small_writer two_writes small_disk).1.1
              (write_all small_writer two_writes small_disk).1.2
              (write_all small_writer two_writes small_disk).2)
    as (c' & _ & _ & H).
  - exact small_writer_in_step.
  - exact small_disk_well_formed.
  - vm_compute. reflexivity.
  - vm_compute. discriminate.
  - vm_compute. repeat constructor; discriminate.
  - vm_compute. reflexivity.
  - vm_compute. repeat constructor.
  - exact H.
Defined.

(** X5.  Writes that together fit under the limit: when the system call
    behind each write takes all the data, every call of [Write] returns the
    length of its data and no error, no call rotates, the directory is as
    it was, and the file holds its old contents followed by the data of the
    writes in order. *)
Theorem writes_that_fit_append (w : FileWriter) (os : OS) (c : string)
    (calls : list (string * Env)) :
  tracks w os c -> maxSize w < 2 ^ 63 ->
  len c + len (concat_bytes (map fst calls)) <= maxSize w ->
  Forall (fun x : string * Env => writes_succeed x.2 x.1) calls ->
  let r := write_all w calls os in
  r.1.1 = map (fun x : string * Env => (len x.1, None)) calls /\
  tracks r.1.2 r.2 (c ++ concat_bytes (map fst calls)) /\
  names r.2 = names os /\
  rotations (new_events os r.2) = 0%nat.
Proof.
  intros Ht Hm Hb Hs.
  destruct (write_all_fits calls w os c Ht Hm Hb Hs)
    as (w' & os' & evs & Hw & Ht' & Hn & Htr & Hq).
  simpl. rewrite Hw. simpl. split; [done|]. split; [done|]. split; [done|].
  rewrite (new_events_app _ _ _ Htr). unfold rotations.
  clear -Hq. induction Hq as [|e evs He _ IH]; [done|].
  rewrite filter_cons_False; [done | by rewrite He].
Qed.

Lemma writes_that_fit_append_witness :
  read_path (write_all small_writer [("ab", no_faults)] small_disk).2 log_path
    = Some "0123456789ab" /\
  rotations (new_events small_disk
               (write_all small_writer [("ab", no_faults)] small_disk).2) = 0%nat.
Proof.
  destruct (writes_that_fit_append small_writer small_disk "0123456789"
              [("ab", no_faults)]) as (_ & _ & _ & H).
  - exact small_writer_in_step.
  - vm_compute. reflexivity.
  - vm_compute. discriminate.
  - constructor; [|constructor].
    split; [reflexivity | vm_compute; lia].
  - split; [vm_compute; reflexivity | exact H].
Defined.

(** X6.  A call of [Write] that rotates and returns no error loses
    nothing: the backup holds exactly what the log file held before the
    call, the log file holds exactly the data of the call, and every other
    directory entry is as it was. *)
Theorem rotating_Write_keeps_old_log (w : FileWriter) (d : string) (env : Env)
    (os : OS) (c : string) (n : Z) (w' : FileWriter) (os' : OS) :
  tracks w os c -> read_path os (path w) = Some c -> well_formed os ->
  len c + len d < 2 ^ 63 -> len c + len d > maxSize w ->
  FileWriter_Write w d env os = ((n, None), w', os') ->
  read_path os' (backupPath w (now env)) = Some c /\
  read_path os' (path w) = Some d /\
  (forall q, q <> path w -> q <> backupPath w (now env) ->
             names os' !! q = names os !! q).
Proof.
  intros Ht Hr Wf Hb Hgt. unfold FileWriter_Write.
  rewrite (needs_rotation_in_step w os c d Ht Hb).
  destruct (len c + len d >? maxSize w) eqn:E;
    [|rewrite Z.gtb_ltb in E; apply Z.ltb_ge in E; lia].
  destruct (rotate w env os) as [[[e|] w1] os1] eqn:Er; [done|].
  destruct (rotate_in_step _ _ _ _ _ _ Ht Wf Er)
    as (Ht1 & Hp & _ & _ & Wf1 & Hold & Hothers & Hino & Hnext & (j & Hj & Hjn)).
  intros Hw.
  assert (Hb1 : len "" + len d < 2 ^ 63).
  { pose proof (len_nonneg c). change (len "") with 0. lia. }
  destruct (write_file_in_step _ _ _ _ "" _ _ _ Ht1 Hb1 Hw)
    as (_ & _ & Hr2 & _ & _ & _ & Hn2 & _ & Hi2).
  rewrite string_app_nil_l in Hr2. rewrite Hp in *.
  unfold read_path in Hr.
  destruct (names os !! path w) as [i|] eqn:Ei; [|done]. simpl in Hr.
  destruct (Hold i eq_refl) as (Hb2 & Hi1 & _).
  split; [|split; [done|]].
  - unfold read_path. rewrite Hn2, Hb2. simpl.
    rewrite Hi2; [congruence|]. rewrite Hj. intros [= ->].
    destruct Wf as [_ Wn]. specialize (Wn _ _ Ei). simpl in Wn. lia.
  - intros q Hq1 Hq2. rewrite Hn2. by apply Hothers.
Qed.

Lemma rotating_Write_keeps_old_log_witness :
  read_path (FileWriter_Write small_writer "abc" no_faults small_disk).2 backup_path
    = Some "0123456789" /\
  read_path (FileWriter_Write small_writer "abc" no_faults small_disk).2 log_path
    = Some "abc".
Proof.
  destruct (rotating_Write_keeps_old_log small_writer "abc" no_faults small_disk
              "0123456789" 3
              (FileWriter_Write small_writer "abc" no_faults small_disk).1.2
              (FileWriter_Write small_writer "abc" no_faults small_disk).2)
    as (H1 & H2 & _).
  - exact small_writer_in_step.
  - vm_compute. reflexivity.
  - exact small_disk_well_formed.
  - vm_compute. reflexivity.
  - vm_compute. reflexivity.
  - vm_compute. reflexivity.
  - split; [exact H1 | exact H2].
Defined.

(** X7.  A rotation that fails is final.  When the rotation a call of
    [Write] starts fails, at whatever step, that call and every later call
    of [Write] on the writer write nothing and return an error, whatever
    their data and however the system calls would go; no file changes its
    contents, and the writer itself is unchanged. *)
Theorem failed_rotation_is_final (w : FileWriter) (d : string) (env : Env) (os : OS)
    (e : string) (calls : list (string * Env)) :
  needs_rotation w d = true -> (rotate w env os).1.1 = Some e ->
  let r := write_all w ((d, env) :: calls) os in
  Forall failed_write r.1.1 /\ inodes r.2 = inodes os /\ r.1.2 = w.
Proof.
  intros Hn Hrot. simpl. unfold FileWriter_Write. rewrite Hn.
  destruct (rotate w env os) as [[[e'|] w1] os1] eqn:Er; [|done].
  destruct (rotate_failure_unusable _ _ _ _ _ _ Er) as (Hu & Hi & ->).
  destruct (write_all_unusable calls w os1 Hu) as (Hf & Hw & Hi2 & _).
  destruct (write_all w calls os1) as [[rs w2] os2]. simpl in *.
  split; [|split; [congruence | done]].
  constructor; [|done]. split; [done | by eexists].
Qed.

Lemma failed_rotation_is_final_witness :
  (write_all small_writer [("abc", rename_fails); ("x", no_faults); ("y", no_faults)]
     small_disk).1.1
  = [(0, Some "rotating log file: renaming log file: permission denied");
     (0, Some "failed writing to log file: file already closed");
     (0, Some "failed writing to log file: file already closed")] /\
  inodes (write_all small_writer
            [("abc", rename_fails); ("x", no_faults); ("y", no_faults)] small_disk).2
  = inodes small_disk.
Proof.
  destruct (failed_rotation_is_final small_writer "abc" rename_fails small_disk
              "renaming log file: permission denied"
              [("x", no_faults); ("y", no_faults)]) as (_ & H & _).
  - vm_compute. reflexivity.
  - vm_compute. reflexivity.
  - split; [vm_compute; reflexivity | exact H].
Defined.

(** X8.  After a [Close] that returned no error, every call of [Write] on
    the writer writes nothing and returns an error, and the disk keeps its
    contents, while [Sync] returns no error and does nothing. *)
Theorem Write_after_Close_fails (w : FileWriter) (env : Env) (os : OS)
    (w1 : FileWriter) (os1 : OS) (calls : list (string * Env)) (env' : Env) :
  FileWriter_Close w env os = (None, w1, os1) ->
  let r := write_all w1 calls os1 in
  Forall failed_write r.1.1 /\
  inodes r.2 = inodes os1 /\ names r.2 = names os1 /\
  FileWriter_Sync r.1.2 env' r.2 = (None, r.2).
Proof.
  intros Hc.
  assert (Hnone : file w1 = None).
  { revert Hc. unfold FileWriter_Close. destruct (file w) eqn:Ef.
    - destruct (File_Sync _ _ _) as [[?|] os2]; [done|].
      destruct (File_Close _ _ _) as [[?|] os3]; [done|]. by intros [= <- _].
    - by intros [= <- _]. }
  assert (Hu : unusable w1 os1) by (unfold unusable; by rewrite Hnone).
  destruct (write_all_unusable calls w1 os1 Hu) as (Hf & Hw & Hi & Hn & _).
  simpl. split; [done|]. split; [done|]. split; [done|].
  rewrite Hw. unfold FileWriter_Sync. by rewrite Hnone.
Qed.

Lemma Write_after_Close_fails_witness :
  Forall failed_write
    (write_all (FileWriter_Close small_writer no_faults small_disk).1.2
       [("late", no_faults)]
       (FileWriter_Close small_writer no_faults small_disk).2).1.1 /\
  (write_all (FileWriter_Close small_writer no_faults small_disk).1.2
     [("late", no_faults)] (FileWriter_Close small_writer no_faults small_disk).2).1.1
  = [(0, Some "rotating log file: closing current log file: invalid argument")].
Proof.
  destruct (Write_after_Close_fails small_writer no_faults small_disk
              (FileWriter_Close small_writer no_faults small_disk).1.2
              (FileWriter_Close small_writer no_faults small_disk).2
              [("late", no_faults)] no_faults) as (H & _).
  - vm_compute. reflexivity.
  - split; [exact H | vm_compute; reflexivity].
Defined.

(** X9.  Two rotations under the same time stamp share the name of their
    backup, and the second takes it over: after two calls of [Write] that
    both rotate and return no error, with the clock showing the same second,
    the backup holds the data of the first call, the log file the data of
    the second, and the file the log held at the start, named by the log
    path alone then, is named by no directory entry any more. *)
Theorem same_stamp_rotation_drops_backup (w : FileWriter) (os : OS) (c : string)
    (i : nat) (d1 d2 : string) (env1 env2 : Env) (n1 n2 : Z)
    (w1 w2 : FileWriter) (os1 os2 : OS) :
  tracks w os c -> names os !! path w = Some i -> well_formed os ->
  (forall q, names os !! q = Some i -> q = path w) ->
  len c + len d1 < 2 ^ 63 -> len d1 + len d2 < 2 ^ 63 ->
  needs_rotation w d1 = true -> needs_rotation w1 d2 = true ->
  now env2 = now env1 ->
  FileWriter_Write w d1 env1 os = ((n1, None), w1, os1) ->
  FileWriter_Write w1 d2 env2 os1 = ((n2, None), w2, os2) ->
  read_path os2 (backupPath w (now env1)) = Some d1 /\
  read_path os2 (path w) = Some d2 /\
  unnamed os2 i.
Proof.
  intros Ht Hi Wf Hu Hb1 Hb2 Hn1 Hn2 Hnow Hw1 Hw2.
  (* the first call *)
  revert Hw1. unfold FileWriter_Write at 1. rewrite Hn1.
  destruct (rotate w env1 os) as [[[e|] wa] osa] eqn:Era; [done|].
  destruct (rotate_in_step _ _ _ _ _ _ Ht Wf Era)
    as (Hta & Hpa & _ & _ & Wfa & Holda & Hothersa & _ & Hnexta & (j & Hj & Hjn)).
  intros Hwa.
  assert (Hba : len "" + len d1 < 2 ^ 63).
  { pose proof (len_nonneg c). change (len "") with 0. lia. }
  destruct (write_file_in_step _ _ _ _ "" _ _ _ Hta Hba Hwa)
    as (_ & Ht1 & Hr1 & Hp1 & _ & _ & Hnm1 & Hnx1 & _).
  rewrite string_app_nil_l in Ht1, Hr1.
  pose proof (well_formed_write_file wa d1 env1 osa Wfa) as Wf1.
  rewrite Hwa in Wf1. simpl in Wf1.
  (* the second call *)
  revert Hw2. unfold FileWriter_Write. rewrite Hn2.
  destruct (rotate w1 env2 os1) as [[[e|] wb] osb] eqn:Erb; [done|].
  destruct (rotate_in_step _ _ _ _ _ _ Ht1 Wf1 Erb)
    as (Htb & Hpb & _ & _ & Wfb & Holdb & Hothersb & _ & Hnextb & (k & Hk & Hkn)).
  intros Hwb.
  assert (Hbb : len "" + len d2 < 2 ^ 63).
  { pose proof (len_nonneg d1). change (len "") with 0. lia. }
  destruct (write_file_in_step _ _ _ _ "" _ _ _ Htb Hbb Hwb)
    as (_ & _ & Hr2 & _ & _ & _ & Hnm2 & _ & Hi2).
  rewrite string_app_nil_l in Hr2.
  assert (Hpath : path w1 = path w) by congruence.
  assert (Hbk : backupPath w1 (now env2) = backupPath w (now env1)).
  { unfold backupPath. by rewrite Hpath, Hnow. }
  rewrite Hpb, Hpath in Hr2. rewrite Hpath in Hk, Hothersb, Holdb.
  rewrite Hbk in Holdb, Hothersb.
  assert (Hj1 : names os1 !! path w = Some j) by (rewrite Hnm1; congruence).
  destruct (Holdb j Hj1) as (Hbj & Hij & _).
  assert (Hlt : (i < next_id os)%nat).
  { destruct Wf as [_ Wn]. apply (Wn _ _ Hi). }
  assert (Hjlt : (j < next_id os1)%nat).
  { destruct Wf1 as [_ Wn]. apply (Wn _ _ Hj1). }
  rewrite Hpb, Hpath in Hi2.
  split; [|split; [done|]].
  - unfold read_path. rewrite Hnm2, Hbj. simpl.
    rewrite Hi2 by (rewrite Hk; intros [= ->]; lia).
    rewrite Hij. unfold read_path in Hr1. rewrite Hpa in Hr1.
    rewrite Hnm1, Hj in Hr1. exact Hr1.
  - intros q Hq. rewrite Hnm2 in Hq.
    destruct (decide (q = path w)) as [->|Hqp].
    { rewrite Hk in Hq. injection Hq as ->. lia. }
    destruct (decide (q = backupPath w (now env1))) as [->|Hqb].
    { rewrite Hbj in Hq. injection Hq as ->. lia. }
    rewrite (Hothersb q Hqp Hqb), Hnm1, (Hothersa q Hqp Hqb) in Hq.
    by apply Hqp, Hu.
Qed.

Lemma same_stamp_rotation_drops_backup_witness :
  read_path (write_all small_writer [("0123456789", no_faults); ("abc", no_faults)]
               small_disk).2 backup_path = Some "0123456789" /\
  unnamed (write_all small_writer [("0123456789", no_faults); ("abc", no_faults)]
             small_disk).2 5.
Proof.
  destruct (same_stamp_rotation_drops_backup small_writer small_disk "0123456789" 5
              "0123456789" "abc" no_faults no_faults 10 3
              (FileWriter_Write small_writer "0123456789" no_faults small_disk).1.2
              (write_all small_writer [("0123456789", no_faults); ("abc", no_faults)]
                 small_disk).1.2
              (FileWriter_Write small_writer "0123456789" no_faults small_disk).2
              (write_all small_writer [("0123456789", no_faults); ("abc", no_faults)]
                 small_disk).2)
    as (H1 & _ & H3).
  - exact small_writer_in_step.
  - vm_compute. reflexivity.
  - exact small_disk_well_formed.
  - intros q Hq. destruct (decide (q = log_path)) as [->|Hne]; [done|].
    unfold small_disk in Hq. simpl in Hq.
    rewrite lookup_insert_ne in Hq by done. done.
  - vm_compute. reflexivity.
  - vm_compute. reflexivity.
  - vm_compute. reflexivity.
  - vm_compute. reflexivity.
  - vm_compute. reflexivity.
  - vm_compute. reflexivity.
  - vm_compute. reflexivity.
  - split; [exact H1 | exact H3].
Defined.

(** ** The multi writer: [Sync], [Close], construction and removal *)

Section MultiWriterFanout.
Import Output.

Variable I : Iface.

Lemma registered_cons_Some w ws : registered (Some w :: ws) = w :: registered ws.
Proof. reflexivity. Qed.

Lemma registered_cons_None ws : registered (None :: ws) = registered ws.
Proof. reflexivity. Qed.

Lemma all_nil_cons on mk calls w ws :
  all_nil on mk calls (w :: ws) <->
  on calls w = None /\ all_nil on mk (calls ++ [mk w])%list ws.
Proof.
  split.
  - intros H. split.
    + specialize (H 0%nat w eq_refl). simpl in H. by rewrite app_nil_r in H.
    + intros k x Hk. specialize (H (S k) x Hk). simpl in H.
      by rewrite <- app_assoc.
  - intros [H0 H] [|k] x Hk; simpl in *.
    + injection Hk as <-. by rewrite app_nil_r.
    + specialize (H k x Hk). by rewrite <- app_assoc in H.
Qed.

Lemma sync_loop_spec ws : forall errs sc calls,
  let r := sync_loop I ws errs sc calls in
  r.2 = (calls ++ map CSync (registered ws))%list /\
  (exists more, r.1.1 = (errs ++ more)%list /\
     (more = [] <-> all_nil (onSync I) CSync calls (registered ws)) /\
     r.1.2 = sc + Z.of_nat (length (registered ws)) - Z.of_nat (length more)).
Proof.
  induction ws as [|[w|] ws IH]; intros errs sc calls; cbv zeta.
  - simpl. rewrite app_nil_r. split; [done|]. exists []. rewrite app_nil_r.
    split; [done|]. split; [|simpl; lia]. split; [|done]. intros _ k w Hk. done.
  - rewrite registered_cons_Some. simpl sync_loop.
    destruct (onSync I calls w) as [e|] eqn:E.
    + destruct (IH (errs ++ [(typeName I w ++ ": " ++ e)%string])%list sc
                  (calls ++ [CSync w])%list) as (Hc & more & Hm & Hiff & Hsc).
      split; [rewrite Hc; simpl; by rewrite <- app_assoc|].
      exists ((typeName I w ++ ": " ++ e)%string :: more).
      split; [rewrite Hm; by rewrite <- app_assoc|].
      split; [|rewrite Hsc; simpl length; lia].
      split; [done|]. intros Hall. apply all_nil_cons in Hall as [H0 _]. congruence.
    + destruct (IH errs (sc + 1) (calls ++ [CSync w])%list)
        as (Hc & more & Hm & Hiff & Hsc).
      split; [rewrite Hc; simpl; by rewrite <- app_assoc|].
      exists more. split; [done|].
      split; [|rewrite Hsc; simpl length; lia].
      rewrite Hiff. rewrite all_nil_cons. tauto.
  - rewrite registered_cons_None. simpl sync_loop. apply IH.
Qed.

Lemma close_loop_spec ws : forall errs sc calls,
  let r := close_loop I ws errs sc calls in
  r.2 = (calls ++ map CClose (registered ws))%list /\
  (exists more, r.1.1 = (errs ++ more)%list /\
     (more = [] <-> all_nil (onClose I) CClose calls (registered ws)) /\
     r.1.2 = sc + Z.of_nat (length (registered ws)) - Z.of_nat (length more)).
Proof.
  induction ws as [|[w|] ws IH]; intros errs sc calls; cbv zeta.
  - simpl. rewrite app_nil_r. split; [done|]. exists []. rewrite app_nil_r.
    split; [done|]. split; [|simpl; lia]. split; [|done]. intros _ k w Hk. done.
  - rewrite registered_cons_Some. simpl close_loop.
    destruct (onClose I calls w) as [e|] eqn:E.
    + destruct (IH (errs ++ [(typeName I w ++ ": " ++ e)%string])%list sc
                  (calls ++ [CClose w])%list) as (Hc & more & Hm & Hiff & Hsc).
      split; [rewrite Hc; simpl; by rewrite <- app_assoc|].
      exists ((typeName I w ++ ": " ++ e)%string :: more).
      split; [rewrite Hm; by rewrite <- app_assoc|].
      split; [|rewrite Hsc; simpl length; lia].
      split; [done|]. intros Hall. apply all_nil_cons in Hall as [H0 _]. congruence.
    + destruct (IH errs (sc + 1) (calls ++ [CClose w])%list)
        as (Hc & more & Hm & Hiff & Hsc).
      split; [rewrite Hc; simpl; by rewrite <- app_assoc|].
      exists more. split; [done|].
      split; [|rewrite Hsc; simpl length; lia].
      rewrite Hiff. rewrite all_nil_cons. tauto.
  - rewrite registered_cons_None. simpl close_loop. apply IH.
Qed.

End MultiWriterFanout.

Section MultiWriterSlice.
Import Output.

Variable I : Iface.

(** The name [NewMultiWriter] gives the writer at position [i]. *)
Lemma collect_valid_spec writers : forall i valid names,
  let r := collect_valid I i writers valid names in
  r.1 = (valid ++ map Some (registered writers))%list /\
  (forall w j, writers !! j = Some (Some w) ->
     (forall j', (j < j')%nat -> writers !! j' <> Some (Some w)) ->
     r.2 !! w = Some (typeName I w ++ "[" ++ fmt_d (Z.of_nat (i + j)) ++ "]")) /\
  (forall w, Some w ∉ writers -> r.2 !! w = names !! w).
Proof.
  induction writers as [|[w0|] rest IH]; intros i valid names; cbv zeta.
  - simpl. rewrite app_nil_r. split; [done|]. split; [|done]. intros w j Hj. done.
  - change (registered (Some w0 :: rest)) with (w0 :: registered rest).
    simpl collect_valid.
    destruct (IH (S i) (valid ++ [Some w0])%list
                (<[w0 := typeName I w0 ++ "[" ++ fmt_d (Z.of_nat i) ++ "]"]> names))
      as (H1 & H2 & H3).
    split; [rewrite H1; simpl; by rewrite <- app_assoc|]. split.
    + intros w [|j] Hj Hlast; simpl in Hj.
      * injection Hj as <-. rewrite H3.
        -- rewrite lookup_insert_eq. by rewrite Nat.add_0_r.
        -- intros Hin. apply list_elem_of_lookup in Hin as [j' Hj'].
           by apply (Hlast (S j')); [lia|].
      * rewrite (H2 w j Hj).
        -- by replace (S i + j)%nat with (i + S j)%nat by lia.
        -- intros j' Hlt. apply (Hlast (S j')). lia.
    + intros w Hw. apply not_elem_of_cons in Hw as [Hne Hw].
      rewrite (H3 w Hw). apply lookup_insert_ne. congruence.
  - change (registered (None :: rest)) with (registered rest).
    simpl collect_valid.
    destruct (IH (S i) valid names) as (H1 & H2 & H3).
    split; [done|]. split.
    + intros w [|j] Hj Hlast; simpl in Hj; [done|].
      rewrite (H2 w j Hj).
      * by replace (S i + j)%nat with (i + S j)%nat by lia.
      * intros j' Hlt. apply (Hlast (S j')). lia.
    + intros w Hw. apply not_elem_of_cons in Hw as [_ Hw]. by apply H3.
Qed.

Lemma index_of_first w pre post :
  Some w ∉ pre -> index_of w (pre ++ Some w :: post) = Some (length pre).
Proof.
  induction pre as [|x pre IH]; intros Hn; simpl.
  - by rewrite decide_True.
  - apply not_elem_of_cons in Hn as [Hne Hn].
    rewrite decide_False by done. by rewrite IH.
Qed.

Lemma index_of_absent w ws : Some w ∉ ws -> index_of w ws = None.
Proof.
  induction ws as [|x ws IH]; intros Hn; simpl; [done|].
  apply not_elem_of_cons in Hn as [Hne Hn].
  rewrite decide_False by done. by rewrite IH.
Qed.

Lemma index_of_split w ws i :
  index_of w ws = Some i ->
  exists pre post, ws = (pre ++ Some w :: post)%list /\ (Some w ∉ pre) /\ length pre = i.
Proof.
  revert i. induction ws as [|x ws IH]; intros i; simpl; [done|].
  destruct (decide (x = Some w)) as [->|Hne].
  - intros [= <-]. exists [], ws. split; [done|]. split; [apply not_elem_of_nil | done].
  - destruct (index_of w ws) as [k|]; [|done]. simpl. intros [= <-].
    destruct (IH k eq_refl) as (pre & post & -> & Hn & Hl).
    exists (x :: pre), post. split; [done|].
    split; [apply not_elem_of_cons; split; [congruence | done] | simpl; lia].
Qed.

(** The slice after the removal of the entry behind [pre]. *)
Lemma RemoveWriter_slice mw w pre post :
  Writers mw = (pre ++ Some w :: post)%list -> Some w ∉ pre ->
  Writers (RemoveWriter mw (Some w)) =
    match reverse post with
    | [] => pre
    | l :: rest => (pre ++ l :: reverse rest)%list
    end.
Proof.
  intros Hws Hn. unfold RemoveWriter. rewrite Hws, (index_of_first w pre post Hn).
  simpl. rewrite take_insert_ge by done.
  rewrite length_app. simpl.
  replace (length pre + S (length post) - 1)%nat with (length pre + length post)%nat by lia.
  destruct (reverse post) as [|l rest] eqn:Er.
  - assert (post = []) as ->.
    { apply (f_equal reverse) in Er. by rewrite reverse_involutive in Er. }
    simpl. rewrite Nat.add_0_r. rewrite take_insert_ge by done.
    by rewrite take_app_length.
  - assert (post = reverse rest ++ [l])%list as ->.
    { apply (f_equal reverse) in Er. rewrite reverse_involutive in Er.
      by rewrite reverse_cons in Er. }
    rewrite length_app. simpl.
    replace (pre ++ Some w :: reverse rest ++ [l])%list
      with ((pre ++ Some w :: reverse rest) ++ [l])%list by by rewrite <- app_assoc.
    rewrite lookup_app_r by (rewrite length_app; simpl; lia).
    replace (length pre + (length (reverse rest) + 1) - length (pre ++ Some w :: reverse rest))%nat
      with 0%nat by (rewrite length_app; simpl; lia).
    simpl. rewrite insert_app_l by (rewrite length_app; simpl; lia).
    rewrite take_app_length' by (rewrite length_insert, length_app; simpl; lia).
    replace (length pre) with (length pre + 0)%nat by lia.
    by rewrite insert_app_r.
Qed.

End MultiWriterSlice.

Import Output Scenario.

(** X10.  [MultiWriter.Sync] calls [Sync] on every registered writer once,
    in the order of the slice, whether or not earlier ones failed, and on
    nothing else; it returns nil exactly when every one of them returned
    nil, and its one error otherwise. *)
Theorem MultiWriter_Sync_reaches_all (I : Iface) (mw : MultiWriter) (calls : list Call) :
  let r := MultiWriter_Sync I mw calls in
  let ws := registered (Writers mw) in
  r.2 = (calls ++ map CSync ws)%list /\
  (r.1 = None <-> all_nil (onSync I) CSync calls ws) /\
  (r.1 = None \/ r.1 = Some "sync operation partially failed").
Proof.
  cbv zeta. unfold MultiWriter_Sync.
  destruct (sync_loop_spec I (Writers mw) [] 0 calls) as (Hc & more & Hm & Hiff & _).
  destruct (sync_loop I (Writers mw) [] 0 calls) as [[errs sc] calls1].
  simpl in Hc, Hm. subst errs.
  destruct more as [|m more]; simpl.
  - split; [done|]. split; [|by left]. split; [intros _; by apply Hiff | done].
  - split; [done|]. split; [|by right]. split; [done|].
    intros H. by apply Hiff in H.
Qed.

(** X11.  [MultiWriter.Close] calls [Close] on every registered writer
    once, in the order of the slice, whether or not earlier ones failed, and
    on nothing else; it returns nil exactly when every one of them returned
    nil; and whatever it returns, the multi writer has no writers left while
    the names stay. *)
Theorem MultiWriter_Close_reaches_all (I : Iface) (mw : MultiWriter) (calls : list Call) :
  let r := MultiWriter_Close I mw calls in
  let ws := registered (Writers mw) in
  r.2 = (calls ++ map CClose ws)%list /\
  (r.1.1 = None <-> all_nil (onClose I) CClose calls ws) /\
  (r.1.1 = None \/ r.1.1 = Some "close operation partially failed") /\
  Writers r.1.2 = [] /\ writerNames r.1.2 = writerNames mw.
Proof.
  cbv zeta. unfold MultiWriter_Close.
  destruct (close_loop_spec I (Writers mw) [] 0 calls) as (Hc & more & Hm & Hiff & _).
  destruct (close_loop I (Writers mw) [] 0 calls) as [[errs sc] calls1].
  simpl in Hc, Hm. subst errs.
  destruct more as [|m more]; simpl.
  - split; [done|]. split; [|split; [by left | done]].
    split; [intros _; by apply Hiff | done].
  - split; [done|]. split; [|split; [by right | done]]. split; [done|].
    intros H. by apply Hiff in H.
Qed.

(** X12.  A multi writer that has been closed takes every payload and
    drops it: [Write] returns the length of the payload and no error without
    calling any writer, and [Sync] returns nil without calling any. *)
Theorem closed_MultiWriter_drops_writes (I : Iface) (mw : MultiWriter)
    (calls : list Call) (e : error) (mw1 : MultiWriter) (calls1 : list Call) :
  MultiWriter_Close I mw calls = (e, mw1, calls1) ->
  forall payload cs,
    MultiWriter_Write I mw1 payload cs = ((Z.of_nat (String.length payload), None), cs) /\
    MultiWriter_Sync I mw1 cs = (None, cs).
Proof.
  unfold MultiWriter_Close.
  destruct (close_loop I (Writers mw) [] 0 calls) as [[errs sc] c1].
  intros H payload cs.
  assert (Hw : Writers mw1 = []) by (destruct errs; by injection H as _ <- _).
  unfold MultiWriter_Write, writeToWriters, performWrites, MultiWriter_Sync.
  rewrite Hw. done.
Qed.

Lemma closed_MultiWriter_drops_writes_witness :
  MultiWriter_Write two_writers
    (MultiWriter_Close two_writers grown_multi_writer []).1.2 "lost" []
  = ((4, None), []).
Proof.
  destruct (closed_MultiWriter_drops_writes two_writers grown_multi_writer []
              (MultiWriter_Close two_writers grown_multi_writer []).1.1
              (MultiWriter_Close two_writers grown_multi_writer []).1.2
              (MultiWriter_Close two_writers grown_multi_writer []).2
              eq_refl "lost" []) as [H _].
  exact H.
Defined.

(** X13.  [NewMultiWriter] succeeds exactly when some argument is not nil.
    The multi writer then holds the arguments that are not nil, in order,
    and names each of them by its type and the position of its last
    occurrence in the argument list, nil arguments counted; it names nothing
    else. *)
Theorem NewMultiWriter_order_and_names (I : Iface) (writers : list (option nat)) :
  let r := NewMultiWriter I writers in
  (is_Some r.1 <-> registered writers <> []) /\
  (is_Some r.1 <-> r.2 = None) /\
  (forall mw, r.1 = Some mw ->
     Writers mw = map Some (registered writers) /\
     (forall w j, writers !! j = Some (Some w) ->
        (forall j', (j < j')%nat -> writers !! j' <> Some (Some w)) ->
        writerNames mw !! w
          = Some (typeName I w ++ "[" ++ fmt_d (Z.of_nat j) ++ "]")) /\
     (forall w, Some w ∉ writers -> writerNames mw !! w = None)).
Proof.
  cbv zeta. unfold NewMultiWriter.
  destruct writers as [|x rest].
  { simpl. split; [|split; [|done]].
    - split; [by intros [? ?] | intros H; by destruct H].
    - split; [by intros [? ?] | done]. }
  destruct (collect_valid_spec I (x :: rest) 0 [] ∅) as (H1 & H2 & H3).
  destruct (collect_valid I 0 (x :: rest) [] ∅) as [valid names].
  cbn [fst snd app] in H1, H2, H3. subst valid.
  destruct (registered (x :: rest)) as [|w ws] eqn:Er; cbn [map fst snd].
  - split; [|split; [|done]].
    + split; [by intros [? ?] | intros H; by destruct H].
    + split; [by intros [? ?] | done].
  - split; [|split]; [split; [done | by eexists]..|].
    intros mw [= <-]. simpl. split; [done|]. split; [|done].
    intros w' j Hj Hlast. by apply H2.
Qed.

(** X14.  [RemoveWriter] takes out the first entry equal to the writer and
    puts the last entry of the slice in its place: the entries before it
    stay, the last entry moves up, the others keep their order.  The slice
    is a rearrangement of the old one less that entry, and the names stay,
    the removed writer's too. *)
Theorem RemoveWriter_moves_last_up (mw : MultiWriter) (w : nat)
    (pre post : list (option nat)) :
  Writers mw = (pre ++ Some w :: post)%list -> Some w ∉ pre ->
  let mw' := RemoveWriter mw (Some w) in
  (post = [] -> Writers mw' = pre) /\
  (forall mid l, post = (mid ++ [l])%list -> Writers mw' = (pre ++ l :: mid)%list) /\
  Some w :: Writers mw' ≡ₚ Writers mw /\
  writerNames mw' = writerNames mw.
Proof.
  intros Hws Hn mw'. pose proof (RemoveWriter_slice mw w pre post Hws Hn) as Hs.
  fold mw' in Hs.
  assert (Hnames : writerNames mw' = writerNames mw).
  { subst mw'. unfold RemoveWriter. by destruct (index_of w (Writers mw)). }
  split; [|split; [|split; [|done]]].
  - intros ->. exact Hs.
  - intros mid l ->. rewrite reverse_app in Hs. simpl in Hs.
    by rewrite reverse_involutive in Hs.
  - rewrite Hs, Hws. destruct (reverse post) as [|l rest] eqn:Er.
    + assert (post = []) as ->.
      { apply (f_equal reverse) in Er. by rewrite reverse_involutive in Er. }
      apply Permutation_cons_append.
    + assert (post = reverse rest ++ [l])%list as ->.
      { apply (f_equal reverse) in Er. rewrite reverse_involutive in Er.
        by rewrite reverse_cons in Er. }
      rewrite <- (Permutation_middle pre (reverse rest ++ [l])).
      f_equiv. f_equiv. apply Permutation_cons_append.
Qed.

Lemma RemoveWriter_moves_last_up_witness :
  Writers (RemoveWriter three_writers (Some 0%nat)) = [Some 2%nat; Some 1%nat].
Proof.
  destruct (RemoveWriter_moves_last_up three_writers 0 [] [Some 1%nat; Some 2%nat])
    as (_ & H & _).
  - reflexivity.
  - apply not_elem_of_nil.
  - exact (H [Some 1%nat] (Some 2%nat) eq_refl).
Defined.

(** X15.  Removal undoes addition: for every multi writer and writer,
    [AddWriter] followed by [RemoveWriter] of the same writer gives the multi
    writer back, also when the writer was registered before.  Removing nil,
    or a writer that is not registered, changes nothing. *)
Theorem AddWriter_RemoveWriter (mw : MultiWriter) (w : nat) :
  RemoveWriter (AddWriter mw (Some w)).2 (Some w) = mw /\
  RemoveWriter mw None = mw /\
  (Some w ∉ Writers mw -> RemoveWriter mw (Some w) = mw).
Proof.
  split; [|split; [done|]].
  - destruct mw as [ws names].
    assert (Hs : Writers (RemoveWriter (AddWriter (mkMultiWriter ws names) (Some w)).2 (Some w))
                 = ws).
    { destruct (decide (Some w ∈ ws)) as [Hin|Hn].
      - apply list_elem_of_split_l in Hin as (pre & post & -> & Hpre).
        rewrite (RemoveWriter_slice _ w pre (post ++ [Some w])%list).
        + rewrite reverse_app. simpl. by rewrite reverse_involutive.
        + simpl. by rewrite <- app_assoc.
        + done.
      - rewrite (RemoveWriter_slice _ w ws []); [done | done | done]. }
    revert Hs. unfold RemoveWriter. simpl.
    destruct (index_of w (ws ++ [Some w])); simpl; by intros ->.
  - intros Hn. unfold RemoveWriter. by rewrite (index_of_absent w _ Hn).
Qed.

(** ** The console writer's [Sync] and the copy loop *)

Section ConsoleSync.
Import OSys Output.

Lemma prefix_spec (a b : string) :
  String.prefix a b = true <-> exists r, b = a ++ r.
Proof.
  revert b. induction a as [|c a IH]; intros b.
  - split; [intros _; exists b; by rewrite string_app_nil_l | by destruct b].
  - destruct b as [|c' b]; simpl; [split; [done | by intros [r Hr]]|].
    destruct (Ascii.ascii_dec c c') as [->|Hne].
    + rewrite IH. split; intros [r Hr]; exists r.
      * rewrite string_app_cons. by f_equal.
      * rewrite string_app_cons in Hr. by injection Hr.
    + split; [done|]. intros [r Hr]. rewrite string_app_cons in Hr. congruence.
Qed.

Lemma strings_Contains_spec (s sub : string) :
  strings_Contains s sub = true <-> has_substring s sub.
Proof.
  induction s as [|c s IH]; cbn [strings_Contains].
  - destruct (String.prefix sub "") eqn:E.
    + split; [|done]. intros _. apply prefix_spec in E as [r Hr]. by exists "", r.
    + split; [done|]. intros (pre & post & H). exfalso.
      destruct pre; [|done]. rewrite string_app_nil_l in H.
      assert (String.prefix sub "" = true) by (apply prefix_spec; eauto). congruence.
  - destruct (String.prefix sub (String c s)) eqn:E.
    + split; [|done]. intros _. apply prefix_spec in E as [r Hr]. by exists "", r.
    + rewrite IH. split.
      * intros (pre & post & ->). exists (String c pre), post.
        by rewrite string_app_cons.
      * intros (pre & post & H). destruct pre as [|c' pre].
        -- exfalso. rewrite string_app_nil_l in H.
           assert (String.prefix sub (String c s) = true)
             by (apply prefix_spec; eauto). congruence.
        -- rewrite string_app_cons in H. injection H as _ ->. by exists pre, post.
Qed.

End ConsoleSync.

Section CopyLoop.
Import Output.

(** The chunks that are handed on: the ones that are not empty. *)
Lemma concat_bytes_app a b : concat_bytes (a ++ b) = concat_bytes a ++ concat_bytes b.
Proof.
  induction a as [|x a IH]; simpl; [by rewrite string_app_nil_l|].
  by rewrite IH, string_app_assoc.
Qed.

Lemma concat_bytes_nonempty l :
  concat_bytes (filter (fun c : string => c <> "") l) = concat_bytes l.
Proof.
  induction l as [|x l IH]; [done|].
  destruct (decide (x = "")) as [->|Hne].
  - rewrite filter_cons_False by (intros H; by apply H). simpl.
    by rewrite string_app_nil_l.
  - rewrite filter_cons_True by done. simpl. by rewrite IH.
Qed.

Lemma nonempty_length (c : string) : (0 <? String.length c)%nat = true <-> c <> "".
Proof.
  destruct c; simpl; [split; [done | intros H; by destruct H]|].
  split; [done|]. intros _. done.
Qed.

(** The loop while the reader gives bytes and no error, and the writer
    takes them. *)
Lemma copy_loop_more pre : forall rest dstWrite ws,
  Forall (fun r : string * ReadStatus => r.2 = ReadMore) pre ->
  (forall k c, (filter (fun c : string => c <> "") (map fst pre)) !! k = Some c ->
     dstWrite (ws ++ take k (filter (fun c : string => c <> "") (map fst pre)))%list c
       = None) ->
  copyWithBuffer_loop (pre ++ rest) dstWrite ws =
  copyWithBuffer_loop rest dstWrite
    (ws ++ filter (fun c : string => c <> "") (map fst pre))%list.
Proof.
  induction pre as [|[c st] pre IH]; intros rest dstWrite ws Hm Hd.
  - simpl. by rewrite app_nil_r.
  - apply Forall_cons in Hm as [Hst Hm]. simpl in Hst. subst st.
    simpl. destruct (decide (c = "")) as [->|Hne].
    + simpl. rewrite filter_cons_False by (intros H; by apply H).
      apply IH; [done|]. intros k x Hk. apply Hd.
      simpl. by rewrite filter_cons_False by (intros H; by apply H).
    + assert (Hlen : (0 <? String.length c)%nat = true) by by apply nonempty_length.
      rewrite Hlen. simpl in Hd.
      rewrite filter_cons_True in Hd by done.
      pose proof (Hd 0%nat c eq_refl) as H0. simpl in H0. rewrite app_nil_r in H0.
      rewrite H0. rewrite filter_cons_True by done.
      rewrite IH; [by rewrite <- app_assoc | done |].
      intros k x Hk. specialize (Hd (S k) x Hk). simpl in Hd.
      by rewrite <- app_assoc.
Qed.

End CopyLoop.

Section CompressedBytes.
Import OSys Output.

Lemma take_bytes_app_length (a b : string) : take_bytes (String.length a) (a ++ b) = a.
Proof.
  induction a as [|c a IH]; [done|].
  rewrite string_app_cons. simpl. by rewrite IH.
Qed.

Lemma drop_bytes_app_length (a b : string) n :
  drop_bytes (String.length a + n) (a ++ b) = drop_bytes n b.
Proof. induction a as [|c a IH]; [done|]. rewrite string_app_cons. simpl. apply IH. Qed.

Lemma drop_bytes_drop_bytes n m (s : string) :
  drop_bytes n (drop_bytes m s) = drop_bytes (m + n) s.
Proof.
  revert s. induction m as [|m IH]; intros s; simpl; [done|].
  destruct s as [|c s]; [by destruct n|]. apply IH.
Qed.

(** Two writes one after the other from the start of a file. *)
Lemma write_at_twice (old a b : string) :
  write_at (String.length a) (write_at 0 old a) b
  = a ++ b ++ drop_bytes (String.length (a ++ b)) old.
Proof.
  unfold write_at. change (take_bytes 0 old) with "".
  rewrite ?Nat.add_0_l, string_app_nil_l.
  rewrite take_bytes_app_length, drop_bytes_app_length.
  rewrite drop_bytes_drop_bytes, string_app_length. done.
Qed.

(** The encoder's bytes land at the offset of the file they go to. *)
Lemma gz_emit_at os c j off cl er out :
  files os !! c = Some (mkOsFile j false off false) ->
  let os' := gz_emit (mkGzip (Some c) cl er) out os in
  names os' = names os /\
  inodes os' = <[j := write_at off (default "" (inodes os !! j)) out]> (inodes os) /\
  files os' = <[c := mkOsFile j false (off + String.length out) false]> (files os).
Proof.
  intros Hc. unfold gz_emit, File_Write. simpl. rewrite Hc. simpl.
  rewrite Nat.min_id, take_bytes_all. done.
Qed.

Lemma verify_keeps p env os os' :
  verifyCompressedFile p env os = (None, os') ->
  names os' = names os /\ inodes os' = inodes os.
Proof.
  unfold verifyCompressedFile.
  destruct (Stat_Size p (stat_fault env) os) as [[sz|] [e|]]; try done.
  destruct (sz =? 0); [done|].
  pose proof (OpenFile_existing_inodes p false (verify_open_fault env) os) as Hi.
  assert (Hn : names (OpenFile p false false (verify_open_fault env) os).2 = names os).
  { unfold OpenFile. destruct (verify_open_fault env); [done|].
    by destruct (names os !! p). }
  destruct (OpenFile p false false (verify_open_fault env) os) as [[f [e|]] os1];
    [done|]. simpl in Hi, Hn.
  destruct (gzip_header_ok env _); [|done]. intros [= <-].
  rewrite File_Close_inodes. split; [|done].
  rewrite (st_names _ _ (File_Close_steady f None os1)). done.
Qed.

(** The steps from the copy on, when none fails: the compressed file
    holds the bytes of the copy, then those of the close of the gzip
    writer, then what an older file at that path held beyond them. *)
Lemma compress_steps_bytes p src c j env os os' :
  files os !! c = Some (mkOsFile j false 0 false) ->
  names os !! path_suffix p ".gz" = Some j ->
  compress_steps p (path_suffix p ".gz") src (Some c) (mkGzip (Some c) false None) env os
    = (None, os') ->
  read_path os' (path_suffix p ".gz")
    = Some (copy_emit env ++ gzclose_emit env ++
            drop_bytes (String.length (copy_emit env ++ gzclose_emit env))
              (default "" (inodes os !! j))).
Proof.
  intros Hc Hn. unfold compress_steps, copyWithBuffer.
  destruct (gz_emit_at os c j 0 false None (copy_emit env) Hc) as (N3 & I3 & F3).
  set (os3 := gz_emit _ (copy_emit env) os) in *.
  destruct (copy_fault env) as [[e|e]|]; [done..|].
  unfold gzip_Close. simpl gz_err. cbv iota. simpl gz_closed. cbv iota.
  assert (Hc3 : files os3 !! c
                = Some (mkOsFile j false (0 + String.length (copy_emit env)) false)).
  { rewrite F3. apply lookup_insert_eq. }
  destruct (gz_emit_at os3 c j _ false None (gzclose_emit env) Hc3) as (N4 & I4 & F4).
  set (os4 := gz_emit _ (gzclose_emit env) os3) in *.
  destruct (gzclose_fault env); [done|].
  pose proof (File_Sync_inodes (Some c) (gz_sync_fault env) os4) as I5.
  pose proof (st_names _ _ (File_Sync_steady (Some c) (gz_sync_fault env) os4)) as N5.
  destruct (File_Sync (Some c) (gz_sync_fault env) os4) as [[e|] os5]; [done|].
  pose proof (File_Close_inodes (Some c) (gz_close_fault env) os5) as I6.
  pose proof (st_names _ _ (File_Close_steady (Some c) (gz_close_fault env) os5)) as N6.
  destruct (File_Close (Some c) (gz_close_fault env) os5) as [[e|] os6]; [done|].
  destruct (verifyCompressedFile (path_suffix p ".gz") env os6) as [[e|] os7] eqn:Ev;
    [done|].
  apply verify_keeps in Ev as [N7 I7].
  destruct (Remove p (remove_fault env) os7) as [[e|] os8] eqn:Er; [done|].
  apply Remove_ok in Er as (_ & N8 & I8).
  intros [= <-]. simpl in *.
  unfold read_path.
  assert (Hnames : names (run_deferred (mkGzip (Some c) true None) (Some c) src env os8)
                   = names os8).
  { unfold run_deferred. cbv zeta.
    rewrite (st_names _ _ (File_Close_steady src None _)).
    rewrite (st_names _ _ (File_Close_steady (Some c) None _)). done. }
  rewrite Hnames, N8, lookup_delete_ne by (apply not_eq_sym, gz_path_fresh).
  rewrite N7, N6, N5, N4, N3, Hn. simpl.
  rewrite (run_deferred_closed env (mkGzip (Some c) true None) _ _ _ eq_refl).
  rewrite I8, I7, I6, I5, I4, lookup_insert_eq.
  rewrite I3, lookup_insert_eq. simpl. by rewrite write_at_twice.
Qed.

(** The compressed file after a run that returned no error: what the
    encoder gave, over what an older file at that path held. *)
Lemma performCompression_content (p : Path) (env : CompressEnv) (os : OS) :
  (performCompression p env os).1 = None ->
  let out := copy_emit env ++ gzclose_emit env in
  read_path (performCompression p env os).2 (path_suffix p ".gz")
    = Some (out ++ drop_bytes (String.length out)
                     (default "" (read_path os (path_suffix p ".gz")))).
Proof.
  intros Hok out.
  assert (Hold : forall j, names os !! path_suffix p ".gz" = Some j ->
            default "" (read_path os (path_suffix p ".gz"))
            = default "" (inodes os !! j)).
  { intros j Hj. unfold read_path. by rewrite Hj. }
  assert (Hnew : names os !! path_suffix p ".gz" = None ->
            default "" (read_path os (path_suffix p ".gz")) = "").
  { intros Hj. unfold read_path. by rewrite Hj. }
  set (old := default "" (read_path os (path_suffix p ".gz"))) in *.
  destruct (performCompression p env os) as [e os'] eqn:E.
  simpl in Hok. subst e. cbn [snd]. revert E. unfold performCompression.
  unfold OpenFile at 1. destruct (src_open_fault env); [done|].
  destruct (names os !! p) as [i|] eqn:Ep; [|done].
  match goal with |- context [OpenFile _ true false _ ?o] => set (os1 := o) end.
  assert (N1 : names os1 = names os) by done.
  assert (I1 : inodes os1 = inodes os) by done.
  unfold OpenFile. destruct (gz_open_fault env); [done|].
  change (gzip_NewWriterLevel BestCompression) with (@None string).
  rewrite N1.
  destruct (names os !! path_suffix p ".gz") as [j|] eqn:Eg; cbv iota beta.
  - match goal with |- context [compress_steps _ _ _ (Some ?c) _ _ ?o] =>
      set (os2 := o); set (cc := c) end.
    intros Ec.
    rewrite (compress_steps_bytes p _ cc j env os2 os' ltac:(subst os2; simpl; apply lookup_insert_eq) ltac:(done) Ec).
    rewrite (Hold j eq_refl). subst out. by rewrite string_app_assoc.
  - match goal with |- context [compress_steps _ _ _ (Some ?c) _ _ ?o] =>
      set (os2 := o); set (cc := c) end.
    intros Ec.
    rewrite (compress_steps_bytes p _ cc (next_id os1) env os2 os'
               ltac:(subst os2; simpl; apply lookup_insert_eq)
               ltac:(subst os2; simpl; apply lookup_insert_eq) Ec).
    rewrite (Hnew eq_refl). subst os2. simpl. rewrite lookup_insert_eq.
    subst out. by rewrite string_app_assoc.
Qed.

Lemma performCompression_fresh_content (p : Path) (env : CompressEnv) (os : OS) :
  (performCompression p env os).1 = None ->
  read_path os (path_suffix p ".gz") = None ->
  read_path (performCompression p env os).2 (path_suffix p ".gz")
    = Some (copy_emit env ++ gzclose_emit env).
Proof.
  intros Hok Hnone. rewrite (performCompression_content p env os Hok), Hnone. simpl.
  assert (Hd : forall n, drop_bytes n "" = "") by (by intros [|n]).
  by rewrite Hd, string_app_nil_r.
Qed.

End CompressedBytes.

Import OSys Output Scenario.

(** X16.  [ConsoleWriter.Sync] hands the call to the wrapped writer when
    that one has a [Sync] method, once, and makes no call otherwise.  It
    returns nil exactly when the wrapped [Sync] returned nil or an error
    whose text holds "inappropriate ioctl for device" somewhere; any other
    error comes back behind "syncing console output: ". *)
Theorem ConsoleWriter_Sync_swallows_ioctl (I : Iface) (w : ConsoleWriter)
    (env : Env) (os : OS) (calls : list Call) :
  let inner : error :=
    match out w with
    | OsFileW h => (File_Sync (Some h) (sync_fault env) os).1
    | OtherW id true _ => onSync I calls id
    | OtherW _ false _ => None
    end in
  let r := ConsoleWriter_Sync I w env os calls in
  (r.1.1 = None <->
     inner = None \/
     exists e, inner = Some e /\ has_substring e "inappropriate ioctl for device") /\
  (forall e, inner = Some e ->
     ~ has_substring e "inappropriate ioctl for device" ->
     r.1.1 = Some ("syncing console output: " ++ e)) /\
  r.2 = match out w with
        | OtherW id true _ => (calls ++ [CSync id])%list
        | _ => calls
        end.
Proof.
  cbv zeta. unfold ConsoleWriter_Sync.
  assert (Hcase : forall (x : error) (o : OS) (cs : list Call),
    let r := match x with
             | Some err =>
                 if strings_Contains err "inappropriate ioctl for device"
                 then (None, o, cs)
                 else (Some (ewrap_Wrap err "syncing console output"), o, cs)
             | None => (@None string, o, cs)
             end in
    (r.1.1 = None <->
       x = None \/
       exists e, x = Some e /\ has_substring e "inappropriate ioctl for device") /\
    (forall e, x = Some e -> ~ has_substring e "inappropriate ioctl for device" ->
       r.1.1 = Some ("syncing console output: " ++ e)) /\
    r.2 = cs).
  { intros [err|] o cs; cbv zeta.
    - destruct (strings_Contains err _) eqn:E; simpl.
      + apply strings_Contains_spec in E. split; [|split; [|done]].
        * split; [intros _; right; eauto | done].
        * intros e [= ->] Hno. done.
      + split; [|split; [|done]].
        * split; [done|]. intros [H|(e & [= <-] & H)]; [done|].
          apply strings_Contains_spec in H. congruence.
        * intros e [= ->] _. done.
    - simpl. split; [|split; [|done]]; [split; [by left | done] | done]. }
  destruct (out w) as [h|id [|] closer].
  - destruct (File_Sync (Some h) (sync_fault env) os) as [x os1].
    apply (Hcase x os1 calls).
  - apply (Hcase (onSync I calls id) os (calls ++ [CSync id])%list).
  - apply (Hcase None os calls).
Qed.

(** X17.  [copyWithBuffer] copies everything up to the end of the file:
    when the reads before the one that reports the end report no error and
    the writer takes what it is given, the result is nil, the chunks handed
    to the writer are the chunks read that are not empty, in order, and
    their bytes are the bytes read, those that came with the end of the file
    included.  What the reader would give after that is not asked for. *)
Theorem copyWithBuffer_copies_all (pre : list (string * ReadStatus)) (final : string)
    (post : list (string * ReadStatus)) (dstWrite : list string -> string -> error)
    (ws : list string) :
  Forall (fun r : string * ReadStatus => r.2 = ReadMore) pre ->
  (forall written c, dstWrite written c = None) ->
  exists chunks,
    copyWithBuffer_loop (pre ++ (final, ReadEOF) :: post) dstWrite ws
      = Ret (None, (ws ++ chunks)%list) /\
    chunks = filter (fun c : string => c <> "") (map fst pre ++ [final])%list /\
    concat_bytes chunks = concat_bytes (map fst pre) ++ final.
Proof.
  intros Hm Hd.
  exists (filter (fun c : string => c <> "") (map fst pre ++ [final])%list).
  split; [|split; [done|]].
  - rewrite copy_loop_more by (try done; intros; apply Hd).
    rewrite filter_app, app_assoc.
    destruct (decide (final = "")) as [->|Hne].
    + simpl. rewrite filter_cons_False by (intros H; by apply H).
      cbn. by rewrite ?app_nil_r.
    + assert (Hl : (0 <? String.length final)%nat = true) by by apply nonempty_length.
      simpl. rewrite Hl, Hd. rewrite filter_cons_True by done. cbn. by rewrite ?app_nil_r.
  - rewrite concat_bytes_nonempty, concat_bytes_app. simpl.
    by rewrite string_app_nil_r.
Qed.

Lemma copyWithBuffer_copies_all_witness :
  copyWithBuffer_loop (three_reads ++ [("o!", ReadEOF); ("never read", ReadMore)])
    takes_all [] = Ret (None, ["he"; "ll"; "o!"]).
Proof.
  destruct (copyWithBuffer_copies_all three_reads "o!" [("never read", ReadMore)]
              takes_all []) as (chunks & H & -> & _).
  - repeat constructor.
  - reflexivity.
  - exact H.
Defined.

(** X18.  How [copyWithBuffer] fails, after reads that reported no error
    and whose chunks the writer took.  A read that fails: the bytes that
    came with it are written first, then the error comes back behind
    "reading from source: ".  A write that fails: the loop stops there, the
    error comes back behind "writing to destination: ", and what the read
    itself reported, were it the end of the file or an error, is dropped. *)
Theorem copyWithBuffer_failures (pre : list (string * ReadStatus)) (chunk : string)
    (post : list (string * ReadStatus)) (dstWrite : list string -> string -> error)
    (ws : list string) :
  Forall (fun r : string * ReadStatus => r.2 = ReadMore) pre ->
  (forall k c, filter (fun c : string => c <> "") (map fst pre) !! k = Some c ->
     dstWrite (ws ++ take k (filter (fun c : string => c <> "") (map fst pre)))%list c
       = None) ->
  let before := (ws ++ filter (fun c : string => c <> "") (map fst pre))%list in
  (forall e, chunk = "" \/ dstWrite before chunk = None ->
     copyWithBuffer_loop (pre ++ (chunk, ReadFailed e) :: post) dstWrite ws
       = Ret (Some ("reading from source: " ++ e),
              (before ++ filter (fun c : string => c <> "") [chunk])%list)) /\
  (forall e status, chunk <> "" -> dstWrite before chunk = Some e ->
     copyWithBuffer_loop (pre ++ (chunk, status) :: post) dstWrite ws
       = Ret (Some ("writing to destination: " ++ e), (before ++ [chunk])%list)).
Proof.
  intros Hm Hd before. split.
  - intros e Hc. rewrite copy_loop_more by done. fold before. simpl.
    destruct (decide (chunk = "")) as [->|Hne].
    + simpl. rewrite filter_cons_False by (intros H; by apply H).
      cbn. by rewrite ?app_nil_r.
    + assert (Hl : (0 <? String.length chunk)%nat = true) by by apply nonempty_length.
      rewrite Hl. destruct Hc as [->|Hc]; [done|]. rewrite Hc.
      rewrite filter_cons_True by done. cbn. by rewrite ?app_nil_r.
  - intros e status Hne He. rewrite copy_loop_more by done. fold before. simpl.
    assert (Hl : (0 <? String.length chunk)%nat = true) by by apply nonempty_length.
    rewrite Hl, He. done.
Qed.

Lemma copyWithBuffer_failures_witness :
  copyWithBuffer_loop (three_reads ++ [("o!", ReadFailed "unexpected EOF")]) takes_all []
    = Ret (Some "reading from source: unexpected EOF", ["he"; "ll"; "o!"]).
Proof.
  destruct (copyWithBuffer_failures three_reads "o!" [] takes_all []) as [H _].
  - repeat constructor.
  - reflexivity.
  - exact (H "unexpected EOF" (or_intror eq_refl)).
Defined.

(** X19.  What a compression that returns no error leaves in the
    compressed file: the bytes the encoder gave during the copy, then those
    it gave when the gzip writer was closed, and then, because the file is
    opened without truncation, whatever an older file at that path held
    beyond that length.  With no older file the compressed file holds the
    encoder's bytes and nothing else. *)
Theorem performCompression_bytes (p : Path) (env : CompressEnv) (os : OS) :
  (performCompression p env os).1 = None ->
  let out := copy_emit env ++ gzclose_emit env in
  read_path (performCompression p env os).2 (path_suffix p ".gz")
    = Some (out ++ drop_bytes (String.length out)
                     (default "" (read_path os (path_suffix p ".gz")))) /\
  (read_path os (path_suffix p ".gz") = None ->
   read_path (performCompression p env os).2 (path_suffix p ".gz") = Some out).
Proof.
  intros Hok out. split.
  - exact (performCompression_content p env os Hok).
  - exact (performCompression_fresh_content p env os Hok).
Qed.

Lemma performCompression_bytes_witness :
  read_path (performCompression backup_path smooth_run backup_disk).2
    (path_suffix backup_path ".gz") = Some "gzip-header+blocks+trailer" /\
  read_path (performCompression backup_path smooth_run stale_gz_disk).2
    (path_suffix backup_path ".gz")
  = Some "gzip-header+blocks+trailerompressed file".
Proof.
  split.
  - destruct (performCompression_bytes backup_path smooth_run backup_disk) as [_ H].
    + vm_compute. reflexivity.
    + apply H. vm_compute. reflexivity.
  - destruct (performCompression_bytes backup_path smooth_run stale_gz_disk) as [H _].
    + vm_compute. reflexivity.
    + rewrite H. vm_compute. reflexivity.
Defined.

(** ** Delivery under any schedule *)

Section Schedules.
Import Logger Adapter.

Variable json_Encode : gmap string Value -> string + string.

Local Abbreviation writeLog := (writeLog json_Encode).
Local Abbreviation log := (log json_Encode).
Local Abbreviation processLogs := (processLogs json_Encode).
Local Abbreviation wg_Wait := (wg_Wait json_Encode).
Local Abbreviation Sync := (Sync json_Encode).
Local Abbreviation dispatch := (dispatch json_Encode).
Local Abbreviation contents_of := (contents_of json_Encode).
Local Abbreviation worker_turn := (worker_turn json_Encode).
Local Abbreviation step := (step json_Encode).
Local Abbreviation run := (run json_Encode).
Local Abbreviation owed_for := (owed_for json_Encode).
Local Abbreviation owed := (owed json_Encode).
Local Abbreviation pending := (pending json_Encode).

Local Arguments Adapter.processLogs : simpl never.

Lemma same_format_contents c c' e :
  same_format c c' -> contents_of c e = contents_of c' e.
Proof.
  intros H. unfold same_format in H.
  pose proof (f_equal EnableJSON H) as H1.
  pose proof (f_equal DisableTimestamp H) as H2.
  pose proof (f_equal TimeFormat H) as H3.
  pose proof (f_equal AdditionalFields H) as H4.
  simpl in H1, H2, H3, H4.
  unfold contents_of, Adapter.contents_of, formatEntry, writeJSONLog, writeTextLog.
  by rewrite H1, H2, H3, H4.
Qed.

Lemma writes_of_app a b : writes_of (a ++ b) = (writes_of a ++ writes_of b)%list.
Proof. unfold writes_of. apply filter_app. Qed.

Lemma writes_of_pending out cfg q : writes_of (pending out cfg q) = pending out cfg q.
Proof.
  unfold writes_of, pending, Adapter.pending. induction q as [|e q IH]; [done|].
  simpl. rewrite filter_cons_True by done. by rewrite IH.
Qed.

Lemma pending_app out cfg q1 q2 :
  pending out cfg (q1 ++ q2) = (pending out cfg q1 ++ pending out cfg q2)%list.
Proof. unfold pending, Adapter.pending. apply map_app. Qed.

Variables (b out : nat) (cfg0 : Config).

(** What has been written and what waits in the queue. *)
Local Abbreviation D st :=
  (writes_of (sink st) ++ pending out cfg0 (queued b st))%list.

Lemma running_sink st evs :
  running b out cfg0 st ->
  running b out cfg0
    {| heap := heap st; buffers := buffers st; dones := dones st; wgs := wgs st;
       workers := workers st; next := next st; sink := evs |}.
Proof. intros [H1 H2 H3 H4 H5 H6]. by constructor. Qed.

Lemma running_queue st ch q :
  running b out cfg0 st -> buffers st !! b = Some ch -> ch_closed ch = false ->
  running b out cfg0
    (set_buffers (<[b := mkChan (ch_cap ch) q (ch_closed ch)]> (buffers st)) st).
Proof.
  intros [H1 H2 H3 H4 H5 H6] Hb Hc. constructor; try done.
  simpl. rewrite lookup_insert_eq. eexists. split; [done|]. by simpl.
Qed.

Lemma running_heap st a ad ad' :
  running b out cfg0 st -> heap st !! a = Some ad ->
  buffer ad' = buffer ad -> done ad' = done ad -> wg ad' = wg ad ->
  Output (config ad') = Output (config ad) ->
  same_format (config ad') (config ad) ->
  forall n,
  running b out cfg0
    {| heap := <[a := ad']> (heap st); buffers := buffers st; dones := dones st;
       wgs := wgs st; workers := workers st; next := n; sink := sink st |} /\
  running b out cfg0
    {| heap := <[next st := ad']> (heap st); buffers := buffers st; dones := dones st;
       wgs := wgs st; workers := workers st; next := n; sink := sink st |}.
Proof.
  intros [H1 H2 H3 H4 H5 H6] Ha Eb Ed Ew Eo Ef n.
  destruct (H6 a ad Ha) as (Fb & Fd & Fw & Fo & Ff).
  assert (Hnew : buffer ad' = b /\ done ad' = b /\ wg ad' = b /\
                 Output (config ad') = Some out /\ same_format (config ad') cfg0).
  { unfold same_format in *. split_and!; congruence. }
  split; constructor; try done; simpl.
  - destruct H4 as (self & Hw & Hs). exists self. split; [done|].
    apply lookup_insert_is_Some. destruct (decide (a = self)); auto.
  - intros x xd Hx. apply lookup_insert_Some in Hx as [[_ <-]|[_ Hx]]; eauto.
  - destruct H4 as (self & Hw & Hs). exists self. split; [done|].
    apply lookup_insert_is_Some. destruct (decide (next st = self)); auto.
  - intros x xd Hx. apply lookup_insert_Some in Hx as [[_ <-]|[_ Hx]]; eauto.
Qed.

(** One action on a running family: the family keeps running, the queue
    keeps its capacity and grows by one entry at most, and the write the
    action is owed is in the queue or on the output: in its place after
    what was there, unless the queue was full and the caller wrote. *)
Lemma step_accounts act st st' ch :
  running b out cfg0 st -> buffers st !! b = Some ch ->
  step act st = Ret st' ->
  running b out cfg0 st' /\
  (exists ch', buffers st' !! b = Some ch' /\ ch_cap ch' = ch_cap ch /\
     (length (ch_queue ch') <= length (ch_queue ch)
                               + (if is_DoLog act then 1 else 0))%nat) /\
  (D st' = (D st ++ owed_for act st)%list \/
   (is_DoLog act = true /\ (ch_cap ch <= length (ch_queue ch))%nat /\
    D st' ≡ₚ D st ++ owed_for act st)).
Proof.
  intros Hrun Hb. pose proof Hrun as [H1 H2 H3 H4 H5 H6].
  destruct H1 as (ch0 & Hb0 & Hopen). assert (ch0 = ch) as -> by congruence.
  assert (Hq : queued b st = ch_queue ch) by (unfold queued; by rewrite Hb).
  destruct act as [a level msg env|w|a level|a fs]; simpl.
  - (* log *)
    unfold log, Adapter.log, deref.
    destruct (heap st !! a) as [ad|] eqn:Ha; [|done]. simpl.
    destruct (H6 a ad Ha) as (Fb & Fd & Fw & Fo & Ff). rewrite Fo.
    destruct (level <? CLevel (config ad)) eqn:El.
    { intros [= <-]. split; [done|]. split.
      - exists ch. split; [done|]. split; [done | lia].
      - left. by rewrite app_nil_r. }
    unfold Adapter.dispatch. rewrite Fb, Hb, Hopen.
    fold (entry_of ad level msg env).
    destruct (length (ch_queue ch) <? ch_cap ch)%nat eqn:Ecap.
    + intros [= <-]. split; [|split].
      * pose proof (running_queue st ch (ch_queue ch ++ [entry_of ad level msg env])
                      Hrun Hb Hopen) as Hr1.
        by rewrite Hopen in Hr1.
      * eexists. simpl. rewrite lookup_insert_eq. split; [done|]. simpl.
        split; [done|]. rewrite length_app. simpl. lia.
      * left. simpl. unfold queued at 1. simpl. rewrite lookup_insert_eq. simpl.
        rewrite Hq, pending_app. simpl.
        rewrite (same_format_contents _ _ _ Ff). by rewrite <- app_assoc.
    + unfold Adapter.writeLog, deref. rewrite Ha. simpl. rewrite Fo.
      intros [= <-]. split; [|split].
      * exact (running_sink st _ Hrun).
      * exists ch. split; [done|]. split; [done | lia].
      * right. split; [done|]. split; [apply Nat.ltb_ge in Ecap; lia|].
        simpl. rewrite writes_of_app. unfold queued. simpl. rewrite Hb.
        change (writes_of [SWrite out (contents_of (config ad) (entry_of ad level msg env))])
          with [SWrite out (contents_of (config ad) (entry_of ad level msg env))].
        rewrite <- !app_assoc. f_equiv. apply Permutation_app_comm.
  - (* a turn of the worker *)
    unfold worker_turn, Adapter.worker_turn.
    destruct (workers st !! w) as [self|] eqn:Hw.
    2:{ intros [= <-]. split; [done|]. split.
        - exists ch. split; [done|]. split; [done | lia].
        - left. by rewrite app_nil_r. }
    unfold deref. destruct (heap st !! self) as [sd|] eqn:Hs; [|done]. simpl.
    destruct (H6 self sd Hs) as (Fb & Fd & Fw & Fo & Ff).
    rewrite Fd, H2. simpl. unfold recv. rewrite Fb, Hb.
    destruct (ch_queue ch) as [|e rest] eqn:Eq.
    { rewrite Hopen. intros [= <-]. split; [done|]. split.
      - exists ch. split; [done|]. split; [done | rewrite Eq; simpl; lia].
      - left. by rewrite app_nil_r. }
    unfold Adapter.writeLog, deref. simpl. rewrite Hs. simpl. rewrite Fo.
    intros [= <-]. split; [|split].
    + pose proof (running_queue st ch rest Hrun Hb Hopen) as Hr1.
      exact (running_sink _ _ Hr1).
    + eexists. simpl. rewrite lookup_insert_eq. split; [done|]. simpl.
      split; [done | lia].
    + left. simpl. rewrite writes_of_app. unfold queued. simpl.
      rewrite lookup_insert_eq, Hb, Eq. simpl.
      change (ensureNewline (formatEntry json_Encode (config sd) "" e))
        with (contents_of (config sd) e).
      rewrite (same_format_contents _ _ e Ff).
      change (writes_of [SWrite out (contents_of cfg0 e)])
        with [SWrite out (contents_of cfg0 e)].
      rewrite app_nil_r. by rewrite <- app_assoc.
  - (* SetLevel *)
    unfold SetLevel, deref. destruct (heap st !! a) as [ad|] eqn:Ha; [|done].
    simpl. intros [= <-]. split; [|split].
    + refine (proj1 (running_heap st a ad _ Hrun Ha _ _ _ _ _ (next st))); done.
    + exists ch. split; [done|]. split; [done | lia].
    + left. by rewrite app_nil_r.
  - (* WithFields *)
    unfold WithFields, deref. destruct (heap st !! a) as [ad|] eqn:Ha; [|done].
    simpl. intros [= <-]. split; [|split].
    + refine (proj2 (running_heap st a ad _ Hrun Ha _ _ _ _ _ (S (next st)))); done.
    + exists ch. split; [done|]. split; [done | lia].
    + left. by rewrite app_nil_r.
Qed.

(** A schedule on a running family: what is written or queued in the end
    is what was written or queued at the start and what the schedule is
    owed. *)
Lemma run_accounts acts : forall st st',
  running b out cfg0 st -> run acts st = Ret st' ->
  running b out cfg0 st' /\ D st' ≡ₚ D st ++ owed acts st.
Proof.
  induction acts as [|act acts IH]; intros st st' Hrun; simpl.
  - intros [= <-]. split; [done|]. by rewrite app_nil_r.
  - destruct (step act st) as [st1| |] eqn:Es; [|done..]. simpl. intros Hr.
    destruct (run_queue _ _ _ _ Hrun) as (ch & Hb & _).
    destruct (step_accounts act st st1 ch Hrun Hb Es) as (Hrun1 & _ & Hd).
    destruct (IH st1 st' Hrun1 Hr) as (Hrun' & Hd').
    split; [done|]. rewrite Hd', app_assoc. f_equiv.
    destruct Hd as [->|(_ & _ & ->)]; done.
Qed.

(** The same when the queue has room for every call of the schedule:
    nothing overtakes. *)
Lemma run_in_order acts : forall st st' ch,
  running b out cfg0 st -> buffers st !! b = Some ch ->
  (length (ch_queue ch) + length (filter (fun x => is_DoLog x = true) acts)
     <= ch_cap ch)%nat ->
  run acts st = Ret st' ->
  running b out cfg0 st' /\ D st' = (D st ++ owed acts st)%list.
Proof.
  induction acts as [|act acts IH]; intros st st' ch Hrun Hb Hcap; simpl.
  - intros [= <-]. split; [done|]. by rewrite app_nil_r.
  - destruct (step act st) as [st1| |] eqn:Es; [|done..]. simpl. intros Hr.
    destruct (step_accounts act st st1 ch Hrun Hb Es)
      as (Hrun1 & (ch1 & Hb1 & Hc1 & Hl1) & Hd).
    assert (Hroom : (length (ch_queue ch1)
                     + length (filter (fun x => is_DoLog x = true) acts)
                     <= ch_cap ch1)%nat).
    { rewrite Hc1. destruct (is_DoLog act) eqn:Ea.
      - rewrite filter_cons_True in Hcap by done. simpl in Hcap. lia.
      - rewrite filter_cons_False in Hcap by (by rewrite Ea). lia. }
    destruct (IH st1 st' ch1 Hrun1 Hb1 Hroom Hr) as (Hrun' & Hd').
    split; [done|]. rewrite Hd', app_assoc. f_equal.
    destruct Hd as [->|(Ea & Hfull & _)]; [done|].
    rewrite filter_cons_True in Hcap by done. simpl in Hcap. lia.
Qed.

(** [Sync] on a running family returns what the output's [Sync] returns;
    by then the queued entries have been written in the order of the
    queue, and nothing else. *)
Lemma Sync_running st a ad pick o :
  running b out cfg0 st -> heap st !! a = Some ad ->
  exists st', Sync a pick o st = Ret (default None o, st') /\
    writes_of (sink st') = D st /\ queued b st' = [].
Proof.
  intros [H1 H2 H3 H4 H5 H6] Ha.
  destruct H1 as (ch & Hb & Hopen). destruct H4 as (self & Hw & [sd Hs]).
  destruct (H6 a ad Ha) as (Fb & Fd & Fw & Fo & Ff).
  destruct (H6 self sd Hs) as (Sb & Sd & Sw & So & Sf).
  unfold Sync, Adapter.Sync, deref. rewrite Ha. simpl.
  unfold close_done. rewrite Fd, H2. simpl.
  unfold close_buffer. simpl. rewrite Fb, Hb, Hopen. simpl.
  unfold wg_Wait, Adapter.wg_Wait. simpl. rewrite Fw, H3, Hw. simpl.
  unfold deref. simpl. rewrite Hs. simpl.
  match goal with |- context [Adapter.processLogs _ ?f pick self ?s] =>
    destruct (processLogs_all json_Encode pick self sd out s (ch_queue ch) (ch_cap ch) f)
      as (st' & Hp & Hsink & Hq) end; try done.
  { simpl. rewrite Sb. apply lookup_insert_eq. }
  { unfold queued. simpl. rewrite Sb, lookup_insert_eq. simpl. lia. }
  rewrite Hp. simpl. simpl in Hsink.
  assert (Hpend : map (fun e => SWrite out (Adapter.contents_of json_Encode (config sd) e))
                    (ch_queue ch) = pending out cfg0 (ch_queue ch)).
  { unfold pending, Adapter.pending. apply map_ext. intros e.
    by rewrite (same_format_contents _ _ e Sf). }
  rewrite Hpend in Hsink.
  assert (Hqd : queued b st = ch_queue ch) by (unfold queued; by rewrite Hb).
  rewrite Fo. destruct o as [r|]; simpl.
  - eexists. split; [done|]. simpl. split.
    + rewrite Hsink, !writes_of_app, writes_of_pending, Hqd.
      change (writes_of [SSync out]) with (@nil SinkEvent). by rewrite app_nil_r.
    + unfold queued. simpl. rewrite <- Sb at 1. by rewrite Hq.
  - eexists. split; [done|]. simpl. split.
    + by rewrite Hsink, writes_of_app, writes_of_pending, Hqd.
    + unfold queued. simpl. rewrite <- Sb at 1. by rewrite Hq.
Qed.

(** No action on a logger of a running family panics or waits. *)
Lemma step_returns act st :
  running b out cfg0 st ->
  match act with
  | DoLog a _ _ _ | DoSetLevel a _ | DoWithFields a _ => is_Some (heap st !! a)
  | DoWork _ => True
  end ->
  exists st', step act st = Ret st'.
Proof.
  intros [H1 H2 H3 H4 H5 H6]. destruct H1 as (ch & Hb & Hopen).
  destruct act as [a level msg env|w|a level|a fs]; simpl.
  - intros [ad Ha]. destruct (H6 a ad Ha) as (Fb & Fd & Fw & Fo & Ff).
    unfold log, Adapter.log, deref. rewrite Ha. simpl.
    destruct (level <? CLevel (config ad)); [by eexists|].
    unfold Adapter.dispatch. rewrite Fb, Hb, Hopen.
    destruct (_ <? _)%nat; [by eexists|].
    unfold Adapter.writeLog, deref. rewrite Ha. simpl. rewrite Fo. by eexists.
  - intros _. unfold worker_turn, Adapter.worker_turn.
    destruct (workers st !! w) as [self|] eqn:Hw; [|by eexists].
    assert (w = b) as -> by by apply (H5 w self).
    destruct H4 as (self' & Hw' & [sd Hs]). assert (self' = self) as -> by congruence.
    destruct (H6 self sd Hs) as (Fb & Fd & Fw & Fo & Ff).
    unfold deref. rewrite Hs. simpl. rewrite Fd, H2. simpl.
    unfold recv. rewrite Fb, Hb.
    destruct (ch_queue ch) as [|e rest]; [rewrite Hopen; by eexists|].
    unfold Adapter.writeLog, deref. simpl. rewrite Hs. simpl. rewrite Fo. by eexists.
  - intros [ad Ha]. unfold SetLevel, deref. rewrite Ha. simpl. by eexists.
  - intros [ad Ha]. unfold WithFields, deref. rewrite Ha. simpl. by eexists.
Qed.

End Schedules.

Section Startup.
Import Logger Adapter.

(** [NewAdapter] on a state without loggers starts a running family. *)
Lemma NewAdapter_running cfg st out :
  heap st = ∅ -> workers st = ∅ -> Output cfg = Some out ->
  0 <= AsyncBufferSize cfg ->
  let cfg' := if AsyncBufferSize cfg =? 0
              then with_AsyncBufferSize cfg DefaultAsyncBufferSize else cfg in
  exists st',
    NewAdapter cfg st = Ret ((Some (next st), None), st') /\
    running (next st) out cfg' st' /\
    heap st' !! next st = Some (mkAdapter cfg' [] (next st) (next st) (next st)) /\
    buffers st' !! next st
      = Some (mkChan (Z.to_nat (AsyncBufferSize cfg')) [] false) /\
    sink st' = sink st.
Proof.
  intros Hh Hw Ho Hsz cfg'. unfold NewAdapter. rewrite Ho. fold cfg'.
  assert (Hsz' : (AsyncBufferSize cfg' <? 0) = false).
  { subst cfg'. destruct (AsyncBufferSize cfg =? 0); simpl; apply Z.ltb_ge;
      [unfold DefaultAsyncBufferSize; lia | lia]. }
  rewrite Hsz'. eexists. split; [done|]. simpl.
  assert (Ho' : Output cfg' = Some out).
  { subst cfg'. by destruct (AsyncBufferSize cfg =? 0). }
  split; [|by rewrite !lookup_insert_eq].
  constructor; simpl.
  - rewrite lookup_insert_eq. by eexists.
  - apply lookup_insert_eq.
  - apply lookup_insert_eq.
  - exists (next st). rewrite !lookup_insert_eq. split; [done | by eexists].
  - intros w self. rewrite Hw. intros Hx.
    by apply lookup_insert_Some in Hx as [[<- _]|[_ Hx]].
  - intros a ad. rewrite Hh. intros Hx.
    apply lookup_insert_Some in Hx as [[_ <-]|[_ Hx]]; [|done]. done.
Qed.

End Startup.

Import Logger Adapter Scenario.

Lemma started_running : running 0 0 plain_config started.
Proof.
  destruct (NewAdapter_running plain_config empty_state 0)
    as (st' & Hn & Hr & _); try done.
  unfold started. rewrite Hn. exact Hr.
Qed.

(** X20.  Every entry that is accepted is written exactly once.  On a
    running family of loggers, after any schedule of calls of [log], turns
    of the worker, [SetLevel] and [WithFields] that ran through, [Sync] on
    any logger of the family returns what the output's [Sync] returns, and
    the writes the output has received by then are, up to their order, the
    writes it had received before, one for every entry that was queued, and
    one for every call of [log] that was at or above the level of its logger
    at the time of the call; the queue is empty. *)
Theorem Sync_writes_every_owed_entry
    (json_Encode : gmap string Value -> string + string)
    (b out : nat) (cfg0 : Config) (st : State) (acts : list Action) (st1 : State)
    (a : nat) (ad : adapter) (pick : nat -> bool) (o : option error) :
  running b out cfg0 st -> run json_Encode acts st = Ret st1 ->
  heap st1 !! a = Some ad ->
  exists st2,
    Sync json_Encode a pick o st1 = Ret (default None o, st2) /\
    writes_of (sink st2) ≡ₚ
      (writes_of (sink st) ++ pending json_Encode out cfg0 (queued b st)
       ++ owed json_Encode acts st)%list /\
    queued b st2 = [].
Proof.
  intros Hrun Hr Ha.
  destruct (run_accounts json_Encode b out cfg0 acts st st1 Hrun Hr) as (Hrun1 & Hd).
  destruct (Sync_running json_Encode b out cfg0 st1 a ad pick o Hrun1 Ha)
    as (st2 & Hs & Hw & Hq).
  exists st2. split; [done|]. split; [|done].
  rewrite Hw, Hd. by rewrite <- app_assoc.
Qed.

Lemma Sync_writes_every_owed_entry_witness :
  (exists st2,
     Sync no_json 0 (fun _ => true) None (state_after (run no_json rush started))
       = Ret (None, st2) /\
     writes_of (sink st2) ≡ₚ owed no_json rush started) /\
  owed no_json rush started
    = map (fun m => SWrite 0 ("INFO  " ++ m ++ nl)) ["1"; "2"; "3"; "4"; "5"; "6"] /\
  sink (state_after (run no_json rush started))
    = map (fun m => SWrite 0 ("INFO  " ++ m ++ nl)) ["5"; "6"].
Proof.
  split; [|split; vm_compute; reflexivity].
  destruct (Sync_writes_every_owed_entry no_json 0 0 plain_config started rush
              (state_after (run no_json rush started)) 0
              (mkAdapter plain_config [] 0 0 0) (fun _ => true) None)
    as (st2 & H1 & H2 & _).
  - exact started_running.
  - vm_compute. reflexivity.
  - vm_compute. reflexivity.
  - exists st2. split; [exact H1 | exact H2].
Defined.

(** X21.  When the queue has room for every call of the schedule, the
    output receives the entries in the order of the calls: after [Sync] its
    writes are the earlier ones, then the entries that were queued, then one
    for each accepted call of [log], in that order. *)
Theorem Sync_writes_in_call_order
    (json_Encode : gmap string Value -> string + string)
    (b out : nat) (cfg0 : Config) (st : State) (ch : Chan) (acts : list Action)
    (st1 : State) (a : nat) (ad : adapter) (pick : nat -> bool) (o : option error) :
  running b out cfg0 st -> buffers st !! b = Some ch ->
  (length (ch_queue ch) + length (filter (fun x => is_DoLog x = true) acts)
     <= ch_cap ch)%nat ->
  run json_Encode acts st = Ret st1 -> heap st1 !! a = Some ad ->
  exists st2,
    Sync json_Encode a pick o st1 = Ret (default None o, st2) /\
    writes_of (sink st2) =
      (writes_of (sink st) ++ pending json_Encode out cfg0 (ch_queue ch)
       ++ owed json_Encode acts st)%list.
Proof.
  intros Hrun Hb Hcap Hr Ha.
  destruct (run_in_order json_Encode b out cfg0 acts st st1 ch Hrun Hb Hcap Hr)
    as (Hrun1 & Hd).
  destruct (Sync_running json_Encode b out cfg0 st1 a ad pick o Hrun1 Ha)
    as (st2 & Hs & Hw & Hq).
  exists st2. split; [done|]. rewrite Hw, Hd.
  unfold queued. rewrite Hb. by rewrite <- app_assoc.
Qed.

Lemma Sync_writes_in_call_order_witness :
  exists st2,
    Sync no_json 0 (fun _ => false) None (state_after (run no_json busy_day started))
      = Ret (None, st2) /\
    writes_of (sink st2)
      = [SWrite 0 ("INFO  first" ++ nl); SWrite 0 ("WARN  second {id=7}" ++ nl)].
Proof.
  destruct (Sync_writes_in_call_order no_json 0 0 plain_config started
              (mkChan 4 [] false) busy_day
              (state_after (run no_json busy_day started)) 0
              (mkAdapter (with_Level plain_config ErrorLevel) [] 0 0 0)
              (fun _ => false) None)
    as (st2 & H1 & H2).
  - exact started_running.
  - vm_compute. reflexivity.
  - vm_compute. lia.
  - vm_compute. reflexivity.
  - vm_compute. reflexivity.
  - exists st2. split; [exact H1|]. rewrite H2. vm_compute. reflexivity.
Defined.

(** X22.  While a family of loggers runs, nothing a caller does panics or
    waits, and the family keeps running: [log] at any level with any
    message, [WithFields], which returns the next address, [SetLevel], and
    any turn of the worker all return. *)
Theorem running_logger_keeps_running
    (json_Encode : gmap string Value -> string + string)
    (b out : nat) (cfg0 : Config) (st : State) (a : nat) (ad : adapter) :
  running b out cfg0 st -> heap st !! a = Some ad ->
  (forall level msg env, exists st',
     log json_Encode a level msg env st = Ret st' /\ running b out cfg0 st') /\
  (forall fs, exists st',
     WithFields a fs st = Ret (next st, st') /\ running b out cfg0 st' /\
     is_Some (heap st' !! next st)) /\
  (forall level, exists st',
     SetLevel a level st = Ret st' /\ running b out cfg0 st') /\
  (forall w, exists st',
     worker_turn json_Encode w st = Ret st' /\ running b out cfg0 st').
Proof.
  intros Hrun Ha. destruct (run_queue _ _ _ _ Hrun) as (ch & Hb & _).
  assert (Hstep : forall act,
    match act with
    | DoLog a _ _ _ | DoSetLevel a _ | DoWithFields a _ => is_Some (heap st !! a)
    | DoWork _ => True
    end ->
    exists st', step json_Encode act st = Ret st' /\ running b out cfg0 st').
  { intros act Hact.
    destruct (step_returns json_Encode b out cfg0 act st Hrun Hact) as [st' Hs].
    exists st'. split; [done|].
    by destruct (step_accounts json_Encode b out cfg0 act st st' ch Hrun Hb Hs). }
  split; [|split; [|split]].
  - intros level msg env. apply (Hstep (DoLog a level msg env)). by eexists.
  - intros fs. destruct (Hstep (DoWithFields a fs)) as (st' & Hs & Hr); [by eexists|].
    revert Hs. simpl. unfold WithFields, deref. rewrite Ha. simpl.
    intros [= <-]. eexists. split; [done|]. split; [done|]. simpl.
    rewrite lookup_insert_eq. by eexists.
  - intros level. apply (Hstep (DoSetLevel a level)). by eexists.
  - intros w. by apply (Hstep (DoWork w)).
Qed.

Lemma running_logger_keeps_running_witness :
  exists st', Fatal no_json 0 "disk on fire" here started = Ret st' /\
              running 0 0 plain_config st'.
Proof.
  destruct (running_logger_keeps_running no_json 0 0 plain_config started 0
              (mkAdapter plain_config [] 0 0 0)) as (H & _).
  - exact started_running.
  - vm_compute. reflexivity.
  - exact (H FatalLevel "disk on fire" here).
Defined.

(** X23.  [NewAdapter] on a state without loggers, given an output and a
    queue size that is not negative, returns a logger at the next address and
    no error, and starts a running family: an open and empty queue of the
    configured size, or of 1024 entries when the size is zero, an open
    [done] channel, a wait group at one and the worker.  Nothing is written
    to the output. *)
Theorem NewAdapter_starts_family (cfg : Config) (st : State) (out : nat) :
  heap st = ∅ -> workers st = ∅ -> Output cfg = Some out ->
  0 <= AsyncBufferSize cfg ->
  let size := if AsyncBufferSize cfg =? 0 then 1024 else AsyncBufferSize cfg in
  let cfg' := with_AsyncBufferSize cfg size in
  exists st',
    NewAdapter cfg st = Ret ((Some (next st), None), st') /\
    running (next st) out cfg' st' /\
    heap st' !! next st = Some (mkAdapter cfg' [] (next st) (next st) (next st)) /\
    buffers st' !! next st = Some (mkChan (Z.to_nat size) [] false) /\
    sink st' = sink st.
Proof.
  intros Hh Hw Ho Hsz size cfg'.
  destruct (NewAdapter_running cfg st out Hh Hw Ho Hsz) as (st' & H1 & H2 & H3 & H4 & H5).
  assert (Hcfg : (if AsyncBufferSize cfg =? 0
                  then with_AsyncBufferSize cfg DefaultAsyncBufferSize else cfg) = cfg').
  { subst cfg' size. destruct (AsyncBufferSize cfg =? 0); [done|]. by destruct cfg. }
  rewrite Hcfg in H2, H3, H4.
  exists st'. split; [exact H1|]. split; [exact H2|].
  split; [exact H3|]. split; [exact H4 | exact H5].
Qed.

Lemma NewAdapter_starts_family_witness :
  exists st', NewAdapter plain_config empty_state = Ret ((Some 0%nat, None), st') /\
              buffers st' !! 0%nat = Some (mkChan 4 [] false).
Proof.
  destruct (NewAdapter_starts_family plain_config empty_state 0)
    as (st' & H1 & _ & _ & H2 & _); try done.
  exists st'. split; [exact H1 | exact H2].
Defined.

(** ** Records: JSON members, the final newline, the caller *)

Section Records.
Import Logger Adapter.

Lemma set_fields_lookup fs : forall (m : gmap string Value) k,
  set_fields m fs !! k =
    match last_field k fs with
    | Some v => Some v
    | None => m !! k
    end.
Proof.
  unfold set_fields. induction fs as [|f fs IH]; intros m k; simpl; [done|].
  rewrite IH. destruct (last_field k fs) as [v|]; [done|].
  destruct (String.eqb_spec (Key f) k) as [->|Hne].
  - apply lookup_insert_eq.
  - by apply lookup_insert_ne.
Qed.

Lemma last_byte_app_byte (s : string) c :
  last_byte (s ++ String c EmptyString) = Some c.
Proof.
  induction s as [|x s IH]; [done|]. rewrite string_app_cons. simpl.
  rewrite IH. destruct (s ++ String c EmptyString) eqn:E; [|done].
  destruct s; done.
Qed.

Lemma ensureNewline_cases (buf : Buffer) :
  (buf = "" /\ ensureNewline buf = "") \/
  (last_byte buf = Some "010"%char /\ ensureNewline buf = buf) \/
  (buf <> "" /\ last_byte buf <> Some "010"%char /\ ensureNewline buf = buf ++ nl).
Proof.
  unfold ensureNewline. destruct (last_byte buf) as [c|] eqn:E.
  - destruct (Ascii.eqb_spec c "010"%char) as [->|Hne].
    + right. left. split; reflexivity.
    + right. right. split; [by intros ->|]. split; [congruence | done].
  - left. assert (buf = "") as ->; [|done].
    clear -E. induction buf as [|x s IH]; [done|]. exfalso.
    simpl in E. destruct s as [|y s]; [done|]. by apply IH in E.
Qed.

Lemma app_nonempty_r (a b : string) : b <> "" -> a ++ b <> "".
Proof.
  intros Hb H. apply (f_equal String.length) in H.
  rewrite string_app_length in H. destruct b; [done|]. simpl in H. lia.
Qed.

Lemma app_nonempty_l (a b : string) : a <> "" -> a ++ b <> "".
Proof.
  intros Ha H. apply (f_equal String.length) in H.
  rewrite string_app_length in H. destruct a; [done|]. simpl in H. lia.
Qed.

Lemma text_line_nonempty cfg entry : text_line cfg entry <> "".
Proof.
  unfold text_line. apply app_nonempty_r, app_nonempty_r, app_nonempty_l. done.
Qed.

End Records.

Section MultiWriterOutput.
Import Output Adapter.

Variable I : Iface.

(** What a result says about the write, the name apart. *)
Local Abbreviation outcome r := (Writer r, Bytes r, Err r).

Lemma collect_like_perform mw ws contents : forall rs1 rs2 calls,
  map (fun r => outcome r) rs1 = map (fun r => outcome r) rs2 ->
  map (fun r => outcome r) (collectWriteResults_loop I ws contents rs1 calls).1
    = map (fun r => outcome r) (performWrites_loop I mw ws contents rs2 calls).1 /\
  (collectWriteResults_loop I ws contents rs1 calls).2
    = (performWrites_loop I mw ws contents rs2 calls).2.
Proof.
  induction ws as [|[w|] ws IH]; intros rs1 rs2 calls Hrs; simpl; [done| |by apply IH].
  destruct (onWrite I calls w contents) as [n err]. apply IH.
  rewrite !map_app. simpl. by rewrite Hrs.
Qed.

Lemma same_outcome_counts expected rs1 : forall rs2,
  map (fun r => outcome r) rs1 = map (fun r => outcome r) rs2 ->
  length (filter (fun r => is_success expected r = true) rs1)
    = length (filter (fun r => is_success expected r = true) rs2) /\
  length rs1 = length rs2.
Proof.
  induction rs1 as [|r1 rs1 IH]; intros [|r2 rs2] H; simpl in H; try done.
  injection H as Hw Hb He Hrest. destruct (IH rs2 Hrest) as [Hc Hl].
  split; [|simpl; lia].
  assert (Hs : is_success expected r1 = is_success expected r2).
  { unfold is_success. by rewrite Hb, He. }
  destruct (is_success expected r2) eqn:E.
  - rewrite !filter_cons_True by congruence. simpl. lia.
  - rewrite !filter_cons_False by congruence. done.
Qed.

Lemma analyzeResults_loop_counts contents rs : forall sc inc errs,
  let r := analyzeResults_loop rs contents sc inc errs in
  let expected := Z.of_nat (String.length contents) in
  r.1.1 = sc + Z.of_nat (length (filter (fun r => is_success expected r = true) rs)) /\
  (length r.1.2 + length r.2 + length (filter (fun r => is_success expected r = true) rs)
   = length inc + length errs + length rs)%nat.
Proof.
  induction rs as [|x rs IH]; intros sc inc errs; cbv zeta; simpl.
  - split; lia.
  - unfold is_success. destruct (Err x) as [e|] eqn:Ee.
    + rewrite filter_cons_False by (unfold is_success; by rewrite Ee).
      destruct (IH sc inc (errs ++ [(Name x ++ ": error: " ++ e)%string])%list) as [H1 H2].
      cbv zeta in H1, H2. unfold is_success in H1, H2.
      split; [done|]. rewrite H2, length_app. simpl. lia.
    + destruct (Bytes x =? Z.of_nat (String.length contents)) eqn:Eb; simpl.
      * rewrite filter_cons_True by (unfold is_success; by rewrite Ee).
        destruct (IH (sc + 1) inc errs) as [H1 H2].
        cbv zeta in H1, H2. unfold is_success in H1, H2.
        split; [rewrite H1; simpl length; lia|]. simpl length. lia.
      * rewrite filter_cons_False by (unfold is_success; by rewrite Ee, Eb).
        match goal with |- context [analyzeResults_loop rs contents sc ?i errs] =>
          destruct (IH sc i errs) as [H1 H2] end.
        cbv zeta in H1, H2. unfold is_success in H1, H2.
        split; [done|]. rewrite H2, length_app. simpl. lia.
Qed.

End MultiWriterOutput.

Import Logger Output Adapter Scenario.

(** X24.  The JSON record of an entry.  [writeJSONLog] appends to the
    buffer the encoding of a map, or the text of the encoder's error behind
    "failed to marshal log entry to JSON: ".  The member of the map under a
    key is the value of the last additional field of the configuration with
    that key; failing that, of the last field of the entry with that key;
    failing that, the level name, the message, the formatted timestamp
    unless timestamps are off, or the caller unless it is empty, under
    [level], [message], [timestamp] and [caller].  So a field named [level]
    or [message] replaces the standard member, and of fields with one key
    only the last is kept. *)
Theorem writeJSONLog_members (json_Encode : gmap string Value -> string + string)
    (cfg : Config) (buf : Buffer) (entry : logEntry) :
  exists logMap : gmap string Value,
    (forall k, logMap !! k = json_member cfg entry k) /\
    writeJSONLog json_Encode cfg buf entry =
      buf ++ match json_Encode logMap with
             | inl encoded => encoded
             | inr err => "failed to marshal log entry to JSON: " ++ err
             end.
Proof.
  unfold writeJSONLog. cbv zeta.
  match goal with |- context [json_Encode ?m] => exists m end.
  split; [|by destruct (json_Encode _)].
  intros k. unfold json_member. rewrite !set_fields_lookup.
  destruct (last_field k (AdditionalFields cfg)) as [v|]; [done|].
  destruct (last_field k (Fields entry)) as [v|]; [done|].
  unfold standard_field.
  destruct (String.eqb_spec k "caller") as [->|Hc].
  { destruct (String.eqb (Caller entry) ""); [|by rewrite lookup_insert_eq].
    destruct (DisableTimestamp cfg); by rewrite ?lookup_insert_ne by done. }
  destruct (String.eqb_spec k "timestamp") as [->|Ht].
  { destruct (String.eqb (Caller entry) ""); rewrite ?lookup_insert_ne by done;
      (destruct (DisableTimestamp cfg); [|by rewrite lookup_insert_eq]);
      by rewrite ?lookup_insert_ne by done. }
  destruct (String.eqb (Caller entry) "") eqn:Ecl, (DisableTimestamp cfg) eqn:Ets;
    rewrite ?lookup_insert_ne by done;
    (destruct (String.eqb_spec k "message") as [->|Hm];
     [by rewrite lookup_insert_eq|]; rewrite lookup_insert_ne by done;
     destruct (String.eqb_spec k "level") as [->|Hl];
     [by rewrite lookup_insert_eq|]; by rewrite lookup_insert_ne by done).
Qed.

(** X25.  Every record ends in one newline.  [ensureNewline] leaves an
    empty buffer and a buffer that ends in a newline as they are and adds
    one newline to any other, so that applying it twice is applying it once.
    In text mode the bytes handed to the output for an entry are never
    empty and end in a newline: they are the text line, followed by a
    newline unless the line ends in one already. *)
Theorem records_end_in_newline (json_Encode : gmap string Value -> string + string)
    (cfg : Config) (entry : logEntry) :
  (forall buf, buf <> "" -> last_byte (ensureNewline buf) = Some "010"%char) /\
  (forall buf, ensureNewline (ensureNewline buf) = ensureNewline buf) /\
  (forall buf, ensureNewline buf = buf \/
               (last_byte buf <> Some "010"%char /\ ensureNewline buf = buf ++ nl)) /\
  (EnableJSON cfg = false ->
     contents_of json_Encode cfg entry <> "" /\
     last_byte (contents_of json_Encode cfg entry) = Some "010"%char /\
     (contents_of json_Encode cfg entry = text_line cfg entry \/
      contents_of json_Encode cfg entry = text_line cfg entry ++ nl)).
Proof.
  assert (H1 : forall buf, buf <> "" -> last_byte (ensureNewline buf) = Some "010"%char).
  { intros buf Hne.
    destruct (ensureNewline_cases buf) as [[-> _]|[[Hl ->]|(_ & _ & ->)]];
      [done | done | apply last_byte_app_byte]. }
  assert (H2 : forall buf, ensureNewline (ensureNewline buf) = ensureNewline buf).
  { intros buf.
    destruct (ensureNewline_cases buf) as [[-> _]|[[Hl Hn]|(Hne & _ & Hn)]];
      [done | by rewrite !Hn |].
    destruct (ensureNewline_cases (ensureNewline buf)) as [[He _]|[[_ He]|(_ & Hl & _)]];
      [by rewrite He | done |].
    by rewrite (H1 buf Hne) in Hl. }
  split; [exact H1|]. split; [exact H2|]. split.
  - intros buf.
    destruct (ensureNewline_cases buf) as [[-> _]|[[Hl ->]|(_ & Hl & ->)]]; auto.
  - intros Hj. unfold contents_of, formatEntry. rewrite Hj, writeTextLog_text_line.
    pose proof (text_line_nonempty cfg entry) as Hne.
    split; [|split; [by apply H1|]].
    + destruct (ensureNewline_cases (text_line cfg entry))
        as [[He _]|[[_ ->]|(_ & _ & ->)]]; [done | done | by apply app_nonempty_l].
    + destruct (ensureNewline_cases (text_line cfg entry))
        as [[He _]|[[_ ->]|(_ & _ & ->)]]; [done | by left | by right].
Qed.

(** X26.  The caller shown is the last two components of the file's path
    and the line: whatever comes before the last two components is dropped,
    a path of one component is shown as it is, and "unknown" stands in when
    the runtime has no caller to give. *)
Theorem getCaller_last_two (t : Time) (pre : list string) (dir file : string) (line : Z) :
  getCaller (mkLogEnv t (Some ((pre ++ [dir; file])%list, line)))
    = dir ++ "/" ++ file ++ ":" ++ fmt_d line /\
  getCaller (mkLogEnv t (Some ([file], line))) = file ++ ":" ++ fmt_d line /\
  getCaller (mkLogEnv t None) = "unknown".
Proof.
  split; [|by split]. unfold getCaller. simpl.
  rewrite length_app. simpl.
  replace (length pre + 2 - 2)%nat with (length pre) by lia.
  rewrite drop_app_length.
  destruct pre as [|x pre]; simpl.
  - by rewrite !string_app_assoc.
  - replace (length pre + 2)%nat with (S (S (length pre))) by lia. simpl.
    by rewrite !string_app_assoc.
Qed.

(** X27.  An adapter whose output is a multi writer writes to the writers
    of the slice itself.  It reaches the same writers with the same bytes in
    the same order as [MultiWriter.Write] would, and it reports write issues
    exactly when [MultiWriter.Write] would return an error.  The writes it
    counts as successes, as incomplete and as failed add up to the writers
    reached. *)
Theorem handleMultiWriter_agrees_with_Write (I : Iface) (mw : MultiWriter)
    (contents : string) (calls : list Call) :
  let h := handleMultiWriter I mw contents calls in
  let w := MultiWriter_Write I mw contents calls in
  let a := analyzeResults (collectWriteResults I mw contents calls).1 contents in
  h.2 = w.2 /\
  h.2 = (calls ++ map (fun x => CWrite x contents) (registered (Writers mw)))%list /\
  (h.1 = true <-> w.1.2 <> None) /\
  a.1.1 + Z.of_nat (length a.1.2) + Z.of_nat (length a.2)
    = Z.of_nat (length (registered (Writers mw))).
Proof.
  cbv zeta. set (expected := Z.of_nat (String.length contents)).
  destruct (collect_like_perform I mw (Writers mw) contents [] [] calls eq_refl)
    as [Hout Hcalls].
  pose proof (performWrites_loop_calls I mw (Writers mw) contents [] calls) as Hpc.
  pose proof (MultiWriter_Write_calls I mw contents calls) as Hwc.
  assert (Hh2 : (handleMultiWriter I mw contents calls).2
                = (collectWriteResults I mw contents calls).2).
  { unfold handleMultiWriter.
    destruct (collectWriteResults I mw contents calls) as [rs c1].
    by destruct (analyzeResults rs contents) as [[sc inc] errs]. }
  fold (collectWriteResults I mw contents calls) in Hout, Hcalls.
  destruct (same_outcome_counts expected _ _ Hout) as [Hgood Hlen].
  pose proof (analyzeResults_loop_counts contents
                (collectWriteResults I mw contents calls).1 0 [] []) as [Ha1 Ha2].
  cbv zeta in Ha1, Ha2. fold expected in Ha1, Ha2.
  fold (analyzeResults (collectWriteResults I mw contents calls).1 contents) in Ha1, Ha2.
  (* the number of results is the number of writers reached *)
  assert (Hn : length (performWrites_loop I mw (Writers mw) contents [] calls).1
               = length (registered (Writers mw))).
  { assert (H : forall ws rs calls,
              length (performWrites_loop I mw ws contents rs calls).1
              = (length rs + length (registered ws))%nat).
    { induction ws as [|[x|] ws IH]; intros rs0 calls0; simpl; [lia| |apply IH].
      destruct (onWrite I calls0 x contents) as [n err]. rewrite IH, length_app.
      change (registered (Some x :: ws)) with (x :: registered ws). simpl. lia. }
    by rewrite H. }
  (* successes and failures make up the results *)
  assert (Hsplit : forall rs : list WriteResult,
    (length (filter (fun r => is_success expected r = true) rs)
     + length (filter (fun r => is_success expected r <> true) rs) = length rs)%nat).
  { induction rs as [|r rs IH]; [done|].
    destruct (is_success expected r) eqn:E.
    - rewrite filter_cons_True by done.
      rewrite (filter_cons_False (fun r => is_success expected r <> true))
        by (rewrite E; auto). simpl. lia.
    - rewrite filter_cons_False by (by rewrite E).
      rewrite (filter_cons_True (fun r => is_success expected r <> true))
        by (by rewrite E). simpl. lia. }
  split; [|split; [|split]].
  - rewrite Hh2, Hcalls, Hwc. exact Hpc.
  - rewrite Hh2, Hcalls. exact Hpc.
  - (* an issue is reported when some result is not a success *)
    assert (Hh1 : (handleMultiWriter I mw contents calls).1 = true <->
                  (length (filter (fun r => is_success expected r = true)
                             (collectWriteResults I mw contents calls).1)
                   < length (collectWriteResults I mw contents calls).1)%nat).
    { clear -Ha2. revert Ha2. unfold handleMultiWriter.
      destruct (collectWriteResults I mw contents calls) as [rs c1]. simpl.
      destruct (analyzeResults rs contents) as [[sc inc] errs]. simpl.
      rewrite orb_true_iff, !Nat.ltb_lt. intros H.
      generalize dependent (length (filter (fun r => is_success expected r = true) rs)).
      intros g H. split; [intros [?|?]; lia | intros ?; destruct errs, inc; simpl in *; lia]. }
    rewrite Hh1, Hgood, Hlen.
    unfold MultiWriter_Write, writeToWriters, performWrites. fold expected.
    pose proof (Hsplit (performWrites_loop I mw (Writers mw) contents [] calls).1) as Hs.
    destruct (performWrites_loop I mw (Writers mw) contents [] calls) as [results c1].
    simpl in *. unfold processResults. rewrite processResults_loop_spec. simpl.
    destruct (filter (fun r => is_success expected r <> true) results) as [|x bad];
      simpl in *.
    + split; [lia | done].
    + split; [done | lia].
  - rewrite Ha1. rewrite Hlen, Hn in Ha2.
    change (length (@nil string)) with 0%nat in Ha2. lia.
Qed.

(** ** What a rotation is *)

Section RotationEffects.
Import OSys Output.

(** A rotation that succeeds, step by step: the file of the writer is
    closed, the log is renamed to the backup named after the time, the
    compression is started when it is on, and a new empty file is opened
    at the path of the log. *)
Lemma rotate_success_effects w env os w1 os1 :
  rotate w env os = (None, w1, os1) ->
  exists h f i,
    file w = Some h /\ files os !! h = Some f /\ f_closed f = false /\
    names os !! path w = Some i /\
    w1 = set_file_size w (Some (S (next_id os))) 0 /\
    names os1 = <[path w := next_id os]>
                  (<[backupPath w (now env) := i]> (delete (path w) (names os))) /\
    inodes os1 = <[next_id os := ""]> (inodes os) /\
    files os1 = <[S (next_id os) := mkOsFile (next_id os) true 0 false]>
                  (<[h := mkOsFile (f_ino f) (f_append f) (f_off f) true]> (files os)) /\
    next_id os1 = S (S (next_id os)) /\
    trace os1 =
      (trace os ++ [EvRotate (path w); EvClose h;
                    EvRename (path w) (backupPath w (now env))]
         ++ (if compress w then [EvGo "compressFile" (backupPath w (now env))] else [])
         ++ [EvOpen (path w) (S (next_id os))])%list.
Proof.
  unfold rotate, File_Close.
  destruct (file w) as [h|] eqn:Ef; [|done]. simpl.
  destruct (files os !! h) as [f|] eqn:Eh; [|done].
  destruct (f_closed f) eqn:Ec; [done|].
  destruct (close_fault env); [done|].
  unfold Rename. simpl. destruct (rename_fault env); [done|].
  destruct (names os !! path w) as [i|] eqn:En; [|done].
  match goal with |- context [OpenFile _ _ _ _ ?o] => set (os3 := o) end.
  assert (Hnone : names os3 !! path w = None).
  { subst os3. destruct (compress w); simpl;
      (rewrite lookup_insert_ne by apply backupPath_fresh); apply lookup_delete_eq. }
  unfold OpenFile. destruct (open_fault env); [done|]. rewrite Hnone.
  intros [= <- <-]. exists h, f, i.
  split; [done|]. split; [done|]. split; [done|]. split; [done|].
  subst os3. destruct (compress w); simpl;
    (split; [done|]); (split; [done|]); (split; [done|]); (split; [done|]);
    (split; [done|]); by rewrite <- !app_assoc.
Qed.

Lemma write_file_names w d env os : names (write_file w d env os).2 = names os.
Proof.
  unfold write_file.
  pose proof (st_names _ _ (File_Write_steady (file w) d (write_accept env)
                              (write_fault env) os)) as H.
  by destruct (File_Write _ _ _ _ _) as [[m [e|]] os1].
Qed.

(** The write that follows a rotation goes to the new file. *)
Lemma write_file_fresh w d env os i h :
  file w = Some h -> files os !! h = Some (mkOsFile i true 0 false) ->
  inodes os !! i = Some "" ->
  let n := Nat.min (write_accept env) (String.length d) in
  let r := write_file w d env os in
  r.1.1.1 = Z.of_nat n /\
  trace r.2 = (trace os ++ [EvWrite h d (Z.of_nat n)])%list /\
  inodes r.2 = <[i := take_bytes n d]> (inodes os) /\
  (r.1.1.2 = None ->
     n = String.length d /\ size r.1.2 = int64_wrap (size w + Z.of_nat n)).
Proof.
  intros Hf Hh Hi n r. subst r. unfold write_file, File_Write.
  rewrite Hf, Hh. simpl. rewrite Hi. simpl. fold n.
  destruct (write_fault env) as [e|]; simpl; [done|].
  destruct (n =? String.length d)%nat eqn:E; simpl; [|done].
  apply Nat.eqb_eq in E. done.
Qed.

(** Where the renames are: [Close], [OpenFile] and the write make none,
    and [rotate] makes at most one, of the log to its backup. *)
Lemma File_Close_no_rename h f os :
  exists evs, trace (File_Close h f os).2 = (trace os ++ evs)%list /\
              Forall no_rename evs.
Proof.
  unfold File_Close. destruct h as [a|]; [|exists []; by rewrite app_nil_r].
  destruct (files os !! a) as [fl|]; [|exists []; by rewrite app_nil_r].
  destruct (f_closed fl); exists [EvClose a]; split; simpl; auto;
    repeat constructor.
Qed.

Lemma OpenFile_no_rename p c ap f os :
  exists evs, trace (OpenFile p c ap f os).2 = (trace os ++ evs)%list /\
              Forall no_rename evs.
Proof.
  unfold OpenFile. destruct f; [exists []; by rewrite app_nil_r|].
  destruct (names os !! p).
  - eexists [_]. split; simpl; eauto. repeat constructor.
  - destruct c; [|exists []; by rewrite app_nil_r].
    eexists [_]. split; simpl; eauto. repeat constructor.
Qed.

Lemma renames_app a b : renames (a ++ b) = (renames a + renames b)%nat.
Proof. unfold renames. by rewrite filter_app, length_app. Qed.

Lemma renames_none evs : Forall no_rename evs -> renames evs = 0%nat.
Proof.
  unfold renames. induction 1 as [|e evs He _ IH]; [done|].
  rewrite filter_cons_False; [done | unfold no_rename in He; by rewrite He].
Qed.

Lemma rotate_rename_trace w env os :
  exists a b c,
    trace (rotate w env os).2 = (trace os ++ a ++ b ++ c)%list /\
    Forall no_rename a /\ Forall no_rename c /\
    (b = [] \/ b = [EvRename (path w) (backupPath w (now env))]).
Proof.
  unfold rotate.
  destruct (File_Close_no_rename (file w) (close_fault env) (emit (EvRotate (path w)) os))
    as (e1 & H1 & Q1).
  assert (Q0 : Forall no_rename (EvRotate (path w) :: e1)) by (by constructor).
  destruct (File_Close _ _ _) as [[err|] os1]; simpl in H1.
  { exists (EvRotate (path w) :: e1), [], []. split; [|auto].
    simpl. rewrite H1, app_nil_r. by rewrite <- app_assoc. }
  set (backup := backupPath w (now env)).
  assert (H2 : exists e2, trace (Rename (path w) backup (rename_fault env) os1).2
                          = (trace os1 ++ e2)%list /\
                          (e2 = [] \/ e2 = [EvRename (path w) backup])).
  { unfold Rename. destruct (rename_fault env); [exists []; rewrite app_nil_r; auto|].
    destruct (names os1 !! path w); [|exists []; rewrite app_nil_r; auto].
    eexists [_]. split; simpl; eauto. }
  destruct H2 as (e2 & H2 & Q2).
  destruct (Rename _ _ _ _) as [[err|] os2]; simpl in H2.
  { exists (EvRotate (path w) :: e1), e2, []. split; [|auto].
    simpl. rewrite H2, H1, app_nil_r. simpl. by rewrite <- !app_assoc. }
  set (os3 := if compress w then _ else os2).
  assert (H3 : exists e3, trace os3 = (trace os2 ++ e3)%list /\ Forall no_rename e3).
  { subst os3. destruct (compress w).
    - eexists [_]. split; simpl; eauto. repeat constructor.
    - exists []. by rewrite app_nil_r. }
  destruct H3 as (e3 & H3 & Q3).
  destruct (OpenFile_no_rename (path w) true true (open_fault env) os3)
    as (e4 & H4 & Q4).
  destruct (OpenFile _ _ _ _ _) as [[f [err|]] os4]; simpl in H4;
    exists (EvRotate (path w) :: e1), e2, (e3 ++ e4)%list;
    (split; [|split; [done|split; [by apply Forall_app|done]]]);
    simpl; rewrite H4, H3, H2, H1; simpl; by rewrite <- !app_assoc.
Qed.

Lemma FileWriter_Write_renames w d env os :
  exists a b c,
    new_events os (FileWriter_Write w d env os).2 = (a ++ b ++ c)%list /\
    Forall no_rename a /\ Forall no_rename c /\
    (b = [] \/
     needs_rotation w d = true /\ b = [EvRename (path w) (backupPath w (now env))]).
Proof.
  unfold FileWriter_Write. destruct (needs_rotation w d).
  - destruct (rotate_rename_trace w env os) as (a & b & c & Ht & Qa & Qc & Hb).
    assert (Hb' : b = [] \/
              true = true /\ b = [EvRename (path w) (backupPath w (now env))])
      by (destruct Hb; auto).
    destruct (rotate w env os) as [[[e|] w1] os1]; simpl in Ht.
    + exists a, b, c. split; [by apply new_events_app | auto].
    + destruct (write_file_new_events w1 d env os1 os _ Ht) as [H|(h & n & H)].
      * exists a, b, c. auto.
      * exists a, b, (c ++ [EvWrite h d n])%list.
        split; [by rewrite H, <- !app_assoc|].
        split; [done|]. split; [|done].
        apply Forall_app. split; [done | by repeat constructor].
  - destruct (write_file_new_events w d env os os [] (eq_sym (app_nil_r _)))
      as [H|(h & n & H)].
    + exists [], [], []. auto.
    + exists [], [], [EvWrite h d n]. split; [done|].
      split; [done|]. split; [by repeat constructor | auto].
Qed.

End RotationEffects.

Import OSys Output Scenario.

(** C2.  [FileWriter.Write] enters [rotate] exactly once when the size
    counter plus the length of the data exceeds the maximum size, and not at
    all otherwise; it does so before the data is written.  Without a
    rotation the call does nothing but the write and the directory is as it
    was.  A rotation that fails ends the call: nothing is written and an
    error is returned.  A rotation that succeeds is, in this order, the close
    of the writer's file, one rename of the log to the backup named after the
    time, the start of the compression when it is on, and the opening of a
    file at the path of the log, followed by the write: on a well-formed disk
    the backup is the old log with its contents, the size counter is zero
    after the rotation, the file at the original path is new and empty, and
    the bytes written are its first bytes.  In every case the call renames
    at most once, only over the limit and only the log to that backup, and
    exactly once when the rotation succeeds.  The sum is taken in [int64],
    hence the bound. *)
Theorem FileWriter_Write_rotation (w : FileWriter) (d : string) (env : Env) (os : OS) :
  0 <= size w -> size w + len d < 2 ^ 63 ->
  let r := FileWriter_Write w d env os in
  let rot := rotate w env os in
  let evs := new_events os r.2 in
  let backup := backupPath w (now env) in
  (rotations evs = 1%nat <-> size w + len d > maxSize w) /\
  (rotations evs = 0%nat <-> size w + len d <= maxSize w) /\
  (forall (i j : nat) p h n,
      evs !! i = Some (EvRotate p) -> evs !! j = Some (EvWrite h d n) -> (i < j)%nat) /\
  (size w + len d <= maxSize w ->
     names r.2 = names os /\ (evs = [] \/ exists h n, evs = [EvWrite h d n])) /\
  (size w + len d > maxSize w -> rot.1.1 <> None ->
     r.1.1.1 = 0 /\ r.1.1.2 <> None /\ inodes r.2 = inodes os /\
     (forall h x n, EvWrite h x n ∉ evs)) /\
  (size w + len d > maxSize w -> rot.1.1 = None ->
     (exists h h' n,
        file w = Some h /\
        evs = ([EvRotate (path w); EvClose h; EvRename (path w) backup]
               ++ (if compress w then [EvGo "compressFile" backup] else [])
               ++ [EvOpen (path w) h'; EvWrite h' d n])%list) /\
     (well_formed os ->
        is_Some (names os !! path w) /\
        names r.2 !! backup = names os !! path w /\
        read_path r.2 backup = read_path os (path w)) /\
     size rot.1.2 = 0 /\
     read_path rot.2 (path w) = Some "" /\
     read_path r.2 (path w) = Some (take_bytes (Z.to_nat r.1.1.1) d) /\
     (r.1.1.2 = None -> read_path r.2 (path w) = Some d /\ size r.1.2 = len d)) /\
  ((renames evs <= 1)%nat /\
   (forall p q, EvRename p q ∈ evs ->
      size w + len d > maxSize w /\ p = path w /\ q = backup) /\
   (size w + len d > maxSize w -> rot.1.1 = None -> renames evs = 1%nat)).
Proof.
  intros H0 H1 r rot evs backup.
  assert (Hren : (renames evs <= 1)%nat /\
    (forall p q, EvRename p q ∈ evs ->
       size w + len d > maxSize w /\ p = path w /\ q = backup)).
  { destruct (FileWriter_Write_renames w d env os) as (a & b & c & Hev & Qa & Qc & Hb).
    fold r in Hev. fold evs in Hev. rewrite Hev. split.
    - rewrite !renames_app, (renames_none a Qa), (renames_none c Qc).
      destruct Hb as [->|[_ ->]]; vm_compute; lia.
    - intros p q Hin.
      assert (Hno : forall l, Forall no_rename l -> EvRename p q ∉ l).
      { intros l Hl Hx. rewrite Forall_forall in Hl. by specialize (Hl _ Hx). }
      rewrite !elem_of_app in Hin. destruct Hin as [Hin|[Hin|Hin]].
      + by apply Hno in Hin.
      + destruct Hb as [->|[Hneed ->]]; [by apply elem_of_nil in Hin|].
        apply list_elem_of_singleton in Hin. injection Hin as -> ->.
        split; [|done]. by apply (needs_rotation_spec w d H0 H1).
      + by apply Hno in Hin. }
  pose proof (needs_rotation_spec w d H0 H1) as Hn.
  destruct (FileWriter_Write_events w d env os) as (rest & post & Hq & Hp & Hev).
  fold r in Hev. fold evs in Hev.
  assert (Hcount : rotations evs = if needs_rotation w d then 1%nat else 0%nat).
  { rewrite Hev, rotations_app, (rotations_post post d Hp).
    destruct (needs_rotation w d); [|done].
    change (EvRotate (path w) :: rest) with ([EvRotate (path w)] ++ rest)%list.
    rewrite rotations_app, (rotations_quiet rest Hq). reflexivity. }
  assert (Hone : size w + len d > maxSize w -> rot.1.1 = None ->
            (exists h h' n,
               evs = ([EvRotate (path w); EvClose h; EvRename (path w) backup]
                      ++ (if compress w then [EvGo "compressFile" backup] else [])
                      ++ [EvOpen (path w) h'; EvWrite h' d n])%list) ->
            renames evs = 1%nat).
  { intros _ _ (h & h' & n & ->). by destruct (compress w). }
  match goal with
  | |- ?A /\ ?B /\ ?C /\ ?D /\ ?E /\ ?F /\ _ => cut (A /\ B /\ C /\ D /\ E /\ F)
  end.
  { intros (C1 & C2 & C3 & C4 & C5 & C6).
    split; [done|]. split; [done|]. split; [done|]. split; [done|]. split; [done|].
    split; [done|]. destruct Hren as [R1 R2]. split; [done|]. split; [done|].
    intros Hgt Hrot. apply (Hone Hgt Hrot).
    destruct (C6 Hgt Hrot) as ((h & h' & n & _ & He) & _). eauto. }
  clear Hren Hone.
  split; [|split; [|split; [|split; [|split]]]].
  - rewrite Hcount. destruct (needs_rotation w d).
    + split; [intros _; by apply Hn | done].
    + split; [done|]. intros Hgt. apply Hn in Hgt. done.
  - rewrite Hcount. destruct (needs_rotation w d).
    + split; [done|]. intros Hle. assert (size w + len d > maxSize w) by by apply Hn. lia.
    + split; [|done]. intros _.
      destruct (Z_gt_le_dec (size w + len d) (maxSize w)) as [Hgt|]; [|done].
      apply Hn in Hgt. done.
  - intros i j p h n Hi Hj. rewrite Hev in Hi, Hj.
    destruct (needs_rotation w d).
    + (* the marker is the first event, the write is in [post] *)
      destruct i as [|i].
      * destruct j as [|j]; [|lia]. simpl in Hi, Hj. congruence.
      * exfalso. simpl in Hi. apply lookup_app_Some in Hi as [Hi|[_ Hi]].
        -- destruct (quiet_lookup _ _ _ Hq Hi) as [Hr _]. done.
        -- destruct Hp as [->|(h' & n' & ->)]; [done|].
           destruct (i - length rest)%nat; simpl in Hi; [congruence | done].
    + exfalso. simpl in Hi.
      destruct Hp as [->|(h' & n' & ->)]; [done|].
      destruct i; simpl in Hi; [congruence | done].
  - (* no rotation *)
    intros Hle.
    assert (Hnr : needs_rotation w d = false).
    { destruct (needs_rotation w d) eqn:E; [|done].
      assert (size w + len d > maxSize w) by by apply Hn. lia. }
    subst r evs. unfold FileWriter_Write. rewrite Hnr.
    split; [apply write_file_names|].
    destruct (write_file_new_events w d env os os [] (eq_sym (app_nil_r _)))
      as [H|(h & n & H)]; [by left | right; eauto].
  - (* a rotation that fails *)
    intros Hgt Hrot. apply Hn in Hgt. subst r rot evs. unfold FileWriter_Write.
    rewrite Hgt. destruct (rotate_trace w env os) as (rest' & Ht & Hq').
    destruct (rotate w env os) as [[[e|] w1] os1] eqn:Er; [|done]. simpl in *.
    destruct (rotate_failure_unusable _ _ _ _ _ _ Er) as (_ & Hi & _).
    split; [done|]. split; [done|]. split; [done|].
    intros h x n Hin. rewrite (new_events_app _ _ _ Ht) in Hin.
    apply elem_of_cons in Hin as [Hin|Hin]; [done|].
    rewrite Forall_forall in Hq'. by destruct (Hq' _ Hin) as [_ Hw].
  - (* a rotation that succeeds *)
    intros Hgt Hrot. apply Hn in Hgt.
    assert (Hr : r = write_file rot.1.2 d env rot.2).
    { subst r rot. unfold FileWriter_Write. rewrite Hgt.
      by destruct (rotate w env os) as [[[e|] w1] os1]. }
    subst rot. destruct (rotate w env os) as [[e w1] os1] eqn:Er.
    simpl in Hrot, Hr |- *. subst e.
    destruct (rotate_success_effects _ _ _ _ _ Er)
      as (h & f & i & Hf & Hh & Hc & Hi & -> & N1 & I1 & F1 & X1 & T1).
    destruct (write_file_fresh (set_file_size w (Some (S (next_id os))) 0) d env os1
                (next_id os) (S (next_id os)))
      as (Hn1 & Ht2 & Hi2 & Herr);
      [done | by rewrite F1, lookup_insert_eq | by rewrite I1, lookup_insert_eq |].
    rewrite <- Hr in Hn1, Ht2, Hi2, Herr.
    pose proof (write_file_names (set_file_size w (Some (S (next_id os))) 0) d env os1)
      as N2. rewrite <- Hr in N2.
    set (k := Nat.min (write_accept env) (String.length d)) in *.
    assert (Hpath : read_path r.2 (path w) = Some (take_bytes k d)).
    { unfold read_path. rewrite N2, N1, lookup_insert_eq. simpl.
      rewrite Hi2. apply lookup_insert_eq. }
    split; [|split; [|split; [done|split; [|split]]]].
    + exists h, (S (next_id os)), (Z.of_nat k). split; [done|].
      subst evs. apply new_events_app. rewrite Ht2, T1. fold backup.
      by rewrite <- !app_assoc.
    + intros [_ Wn]. split; [by eexists|].
      assert (Hb : names r.2 !! backup = Some i).
      { rewrite N2, N1. rewrite lookup_insert_ne by (apply not_eq_sym, backupPath_fresh).
        apply lookup_insert_eq. }
      split; [by rewrite Hb, Hi|].
      unfold read_path. rewrite Hb, Hi. simpl. rewrite Hi2, I1.
      specialize (Wn _ _ Hi). simpl in Wn.
      by rewrite !lookup_insert_ne by lia.
    + unfold read_path. rewrite N1, lookup_insert_eq. simpl.
      rewrite I1. apply lookup_insert_eq.
    + by rewrite Hn1, Nat2Z.id.
    + intros He. destruct (Herr He) as [Hk Hs]. rewrite Hpath, Hk, take_bytes_all.
      split; [done|]. rewrite Hs, Hk. simpl. unfold len in *.
      rewrite int64_wrap_id; lia.
Qed.

(** A write of three bytes to a file of ten with a limit of twelve: the
    log is rotated, the backup holds the ten bytes, the new file the three. *)
Lemma FileWriter_Write_rotation_witness :
  rotations (new_events small_disk
               (FileWriter_Write small_writer "abc" no_faults small_disk).2) = 1%nat /\
  renames (new_events small_disk
             (FileWriter_Write small_writer "abc" no_faults small_disk).2) = 1%nat /\
  new_events small_disk (FileWriter_Write small_writer "abc" no_faults small_disk).2
    = [EvRotate log_path; EvClose 7; EvRename log_path backup_path;
       EvOpen log_path 9; EvWrite 9 "abc" 3] /\
  read_path (FileWriter_Write small_writer "abc" no_faults small_disk).2 backup_path
    = Some "0123456789" /\
  read_path (FileWriter_Write small_writer "abc" no_faults small_disk).2 log_path
    = Some "abc" /\
  size (FileWriter_Write small_writer "abc" no_faults small_disk).1.2 = 3.
Proof.
  destruct (FileWriter_Write_rotation small_writer "abc" no_faults small_disk)
    as (H1 & _ & _ & _ & _ & H6 & _ & _ & H7);
    [vm_compute; discriminate | vm_compute; reflexivity |].
  split; [apply H1; vm_compute; reflexivity|].
  split; [apply H7; vm_compute; reflexivity|].
  destruct H6 as (_ & Hb & _ & _ & _ & H5);
    [vm_compute; reflexivity | vm_compute; reflexivity |].
  split; [vm_compute; reflexivity|].
  destruct Hb as (_ & _ & Hb); [apply (bool_decide_unpack _); vm_compute; exact I|].
  split; [etransitivity; [exact Hb | vm_compute; reflexivity]|].
  destruct H5 as [H5 H6]; [vm_compute; reflexivity|].
  split; [exact H5 | exact H6].
Defined.

(** ** The compression of a backup, with a removal of the partial file that
    can fail *)

Import OSys Output Scenario.

(** C3, as stated: a failure at any step removes the partial compressed
    file.  It does not when the removal fails as well.  Here the copy breaks
    off and the removal of the partial file is refused: [performCompression]
    returns the error of the copy, the backup is intact, and the compressed
    path, which named nothing before, names a file that holds the part of the
    stream written before the error and the trailer the deferred close of
    the gzip writer added. *)
Lemma partial_gz_survives_failed_cleanup :
  let r := performCompression backup_path torn_run backup_disk in
  r.1 = Some "copying file content: reading from source: unexpected EOF" /\
  read_path r.2 backup_path = Some "0123456789" /\
  read_path backup_disk (path_suffix backup_path ".gz") = None /\
  read_path r.2 (path_suffix backup_path ".gz") = Some "gzip-header+blo+trailer" /\
  ~ (forall p env os,
       well_formed os ->
       (performCompression p env os).1 <> None ->
       names (performCompression p env os).2 !! path_suffix p ".gz" = None \/
       names (performCompression p env os).2 = names os).
Proof.
  cbv zeta. split; [vm_compute; reflexivity|]. split; [vm_compute; reflexivity|].
  split; [vm_compute; reflexivity|]. split; [vm_compute; reflexivity|].
  intros H.
  assert (Hwf : well_formed backup_disk)
    by (apply (bool_decide_unpack _); vm_compute; exact I).
  destruct (H backup_path torn_run backup_disk Hwf) as [Hn|Hn].
  - vm_compute. discriminate.
  - vm_compute in Hn. discriminate Hn.
  - apply (f_equal (fun m => m !! path_suffix backup_path ".gz")) in Hn.
    vm_compute in Hn. discriminate Hn.
Qed.

(** C3.  One run of [performCompression] on the backup [p], whatever the
    outcome of each system call.  If it returns no error, the backup is gone,
    the compressed file exists, is not empty and has a header [gzip.NewReader]
    accepts; the copy, the close of the gzip writer, the sync and the close of
    the compressed file all succeeded, and in the trace the sync and the close
    of the compressed file come before the one removal of the backup; when no
    file was at the compressed path before, the compressed file holds the
    bytes of the encoder and nothing else.  If it returns an error, the backup
    is still there with its contents and was never removed.  The removal of
    the partial file is tried and its result dropped: when it succeeds,
    either no compressed file is left or the directory is as it was; when it
    fails after both files were opened, the compressed path still names a
    file. *)
Theorem performCompression_safe (p : Path) (env : CompressEnv) (os : OS) :
  well_formed os ->
  (forall k, names os !! p = Some k -> names os !! path_suffix p ".gz" <> Some k) ->
  let gzp := path_suffix p ".gz" in
  let r := performCompression p env os in
  let evs := new_events os r.2 in
  (r.1 = None ->
     names r.2 !! p = None /\
     (exists content, read_path r.2 gzp = Some content /\ content <> "" /\
                      gzip_header_ok env content = true) /\
     (copy_fault env = None /\ gzclose_fault env = None /\
      gz_sync_fault env = None /\ gz_close_fault env = None) /\
     (exists c pre post, evs = (pre ++ EvRemove p :: post)%list /\
                        EvSync c ∈ pre /\ EvClose c ∈ pre /\ EvRemove p ∉ pre) /\
     (read_path os gzp = None ->
        read_path r.2 gzp = Some (copy_emit env ++ gzclose_emit env))) /\
  (r.1 <> None ->
     names r.2 !! p = names os !! p /\
     read_path r.2 p = read_path os p /\
     (EvRemove p ∉ evs) /\
     (cleanup_fault env = None -> names r.2 !! gzp = None \/ names r.2 = names os) /\
     (cleanup_fault env <> None ->
        src_open_fault env = None -> gz_open_fault env = None ->
        is_Some (names os !! p) ->
        is_Some (names r.2 !! gzp))).
Proof.
  intros Hwf Halias gzp r evs.
  assert (Hnot : forall l, Forall (keeps_p p) l -> EvRemove p ∉ l).
  { intros l Hl Hin. rewrite Forall_forall in Hl. by apply (Hl _ Hin). }
  assert (Hfresh : r.1 = None -> read_path os gzp = None ->
            read_path r.2 gzp = Some (copy_emit env ++ gzclose_emit env))
    by exact (performCompression_fresh_content p env os).
  revert Hfresh. subst r evs. unfold performCompression.
  destruct (OpenFile p false false (src_open_fault env) os)
    as [[source [e|]] os1] eqn:E1.
  { (* the backup cannot be opened *)
    pose proof E1 as E1'.
    apply OpenFile_failed in E1. subst os1. simpl. intros _. split; [done|]. intros _.
    unfold new_events. rewrite drop_all.
    split; [done|]. split; [done|]. split; [apply not_elem_of_nil|].
    split; [auto|]. intros _ Hs _ [k Hk]. exfalso.
    revert E1'. unfold OpenFile. by rewrite Hs, Hk. }
  fold gzp.
  destruct (OpenFile gzp true false (gz_open_fault env) os1)
    as [[compressed [e|]] os2] eqn:E2.
  { (* the compressed file cannot be created *)
    pose proof (OpenFile_ext p p false false (src_open_fault env) os) as X1.
    rewrite E1 in X1. simpl in X1.
    assert (N1 : names os1 = names os /\ inodes os1 = inodes os).
    { revert E1. unfold OpenFile. destruct (src_open_fault env); [done|].
      destruct (names os !! p); [|done]. by intros [= _ <-]. }
    destruct N1 as [N1 I1].
    pose proof E2 as E2'.
    apply OpenFile_failed in E2. subst os2. simpl. intros _. split; [done|]. intros _.
    pose proof (File_Close_ext p source None os1) as X2.
    destruct (trace_ext_trans _ _ _ _ X1 X2) as (evs & Ht & Hq).
    rewrite (new_events_app _ _ _ Ht).
    assert (Hnm : names (File_Close source None os1).2 = names os).
    { by rewrite (st_names _ _ (File_Close_steady source None os1)). }
    unfold read_path. rewrite Hnm, File_Close_inodes, I1.
    split; [done|]. split; [done|]. split; [by apply Hnot|].
    split; [auto|]. intros _ _ Hg _. exfalso.
    revert E2'. unfold OpenFile. rewrite Hg.
    by destruct (names os1 !! gzp). }
  destruct (opens_Inv p env os source compressed os1 os2 Hwf Halias E1 E2)
    as (i & j & c & Hij & -> & Hp & HI & X).
  change (gzip_NewWriterLevel BestCompression) with (@None string).
  destruct (compress_steps_spec p i j c (inodes os !! i) env Hij source os2 HI)
    as (evs & Ht & Hres).
  fold gzp in Hres, Ht.
  destruct X as (e0 & Ht0 & Hq0).
  assert (Hev : new_events os
                  (compress_steps p gzp source (Some c)
                     (mkGzip (Some c) false None) env os2).2 = (e0 ++ evs)%list).
  { apply new_events_app. rewrite Ht, Ht0. by rewrite app_assoc. }
  rewrite Hev.
  destruct (compress_steps p gzp source (Some c) _ env os2) as [[e|] fin]; simpl in *.
  - intros _. split; [done|]. intros _.
    destruct Hres as (Hn & Hd & Hq & Hg & Hk).
    split; [by rewrite Hn, Hp|]. split.
    { unfold read_path. rewrite Hn, Hp. simpl. done. }
    split; [apply Hnot; by apply Forall_app|].
    split.
    + intros Hc. left. by apply Hg.
    + intros Hc _ _ _. rewrite (Hk Hc). by eexists.
  - intros Hfresh. split; [|done]. intros _.
    destruct Hres as (Hn & Hc & Hf & pre & post & -> & Hs & Hcl & Hpre).
    split; [done|]. split; [done|]. split; [done|]. split.
    + exists c, (e0 ++ pre)%list, post.
      split; [by rewrite app_assoc|].
      split; [apply elem_of_app; by right|]. split; [apply elem_of_app; by right|].
      apply Hnot. by apply Forall_app.
    + by apply Hfresh.
Qed.

(** A run in which every step succeeds, and a run in which the copy and
    the removal of the partial file both fail. *)
Lemma performCompression_safe_witness :
  ((performCompression backup_path smooth_run backup_disk).1 = None /\
   names (performCompression backup_path smooth_run backup_disk).2 !! backup_path = None /\
   read_path (performCompression backup_path smooth_run backup_disk).2
     (path_suffix backup_path ".gz") = Some "gzip-header+blocks+trailer") /\
  ((performCompression backup_path torn_run backup_disk).1 <> None /\
   read_path (performCompression backup_path torn_run backup_disk).2 backup_path
     = Some "0123456789" /\
   is_Some (names (performCompression backup_path torn_run backup_disk).2
              !! path_suffix backup_path ".gz")).
Proof.
  assert (Hwf : well_formed backup_disk)
    by (apply (bool_decide_unpack _); vm_compute; exact I).
  assert (Hal : forall k, names backup_disk !! backup_path = Some k ->
                  names backup_disk !! path_suffix backup_path ".gz" <> Some k)
    by (intros k Hk; vm_compute; discriminate).
  split.
  - destruct (performCompression_safe backup_path smooth_run backup_disk Hwf Hal)
      as [H _].
    split; [vm_compute; reflexivity|].
    destruct (H ltac:(vm_compute; reflexivity)) as (Hn & _ & _ & _ & Hc).
    split; [exact Hn|].
    etransitivity; [apply Hc; vm_compute; reflexivity | vm_compute; reflexivity].
  - destruct (performCompression_safe backup_path torn_run backup_disk Hwf Hal)
      as [_ H].
    assert (He : (performCompression backup_path torn_run backup_disk).1 <> None)
      by (vm_compute; discriminate).
    split; [exact He|].
    destruct (H He) as (_ & Hr & _ & _ & Hk).
    split.
    + etransitivity; [exact Hr | vm_compute; reflexivity].
    + apply Hk; [vm_compute; discriminate | reflexivity | reflexivity
                | vm_compute; by eexists].
Defined.

(** ** The level filter, on an open and on a closed queue *)

Import Logger Adapter Scenario.

(** C5.  A call of [log] at level [M] on a logger with minimum level [L]
    and an output.  When [M < L] the call leaves the state as it is: nothing
    is queued and nothing reaches the output; and only then is the call
    without effect.  While the queue is open, an entry is produced (queued,
    or written by the caller when the queue is full) exactly when [M >= L].
    Once the queue is closed (a [Sync] has returned) a call with [M >= L]
    produces no entry: it panics, a send on a closed channel, and this for
    every such call, so there the equivalence fails.  The logger of
    [NewAdapter] after [Sync], called at Warn over a minimum of Info, is such
    a call. *)
Theorem log_level_filter (json_Encode : gmap string Value -> string + string)
    (st : State) (a : nat) (ad : adapter) (ch : Chan) (out : nat)
    (level : Logger.Level) (msg : string) (env : LogEnv) :
  heap st !! a = Some ad -> buffers st !! buffer ad = Some ch ->
  Output (config ad) = Some out ->
  let entry := entry_of ad level msg env in
  let r := log json_Encode a level msg env st in
  let produced :=
    r = Ret (enqueued (buffer ad) ch entry st) \/
    r = Ret (written json_Encode ad out entry st) in
  (level < CLevel (config ad) -> r = Ret st) /\
  (r = Ret st <-> level < CLevel (config ad)) /\
  (ch_closed ch = false ->
     (produced <-> CLevel (config ad) <= level) /\
     (CLevel (config ad) <= level ->
        r = Ret (if (length (ch_queue ch) <? ch_cap ch)%nat
                 then enqueued (buffer ad) ch entry st
                 else written json_Encode ad out entry st))) /\
  (ch_closed ch = true ->
     (CLevel (config ad) <= level -> r = Panic "send on closed channel") /\
     ~ produced) /\
  (Sync no_json 0 (fun _ => false) None started = Ret (None, stopped) /\
   CLevel plain_config <= WarnLevel /\
   log no_json 0 WarnLevel "kept" here stopped = Panic "send on closed channel").
Proof.
  intros Ha Hb Ho entry r produced.
  assert (Hlow : level < CLevel (config ad) -> r = Ret st).
  { intros Hl. subst r. unfold log, deref. rewrite Ha. simpl.
    apply Z.ltb_lt in Hl. by rewrite Hl. }
  assert (Hclosed : ch_closed ch = true -> CLevel (config ad) <= level ->
                    r = Panic "send on closed channel").
  { intros Hc Hle. subst r. unfold log, deref. rewrite Ha. simpl.
    destruct (level <? CLevel (config ad)) eqn:El; [apply Z.ltb_lt in El; lia|].
    unfold dispatch. by rewrite Hb, Hc. }
  assert (Hopen : ch_closed ch = false -> CLevel (config ad) <= level ->
                  r = Ret (if (length (ch_queue ch) <? ch_cap ch)%nat
                           then enqueued (buffer ad) ch entry st
                           else written json_Encode ad out entry st)).
  { intros Hc Hle. by apply log_delivers. }
  assert (Hnone : level < CLevel (config ad) -> ~ produced).
  { intros Hl [Hp|Hp]; rewrite (Hlow Hl) in Hp; injection Hp as Hp; symmetry in Hp.
    - by apply enqueued_changes in Hp.
    - by apply written_changes in Hp. }
  split; [done|]. split; [|split; [|split]].
  - split; [|done]. intros Hret.
    destruct (Z_lt_le_dec level (CLevel (config ad))) as [|Hle]; [done|].
    destruct (ch_closed ch) eqn:Hc.
    + rewrite (Hclosed eq_refl Hle) in Hret. discriminate Hret.
    + rewrite (Hopen eq_refl Hle) in Hret.
      injection Hret as Hret. destruct (_ <? _)%nat.
      * by apply enqueued_changes in Hret.
      * by apply written_changes in Hret.
  - intros Hc. split; [|by apply Hopen]. split.
    + intros Hp. destruct (Z_lt_le_dec level (CLevel (config ad))) as [Hl|]; [|done].
      by destruct (Hnone Hl).
    + intros Hle. subst produced. rewrite (Hopen Hc Hle).
      destruct (_ <? _)%nat; auto.
  - intros Hc. split; [by apply Hclosed|].
    destruct (Z_lt_le_dec level (CLevel (config ad))) as [Hl|Hle]; [by apply Hnone|].
    intros [Hp|Hp]; rewrite (Hclosed Hc Hle) in Hp; discriminate Hp.
  - split; [vm_compute; reflexivity|]. split; [vm_compute; discriminate|].
    vm_compute; reflexivity.
Qed.

(** A call under the level and a call above it on the logger of
    [NewAdapter]; then the call above the level once [Sync] has returned. *)
Lemma log_level_filter_witness :
  log no_json 0 DebugLevel "skipped" here started = Ret started /\
  log no_json 0 WarnLevel "kept" here started =
    Ret (enqueued 0 (mkChan 4 [] false)
           (entry_of (mkAdapter plain_config [] 0 0 0) WarnLevel "kept" here) started) /\
  log no_json 0 WarnLevel "kept" here stopped = Panic "send on closed channel" /\
  sink stopped = [].
Proof.
  split; [|split; [|split]].
  - destruct (log_level_filter no_json started 0
                (mkAdapter plain_config [] 0 0 0) (mkChan 4 [] false) 0
                DebugLevel "skipped" here) as (H1 & _);
      [vm_compute; reflexivity | vm_compute; reflexivity | reflexivity |].
    apply H1. reflexivity.
  - destruct (log_level_filter no_json started 0
                (mkAdapter plain_config [] 0 0 0) (mkChan 4 [] false) 0
                WarnLevel "kept" here) as (_ & _ & H2 & _);
      [vm_compute; reflexivity | vm_compute; reflexivity | reflexivity |].
    destruct (H2 eq_refl) as [_ H3].
    apply H3. vm_compute. discriminate.
  - destruct (log_level_filter no_json stopped 0
                (mkAdapter plain_config [] 0 0 0) (mkChan 4 [] true) 0
                WarnLevel "kept" here) as (_ & _ & _ & H4 & _);
      [vm_compute; reflexivity | vm_compute; reflexivity | reflexivity |].
    destruct (H4 eq_refl) as [H5 _].
    apply H5. vm_compute. discriminate.
  - vm_compute. reflexivity.
Defined.
